(** * relatorionotas: the survey report of [app.py], embedded and verified

    [app.py] reads a spreadsheet exported from a form, classifies its
    columns by name and by content, and renders indicator means, answer
    frequencies and free-text comments.  This file embeds the functions of
    [app.py] as executable definitions and proves the properties the
    specification states about them.

    Conventions of the embedding.
    - A Python [str] is a [list ascii]; a character is a code point in
      U+0000..U+00FF (Latin-1, which covers the Portuguese labels of the
      source).  The classes [\w] and [\s] and [str.lower] are the ones
      Python applies to these code points.
    - A numpy [float64] is an IEEE 754 double, with the arithmetic of
      [SpecFloat] (module [F64]); NaN is [None] in a series.
    - pandas, numpy and [re] are not part of the source: their calls are
      the functions of the modules [Re] and [Pandas] below, each with the
      reading taken of it.  What pandas leaves open (the order in which
      [sort_values] leaves rows of equal key, the reading of dates) is a
      parameter.
    - Streamlit calls are the elements they append to the page, in order. *)

From Stdlib Require Import String DecimalString.
From Stdlib Require Import List Ascii Bool Arith ZArith QArith Qabs Lia.
From Stdlib Require Import Permutation Sorted.
From Stdlib Require Import SpecFloat.
From Stdlib Require DecimalFacts DecimalPos DecimalZ.
Import ListNotations.

Close Scope Q_scope.
Open Scope nat_scope.
Open Scope list_scope.

(* ===================================================================== *)
(** * Strings *)
(* ===================================================================== *)

Module Str.

Definition str := list ascii.

(** A literal of the source. *)
Definition txt (s : string) : str := list_ascii_of_string s.

Definition code (c : ascii) : N := N_of_ascii c.

Definition between (lo hi : N) (c : ascii) : bool :=
  (N.leb lo (code c) && N.leb (code c) hi)%bool.

Definition one_of (l : list N) (c : ascii) : bool :=
  existsb (N.eqb (code c)) l.

(** [str.isspace] and the class [\s] of [re] on the code points below 256:
    TAB..CR, FS..US, space, NEL and the no-break space. *)
Definition isspace (c : ascii) : bool :=
  between 9 13 c || between 28 32 c || one_of [133; 160]%N c.

(** [str.isalnum] below 256: the ASCII letters and digits, the Latin-1
    letters, and the superscript digits and vulgar fractions (numeric). *)
Definition isalnum (c : ascii) : bool :=
  between 48 57 c || between 65 90 c || between 97 122 c
  || one_of [170; 178; 179; 181; 185; 186; 188; 189; 190]%N c
  || between 192 214 c || between 216 246 c || between 248 255 c.

(** The class [\w] of [re]: alphanumeric or underscore. *)
Definition isword (c : ascii) : bool := isalnum c || Ascii.eqb c "_".

(** [str.lower] on one character: A..Z and the Latin-1 capitals (all of
    U+00C0..U+00DE but the multiplication sign) move up by 32. *)
Definition lower_char (c : ascii) : ascii :=
  if between 65 90 c || (between 192 222 c && negb (N.eqb (code c) 215))
  then ascii_of_N (code c + 32) else c.

Definition lower (s : str) : str := map lower_char s.

Fixpoint str_eqb (a b : str) : bool :=
  match a, b with
  | [], [] => true
  | x :: a', y :: b' => Ascii.eqb x y && str_eqb a' b'
  | _, _ => false
  end.

Fixpoint startswith (s p : str) : bool :=
  match p, s with
  | [], _ => true
  | x :: p', y :: s' => Ascii.eqb x y && startswith s' p'
  | _ :: _, [] => false
  end.

(** [needle in hay]. *)
Fixpoint contains (needle hay : str) : bool :=
  startswith hay needle
  || match hay with
     | [] => false
     | _ :: hay' => contains needle hay'
     end.

(** [str.lstrip()], [str.rstrip()] and [str.strip()] with no argument. *)
Fixpoint lstrip (s : str) : str :=
  match s with
  | c :: s' => if isspace c then lstrip s' else s
  | [] => []
  end.

Definition rstrip (s : str) : str := rev (lstrip (rev s)).

Definition strip (s : str) : str := rstrip (lstrip s).

(** [s.replace(old, new)] for one-character [old] and [new]. *)
Definition replace (old new : ascii) (s : str) : str :=
  map (fun c => if Ascii.eqb c old then new else c) s.

(** [str(z)] of a Python [int]. *)
Definition str_of_int (z : Z) : str := txt (NilZero.string_of_int (Z.to_int z)).

(** A character of a label of the page: one of the characters above, or
    the ellipsis U+2026 that [nice_col] writes. *)
Inductive uchar : Type :=
| Latin (c : ascii)
| Ellipsis.

Definition label : Type := list uchar.

(** A text of the characters above, as a label. *)
Definition uni (s : str) : label := map Latin s.

End Str.
Import Str.

(* ===================================================================== *)
(** * Doubles *)
(* ===================================================================== *)

(** The numbers of numpy's [float64]: IEEE 754 binary64, as [SpecFloat]
    specifies it at precision 53 and maximal exponent 1024.  Each operation
    returns its exact result rounded to the nearest double, ties to even. *)
Module F64.

Definition float64 : Type := spec_float.

Definition prec : Z := 53.
Definition emax : Z := 1024.

Definition add : float64 -> float64 -> float64 := SFadd prec emax.
Definition mul : float64 -> float64 -> float64 := SFmul prec emax.
Definition div : float64 -> float64 -> float64 := SFdiv prec emax.
Definition opp : float64 -> float64 := SFopp.

(** The double nearest to an integer: the cast of C, and a literal. *)
Definition of_Z (z : Z) : float64 := binary_normalize prec emax z 0 false.

Definition zero : float64 := S754_zero false.
Definition neg_zero : float64 := S754_zero true.
Definition inf (negative : bool) : float64 := S754_infinity negative.

Definition is_nan (x : float64) : bool :=
  match x with S754_nan => true | _ => false end.

Definition is_inf (x : float64) : bool :=
  match x with S754_infinity _ => true | _ => false end.

(** [x < y] and [x == y]; both are false when NaN is compared. *)
Definition ltb : float64 -> float64 -> bool := SFltb.
Definition eqb : float64 -> float64 -> bool := SFeqb.

(** The equality of the hash table behind [unique()]: [==], and NaN is
    equal to NaN. *)
Definition same (x y : float64) : bool := eqb x y || (is_nan x && is_nan y).

(** The rational that a finite double is. *)
Definition valueQ (x : float64) : option Q :=
  match x with
  | S754_zero _ => Some 0%Q
  | S754_finite s m e =>
      Some (inject_Z (cond_Zopp s (Z.pos m)) * Qpower 2 e)%Q
  | _ => None
  end.

End F64.
Import F64.

(* ===================================================================== *)
(** * Regular expressions *)
(* ===================================================================== *)

(** The two patterns of the source are sequences of a single character
    class or of a greedy [+] of a character class. *)
Module Re.

Inductive atom : Type :=
| One (p : ascii -> bool)
| Many1 (p : ascii -> bool).

Definition regex := list atom.

Definition class_of (a : atom) : ascii -> bool :=
  match a with One p | Many1 p => p end.

(** A greedy [p*] followed by the continuation [k]: the longest run first,
    giving characters back one at a time while [k] fails. *)
Fixpoint greedy (p : ascii -> bool) (k : str -> option str) (s : str)
  : option str :=
  match s with
  | c :: s' =>
      if p c then
        match greedy p k s' with
        | Some r => Some r
        | None => k s
        end
      else k s
  | [] => k s
  end.

(** [re.match] at the head of [s]: the text left after the match that the
    backtracking search finds first. *)
Fixpoint match_here (re : regex) (s : str) : option str :=
  match re with
  | [] => Some s
  | One p :: re' =>
      match s with
      | c :: s' => if p c then match_here re' s' else None
      | [] => None
      end
  | Many1 p :: re' =>
      match s with
      | c :: s' => if p c then greedy p (match_here re') s' else None
      | [] => None
      end
  end.

(** [re.sub(repl, s)]: the leftmost matches, left to right, none
    overlapping.  The patterns here never match the empty string, so each
    step consumes a character and [length s] steps are enough. *)
Fixpoint sub_loop (fuel : nat) (re : regex) (repl s : str) : str :=
  match s with
  | [] => []
  | c :: s' =>
      match fuel with
      | O => s
      | S fuel' =>
          match match_here re s with
          | Some rest => repl ++ sub_loop fuel' re repl rest
          | None => c :: sub_loop fuel' re repl s'
          end
      end
  end.

Definition sub (re : regex) (repl s : str) : str :=
  sub_loop (length s) re repl s.

End Re.
Import Re.

(* ===================================================================== *)
(** * Utilities of [app.py] *)
(* ===================================================================== *)

(** [[\w\.-]]. *)
Definition email_class (c : ascii) : bool :=
  isword c || Ascii.eqb c "." || Ascii.eqb c "-".

(** [EMAIL_RE = re.compile(r"[\w\.-]+@[\w\.-]+\.\w+")]. *)
Definition EMAIL_RE : regex :=
  [Many1 email_class; One (Ascii.eqb "@"); Many1 email_class;
   One (Ascii.eqb "."); Many1 isword].

(** [WHITESPACE_RE = re.compile(r"\s+")]. *)
Definition WHITESPACE_RE : regex := [Many1 isspace].

Definition redaction_marker : str := txt "[e-mail removido]".

Definition preferred : list str :=
  [txt "Carimbo de data/hora"; txt "Timestamp"; txt "Data/hora";
   txt "Data e hora"].

Fixpoint first_col (p : str) (cols : list str) : option str :=
  match cols with
  | [] => None
  | c :: cols' =>
      if contains (lower p) (lower c) then Some c else first_col p cols'
  end.

Fixpoint guess_from (ps : list str) (cols : list str) : option str :=
  match ps with
  | [] => None
  | p :: ps' =>
      match first_col p cols with
      | Some c => Some c
      | None => guess_from ps' cols
      end
  end.

Definition guess_timestamp_col (cols : list str) : option str :=
  guess_from preferred cols.

Definition is_email_col (colname : str) : bool :=
  let c := lower colname in
  contains (txt "e-mail") c || contains (txt "email") c.

Definition is_name_col (colname : str) : bool :=
  let c := lower colname in
  str_eqb c (txt "nome")
  || (contains (txt "nome") c && contains (txt "seu") c).

Definition comment_keys : list str :=
  [txt "coment"; txt "sugest"; txt "observa"; txt "feedback";
   txt "melhoria"; txt "deixe aqui"].

Definition is_comment_col (colname : str) : bool :=
  let c := lower colname in
  existsb (fun k => contains k c) comment_keys.

(** [clean_text]; [None] is Python's [None], the one missing input the
    function tests for. *)
Definition clean_text (s : option str) : str :=
  match s with
  | None => []
  | Some s =>
      let s := sub EMAIL_RE redaction_marker s in
      strip (sub WHITESPACE_RE (txt " ") s)
  end.

Example clean_text_email :
  clean_text (Some (txt "contact me at a.b-c@d.com today"))
  = txt "contact me at [e-mail removido] today".
Proof. vm_compute. reflexivity. Qed.

Example clean_text_ws :
  clean_text (Some (list_ascii_of_string (String "a" (String "010" (String "010"
     (String " " (String " " (String "b" (String "009" (String "c" EmptyString))))))))))
  = txt "a b c".
Proof. vm_compute. reflexivity. Qed.

(* ===================================================================== *)
(** * Series, frames and numeric parsing (pandas) *)
(* ===================================================================== *)

Module Pandas.

(** What a cell of the sheet holds; a missing cell (NaN) is [None].  Cells
    of other kinds (dates, floats written with a fraction) stand here as
    the [Text] that [astype(str)] gives them. *)
Inductive value : Type :=
| Text (s : str)
| Int (z : Z).

Definition series (A : Type) : Type := list (option A).

Definition notna {A} (s : series A) : list bool :=
  map (fun v => match v with Some _ => true | None => false end) s.

Definition dropna {A} (s : series A) : list A :=
  flat_map (fun v => match v with Some x => [x] | None => [] end) s.

Definition str_of_value (v : value) : str :=
  match v with
  | Text s => s
  | Int z => str_of_int z
  end.

(** [astype(str)] on one cell: NaN becomes the text [nan]. *)
Definition astype_str (v : option value) : str :=
  match v with
  | Some x => str_of_value x
  | None => txt "nan"
  end.

(** ** The number parser behind [pd.to_numeric]

    [pd.to_numeric] reads each text with the C function [floatify], which
    calls [precise_xstrtod]: optional blanks, an optional sign, decimal
    digits with an optional fraction (a digit on at least one side of the
    point), an optional exponent, optional blanks, and nothing else.  The
    value is built in doubles as the C code builds it: the first 17 digits
    are accumulated by [number * 10. + digit], further digits of the
    integer part only raise the exponent and further decimals are dropped,
    and the number is then multiplied or divided by a power of ten taken
    from a table of doubles.  A text that is out of range, any other text,
    the empty text and [nan] are not numbers; the spellings of the
    infinities are. *)

Definition is_digit (c : ascii) : bool := between 48 57 c.

Definition digit_of (c : ascii) : Z := Z.of_N (code c) - 48.

Definition is_blank (c : ascii) : bool := between 9 13 c || Ascii.eqb c " ".

Fixpoint skip_blanks (s : str) : str :=
  match s with
  | c :: s' => if is_blank c then skip_blanks s' else s
  | [] => []
  end.

Fixpoint skip_digits (s : str) : str :=
  match s with
  | c :: s' => if is_digit c then skip_digits s' else s
  | [] => []
  end.

(** An optional sign: whether it is a minus, and the text after it. *)
Definition sign (s : str) : bool * str :=
  match s with
  | c :: s' =>
      if Ascii.eqb c "-" then (true, s')
      else if Ascii.eqb c "+" then (false, s')
      else (false, s)
  | [] => (false, s)
  end.

Definition max_digits : nat := 17.

Definition ten : float64 := of_Z 10.

(** The table [e] of the parser: the doubles written [1e0] to [1e308]. *)
Definition e10 (k : Z) : float64 := of_Z (10 ^ k).

(** [number * 10. + (c - '0')]. *)
Definition push (number : float64) (c : ascii) : float64 :=
  add (mul number ten) (of_Z (digit_of c)).

(** The digits of the integer part: the number so far, how many digits
    went into it, the exponent, and the text after the digits. *)
Fixpoint int_digits (number : float64) (num_digits : nat) (exponent : Z)
  (s : str) : float64 * nat * Z * str :=
  match s with
  | c :: s' =>
      if is_digit c then
        if num_digits <? max_digits
        then int_digits (push number c) (S num_digits) exponent s'
        else int_digits number num_digits (exponent + 1) s'
      else (number, num_digits, exponent, s)
  | [] => (number, num_digits, exponent, s)
  end.

(** The digits behind the point; [num_decimals] counts those that went
    into the number. *)
Fixpoint frac_digits (number : float64) (num_digits num_decimals : nat)
  (s : str) : float64 * nat * nat * str :=
  match s with
  | c :: s' =>
      if is_digit c then
        if num_digits <? max_digits
        then frac_digits (push number c) (S num_digits) (S num_decimals) s'
        else (number, num_digits, num_decimals, skip_digits s)
      else (number, num_digits, num_decimals, s)
  | [] => (number, num_digits, num_decimals, s)
  end.

(** The integer that a run of digits writes after [acc], how many digits
    there were (added to [k]), and the text after them. *)
Fixpoint digits (acc : Z) (k : nat) (s : str) : Z * nat * str :=
  match s with
  | c :: s' =>
      if is_digit c then digits (10 * acc + digit_of c) (S k) s'
      else (acc, k, s)
  | [] => (acc, k, s)
  end.

(** An optional exponent: whether the letter was there, the exponent and
    the text after it; [None] when the letter has no digits behind it.
    (The C code holds the exponent in an [int]; exponents of ten digits
    and more, which overflow it, are read here as they are written.) *)
Definition exponent_part (s : str) : option (bool * Z * str) :=
  match s with
  | c :: s' =>
      if Ascii.eqb c "e" || Ascii.eqb c "E" then
        let (negative, s1) := sign s' in
        let '(n, k, s2) := digits 0 0 s1 in
        if k =? 0 then None
        else Some (true, if negative then (- n)%Z else n, s2)
      else Some (false, 0%Z, s)
  | [] => Some (false, 0%Z, s)
  end.

(** The power of ten is applied; [None] is the range error of C. *)
Definition scale (number : float64) (exponent : Z) : option float64 :=
  if (308 <? exponent)%Z then None
  else
    let x :=
      if (0 <? exponent)%Z then mul number (e10 exponent)
      else if (exponent <? -308)%Z then
        if (exponent <? -616)%Z then zero
        else div (div number (e10 (-308 - exponent))) (e10 308)
      else div number (e10 (- exponent)) in
    if is_inf x then None else Some x.

(** The double read, and [maybe_int]: whether the text had neither a point
    nor an exponent. *)
Definition precise_xstrtod (s : str) : option (float64 * bool) :=
  let s := skip_blanks s in
  let (negative, s) := sign s in
  let '(number, num_digits, exponent, s) := int_digits zero 0 0 s in
  let '(number, num_digits, exponent, point, s) :=
    match s with
    | c :: s' =>
        if Ascii.eqb c "." then
          let '(x, k, d, s'') := frac_digits number num_digits 0 s' in
          (x, k, (exponent - Z.of_nat d)%Z, true, s'')
        else (number, num_digits, exponent, false, s)
    | [] => (number, num_digits, exponent, false, s)
    end in
  if num_digits =? 0 then None
  else
    let number := if negative then opp number else number in
    match exponent_part s with
    | None => None
    | Some (marked, n, s) =>
        match scale number (exponent + n) with
        | None => None
        | Some x =>
            match skip_blanks s with
            | [] => Some (x, negb point && negb marked)
            | _ :: _ => None
            end
        end
    end.

(** The spellings of the infinities, compared without regard to case. *)
Definition infinities : list (str * float64) :=
  [(txt "inf", inf false); (txt "+inf", inf false); (txt "-inf", inf true);
   (txt "infinity", inf false); (txt "+infinity", inf false);
   (txt "-infinity", inf true)].

Definition floatify (s : str) : option (float64 * bool) :=
  match precise_xstrtod s with
  | Some r => Some r
  | None =>
      match find (fun p => str_eqb (lower s) (fst p)) infinities with
      | Some (_, x) => Some (x, false)
      | None => None
      end
  end.

(** [int(s)] of Python, for a text that [floatify] read as an integer. *)
Definition int_of (s : str) : Z :=
  let (negative, s) := sign (skip_blanks s) in
  let '(z, _, _) := digits 0 0 s in
  if negative then (- z)%Z else z.

(** ** [pd.to_numeric(..., errors="coerce")]

    A number of a numeric series is an integer (the series is an [int64]
    or a [uint64] array) or a double (a [float64] array); a series holds
    numbers of one kind.  Every text is read on its own; the series stays
    an integer array when every text is an integer that fits in 64 bits, and
    becomes a [float64] array otherwise, each text then standing for the
    double read from it and a text that is no number for NaN.  (A column
    that mixes negative integers with integers above the [int64] range is
    left as text by pandas; it is read as doubles here.) *)
Inductive number : Type :=
| Whole (z : Z)
| Real (f : float64).

Inductive reading : Type :=
| Unread
| Integer (z : Z) (f : float64)
| Floating (f : float64).

Definition convert (s : str) : reading :=
  match floatify s with
  | Some (f, maybe_int) =>
      if is_nan f then Unread
      else if maybe_int then Integer (int_of s) f
      else Floating f
  | None => Unread
  end.

Definition int64_min : Z := - 2 ^ 63.
Definition int64_max : Z := 2 ^ 63 - 1.
Definition uint64_max : Z := 2 ^ 64 - 1.

Definition integers_within (lo hi : Z) (rs : list reading) : bool :=
  forallb (fun r =>
             match r with
             | Integer z _ => (lo <=? z)%Z && (z <=? hi)%Z
             | _ => false
             end) rs.

Definition as_whole (r : reading) : option number :=
  match r with
  | Integer z _ => Some (Whole z)
  | _ => None
  end.

Definition as_real (r : reading) : option number :=
  match r with
  | Integer _ f | Floating f => Some (Real f)
  | Unread => None
  end.

Definition to_numeric (texts : list str) : series number :=
  let rs := map convert texts in
  if integers_within int64_min int64_max rs || integers_within 0 uint64_max rs
  then map as_whole rs
  else map as_real rs.

(** The equality of [unique()] on a numeric series. *)
Definition number_eqb (a b : number) : bool :=
  match a, b with
  | Whole x, Whole y => Z.eqb x y
  | Real f, Real g => same f g
  | _, _ => false
  end.

(** ** Sums and means

    [np.add.reduce] on an array of doubles is numpy's pairwise summation:
    fewer than 8 numbers are added from left to right; up to 128 numbers
    are added into eight interleaved partial sums, which are then added in
    pairs, and the numbers left over are added last; a longer array is cut
    in two near its middle, at a multiple of 8, and the sums of the two
    parts are added. *)

Definition seq_sum (acc : float64) (a : list float64) : float64 :=
  fold_left add a acc.

(** [r[j] += a[i + j]], for the eight partial sums. *)
Fixpoint add_row (r row : list float64) : list float64 :=
  match r, row with
  | x :: r', y :: row' => add x y :: add_row r' row'
  | _, _ => []
  end.

(** The loop over the rows of eight numbers; the numbers left over. *)
Fixpoint block_rows (r a : list float64) {struct a}
  : list float64 * list float64 :=
  match a with
  | a0 :: a1 :: a2 :: a3 :: a4 :: a5 :: a6 :: a7 :: rest =>
      block_rows (add_row r [a0; a1; a2; a3; a4; a5; a6; a7]) rest
  | _ => (r, a)
  end.

Definition add_pairs (r : list float64) : float64 :=
  match r with
  | [r0; r1; r2; r3; r4; r5; r6; r7] =>
      add (add (add r0 r1) (add r2 r3)) (add (add r4 r5) (add r6 r7))
  | _ => neg_zero
  end.

(** An array of 8 to 128 numbers. *)
Definition block_sum (a : list float64) : float64 :=
  let (r, rest) := block_rows (firstn 8 a) (skipn 8 a) in
  seq_sum (add_pairs r) rest.

(** [fuel] bounds the depth of the cuts; the length of the array is
    enough. *)
Fixpoint pairwise (fuel : nat) (a : list float64) : float64 :=
  let n := length a in
  if n <? 8 then seq_sum neg_zero a
  else if n <=? 128 then block_sum a
  else
    match fuel with
    | S fuel' =>
        let n2 := n / 2 - (n / 2) mod 8 in
        add (pairwise fuel' (firstn n2 a)) (pairwise fuel' (skipn n2 a))
    | 0 => block_sum a
    end.

Definition pairwise_sum (a : list float64) : float64 := pairwise (length a) a.

(** An array of integers summed as doubles is cast through a buffer of
    8192 numbers: each buffer is summed pairwise and added to the total. *)
Definition bufsize : nat := 8 * 1024.

Fixpoint buffers (fuel : nat) (a : list float64) : list (list float64) :=
  match fuel with
  | S fuel' =>
      if length a <=? bufsize then [a]
      else firstn bufsize a :: buffers fuel' (skipn bufsize a)
  | 0 => [a]
  end.

Definition as_float (x : number) : float64 :=
  match x with
  | Whole z => of_Z z
  | Real f => f
  end.

(** The array that is summed: a missing value is replaced by 0. *)
Definition fill0 (s : series number) : list float64 :=
  map (fun v => match v with Some x => as_float x | None => zero end) s.

Definition is_whole (s : series number) : bool :=
  forallb (fun v => match v with Some (Whole _) => true | _ => false end) s.

Definition np_sum (s : series number) : float64 :=
  if is_whole s
  then fold_left (fun acc buf => add acc (pairwise_sum buf))
         (buffers (length s) (fill0 s)) neg_zero
  else add neg_zero (pairwise_sum (fill0 s)).

(** [Series.mean()]: the sum of the array, missing values standing as 0,
    divided by the number of present values; NaN when there is none. *)
Definition mean (s : series number) : option float64 :=
  let count := length (dropna s) in
  if count =? 0 then None
  else
    let m := div (np_sum s) (of_Z (Z.of_nat count)) in
    if is_nan m then None else Some m.

(** The mean of a boolean series: the share of [True], a quotient of two
    counts.  The source only compares it with 0.5, and rounding the
    quotient to a double does not change that comparison (0.5 is a double
    and rounding is monotone), so the share is kept as the exact
    quotient. *)
Definition count_true (bs : list bool) : nat := length (filter (fun b => b) bs).

Definition mean_bool (bs : list bool) : option Q :=
  match bs with
  | [] => None
  | _ => Some (inject_Z (Z.of_nat (count_true bs)) / inject_Z (Z.of_nat (length bs)))%Q
  end.

(** [x >= 0.5]; a comparison with NaN is false. *)
Definition ge_half (x : option Q) : bool :=
  match x with
  | Some q => Qle_bool (1#2)%Q q
  | None => false
  end.

(** [unique()], in order of first appearance. *)
Fixpoint unique_from {A} (eqb : A -> A -> bool) (seen xs : list A) : list A :=
  match xs with
  | [] => []
  | x :: xs' =>
      if existsb (eqb x) seen then unique_from eqb seen xs'
      else x :: unique_from eqb (x :: seen) xs'
  end.

Definition unique {A} (eqb : A -> A -> bool) (xs : list A) : list A :=
  unique_from eqb [] xs.

(** ** Sorting

    [value_counts] orders its rows by count, greatest first, and leaves
    rows of equal count in their first order.  [insert] and [sort_desc] are
    this stable sort: each row is put behind the rows whose key is greater
    or equal.  [above y x] says that the key of [y] is strictly greater. *)
Section Sort.
Context {A : Type} (above : A -> A -> bool).

Fixpoint insert (x : A) (l : list A) : list A :=
  match l with
  | [] => [x]
  | y :: l' => if above y x then y :: insert x l' else x :: l
  end.

Definition sort_desc (l : list A) : list A := fold_right insert [] l.

End Sort.

(** [DataFrame.sort_values(by, ascending=False)] is called by the source
    with its default kind, [quicksort], which is no stable sort: numpy
    leaves the order of rows of equal key to its implementation.  Such a
    sort is any function that returns the rows it was given, no row above a
    row of greater key. *)
Definition sorts_descending {A} (above : A -> A -> bool)
  (sort : list A -> list A) : Prop :=
  forall l,
    Permutation (sort l) l
    /\ StronglySorted (fun a b => above b a = false) (sort l).

Definition count {A} (eqb : A -> A -> bool) (x : A) (xs : list A) : nat :=
  length (filter (eqb x) xs).

(** [Series.value_counts()] followed by [reset_index()]. *)
Definition value_counts (xs : list str) : list (str * nat) :=
  sort_desc (fun a b => snd b <? snd a)
    (map (fun k => (k, count str_eqb k xs)) (unique str_eqb xs)).

(** ** Frames *)

Definition dataframe : Type := list (str * series value).

Definition columns (df : dataframe) : list str := map fst df.

(** [df[c]]; [None] is the [KeyError] of a name that is no column. *)
Fixpoint getcol (df : dataframe) (c : str) : option (series value) :=
  match df with
  | [] => None
  | (name, s) :: df' => if str_eqb name c then Some s else getcol df' c
  end.

Definition mem (c : str) (l : list str) : bool := existsb (str_eqb c) l.

(** [df.drop(columns=cols, errors="ignore")]. *)
Definition drop (df : dataframe) (cols : list str) : dataframe :=
  filter (fun p => negb (mem (fst p) cols)) df.

(** [df.empty]: no column, or no row. *)
Definition empty (df : dataframe) : bool :=
  match df with
  | [] => true
  | (_, s) :: _ => length s =? 0
  end.

End Pandas.
Import Pandas.

(* ===================================================================== *)
(** * The report of [app.py] *)
(* ===================================================================== *)

(** [to_numeric_series]. *)
Definition normalise (v : option value) : str :=
  replace "," "." (astype_str v).

Definition to_numeric_series (s : series value) : series number :=
  to_numeric (map normalise s).

(** [nice_col]; the name is given as a label, which may hold the ellipsis
    as any other character. *)
Definition nice_col (col : label) : label :=
  if length col <=? 60 then col
  else firstn 57 col ++ [Ellipsis].

(** The sidebar: the two toggles and the slider. *)
Record controls : Type := {
  hide_identifying : bool;
  show_raw_table : bool;
  max_comments : nat
}.

(** [st.slider(label, 5, 100, 30, 5)]. *)
Definition slider_min : nat := 5.
Definition slider_max : nat := 100.
Definition slider_default : nat := 30.
Definition slider_step : nat := 5.

Definition slider_value (n : nat) : bool :=
  (slider_min <=? n) && (n <=? slider_max)
  && ((n - slider_min) mod slider_step =? 0).

Definition default_controls : controls :=
  {| hide_identifying := true; show_raw_table := false;
     max_comments := slider_default |}.

Definition ts_col (df : dataframe) : option str :=
  guess_timestamp_col (columns df).

Definition identifying (c : str) : bool := is_email_col c || is_name_col c.

Definition id_cols (df : dataframe) : list str :=
  filter identifying (columns df).

Definition df_work (ctl : controls) (df : dataframe) : dataframe :=
  match hide_identifying ctl, id_cols df with
  | true, _ :: _ => drop df (id_cols df)
  | _, _ => df
  end.

(** ** Summary: the score tile *)

(** The tile shows the dash, or the number with two decimals. *)
Inductive metric : Type :=
| Dash
| Fixed2 (x : float64).

Definition score_word : str :=
  txt "pontua" ++ [ascii_of_nat 231; ascii_of_nat 227] ++ txt "o".

Definition score_col (df : dataframe) : option str :=
  find (fun c => contains score_word (lower c)) (columns df).

Definition score_metric (df : dataframe) : metric :=
  match score_col df with
  | Some c =>
      match getcol df c with
      | Some s =>
          match mean (to_numeric_series s) with
          | Some m => Fixed2 m
          | None => Dash
          end
      | None => Dash
      end
  | None => Dash
  end.

(** ** Numeric indicators *)

(** The test of the loop over [df_work.columns]. *)
Definition indicator (s : series number) : bool :=
  ge_half (mean_bool (notna s))
  && (length (unique number_eqb (dropna s)) <=? 20).

Definition numeric_col (dfw : dataframe) (c : str) : bool :=
  match getcol dfw c with
  | Some s => indicator (to_numeric_series s)
  | None => false
  end.

Definition numeric_cols (dfw : dataframe) : list str :=
  filter (numeric_col dfw) (columns dfw).

Definition col_mean (dfw : dataframe) (c : str) : option float64 :=
  match getcol dfw c with
  | Some s => mean (to_numeric_series s)
  | None => None
  end.

(** A row of the frame [means]: the label and the mean. *)
Definition row : Type := label * option float64.

(** The rows of the frame [means] before it is sorted. *)
Definition mean_rows (dfw : dataframe) : list row :=
  map (fun c => (nice_col (uni c), col_mean dfw c)) (numeric_cols dfw).

(** The key of a row: its mean, if it is a number. *)
Definition key (r : row) : option float64 :=
  match snd r with
  | Some x => if is_nan x then None else Some x
  | None => None
  end.

(** The order of [sort_values("Média", ascending=False)]: a greater mean
    first, NaN last. *)
Definition mean_above (a b : row) : bool :=
  match key a, key b with
  | Some x, Some y => ltb y x
  | Some _, None => true
  | None, _ => false
  end.

(** The frame [means]; [sort_values] is the sort of pandas, of which the
    source fixes the key and the direction only. *)
Definition means (sort_values : list row -> list row) (dfw : dataframe)
  : list row :=
  sort_values (mean_rows dfw).

(** ** Textual questions *)

Definition is_ts (ts : option str) (c : str) : bool :=
  match ts with
  | Some t => str_eqb c t
  | None => false
  end.

Definition textual_cols (ctl : controls) (df : dataframe) : list str :=
  let numeric := numeric_cols (df_work ctl df) in
  let ts := ts_col df in
  filter (fun c =>
            negb (mem c numeric)
            && negb (is_ts ts c)
            && negb (is_comment_col c)
            && negb (hide_identifying ctl && identifying c))
         (columns df).

(** The cleaned answers of one column, in row order. *)
Definition answers (s : series value) : list str :=
  map (fun v => clean_text (Some (str_of_value v))) (dropna s).

(** The frame [freq] for the selected question [q]. *)
Definition freq (df : dataframe) (q : str) : list (str * nat) :=
  match getcol df q with
  | Some s => value_counts (answers s)
  | None => []
  end.

(** ** Comments *)

Definition comment_cols (df : dataframe) : list str :=
  filter is_comment_col (columns df).

Definition comments (df : dataframe) (c : str) : list str :=
  match getcol df c with
  | Some s => answers s
  | None => []
  end.

(** ** The page *)

Inductive message : Type :=
| No_indicators
| No_textual_question
| No_comment_field.

Inductive element : Type :=
| Info (m : message)
| Indicator_chart (rows : list row)
| Indicator_table (rows : list row)
| Frequency_chart (rows : list (str * nat))
| Frequency_table (rows : list (str * nat))
| Title (l : label)
| No_comments
| Bullet (t : str)
| Divider
| Raw_table (df : dataframe).

Definition indicators_section (sort_values : list row -> list row)
  (ctl : controls) (df : dataframe) : list element :=
  match numeric_cols (df_work ctl df) with
  | [] => [Info No_indicators]
  | _ :: _ =>
      let rows := means sort_values (df_work ctl df) in
      [Indicator_chart rows; Indicator_table rows]
  end.

(** [q] is the choice made in the select box among [textual_cols]. *)
Definition frequency_section (ctl : controls) (df : dataframe) (q : str)
  : list element :=
  match textual_cols ctl df with
  | [] => [Info No_textual_question]
  | _ :: _ =>
      let rows := freq df q in
      [Frequency_chart (firstn 15 rows); Frequency_table rows]
  end.

Definition comment_block (ctl : controls) (df : dataframe) (c : str)
  : list element :=
  Title (nice_col (uni c))
  :: match comments df c with
     | [] => [No_comments]
     | cs => map Bullet (firstn (max_comments ctl) cs)
     end
  ++ [Divider].

Definition comments_section (ctl : controls) (df : dataframe) : list element :=
  match comment_cols df with
  | [] => [Info No_comment_field]
  | cs => flat_map (comment_block ctl df) cs
  end.

Definition raw_table_section (ctl : controls) (df : dataframe) : list element :=
  if show_raw_table ctl then [Raw_table (df_work ctl df)] else [].

(** ** Worked values *)

(** The double nearest to the quotient of two integers. *)
Definition ratio (a b : Z) : float64 := div (of_Z a) (of_Z b).

Example to_numeric_decimal_comma :
  to_numeric_series [Some (Text (txt "4,5"))] = [Some (Real (ratio 45 10))].
Proof. vm_compute. reflexivity. Qed.

Example to_numeric_not_a_number :
  to_numeric_series [Some (Text (txt "n/a"))] = [None].
Proof. vm_compute. reflexivity. Qed.

Example to_numeric_integers :
  to_numeric_series [Some (Text (txt "7")); Some (Int 12)]
  = [Some (Whole 7); Some (Whole 12)].
Proof. vm_compute. reflexivity. Qed.

Example to_numeric_infinity :
  to_numeric_series [Some (Text (txt "-Inf")); Some (Text (txt "1e400"))]
  = [Some (Real (inf true)); None].
Proof. vm_compute. reflexivity. Qed.

Example mean_of_doubles :
  mean (to_numeric_series [Some (Text (txt "0.1")); Some (Text (txt "0,7"))])
  = Some (S754_finite false 7205759403792793 (-54)).
Proof. vm_compute. reflexivity. Qed.

Example value_counts_yes_no :
  value_counts [txt "Yes"; txt "No"; txt "Yes"; txt "Yes"]
  = [(txt "Yes", 3); (txt "No", 1)].
Proof. vm_compute. reflexivity. Qed.

(* ===================================================================== *)
(** * The summary tiles and the run of the script *)
(* ===================================================================== *)

(** [len(df)]. *)
Definition nrows (df : dataframe) : nat :=
  match df with
  | [] => 0
  | (_, s) :: _ => length s
  end.

(** The truth value of a [str]. *)
Definition truthy (s : str) : bool := negb (length s =? 0).

(** The period tile: the dash, or the dates of the first and of the last
    answer.  A date is the number of its day. *)
Inductive period : Type :=
| Period_dash
| Period_range (first last : Z).

Definition ns_per_day : Z := 86400000000000.

(** [Timestamp.date()] of an instant given in nanoseconds. *)
Definition date (t : Z) : Z := (t / ns_per_day)%Z.

Section Period.

(** [pd.to_datetime(..., errors="coerce")] on one cell: the instant, in
    nanoseconds; NaT is [None].  How pandas reads a date is no part of the
    source and is left open. *)
Variable to_datetime : option value -> option Z.

(** The sort behind [sort_values]. *)
Variable sort_values : list row -> list row.

Definition period_metric (df : dataframe) : period :=
  match ts_col df with
  | Some c =>
      if truthy c then
        match getcol df c with
        | Some s =>
            match dropna (map to_datetime s) with
            | [] => Period_dash
            | t :: ts =>
                Period_range (date (fold_left Z.min ts t))
                             (date (fold_left Z.max ts t))
            end
        | None => Period_dash
        end
      else Period_dash
  | None => Period_dash
  end.

(** What the script puts on the page, from top to bottom. *)
Inductive heading : Type :=
| Summary_heading
| Indicators_heading
| Questions_heading
| Comments_heading
| Table_heading.

Inductive block : Type :=
| Page_title
| Page_caption
| Upload_prompt
| Empty_warning
| Subheader (h : heading)
| Respondents (n : nat)
| Period (p : period)
| Score (m : metric)
| Part (e : element)
| Footer.

(** The script: [up] is the sheet read from the uploaded file, if any, and
    [q] the question chosen in the select box.  [st.stop()] ends the
    page. *)
Definition script (ctl : controls) (up : option dataframe) (q : str)
  : list block :=
  [Page_title; Page_caption]
  ++ match up with
     | None => [Upload_prompt]
     | Some df =>
         if empty df then [Empty_warning]
         else
           [Subheader Summary_heading; Respondents (nrows df);
            Period (period_metric df); Score (score_metric df)]
           ++ Subheader Indicators_heading
              :: map Part (indicators_section sort_values ctl df)
           ++ Subheader Questions_heading
              :: map Part (frequency_section ctl df q)
           ++ Subheader Comments_heading
              :: map Part (comments_section ctl df)
           ++ (if show_raw_table ctl
               then Subheader Table_heading
                    :: map Part (raw_table_section ctl df)
               else [])
           ++ [Footer]
     end.

End Period.

(* ===================================================================== *)
(** * Theory of the matcher *)
(* ===================================================================== *)

Module ReFacts.

(** The words a pattern denotes. *)
Inductive lang : regex -> str -> Prop :=
| lang_nil : lang [] []
| lang_one p re c w :
    p c = true -> lang re w -> lang (One p :: re) (c :: w)
| lang_many p re c u w :
    p c = true -> forallb p u = true -> lang re w ->
    lang (Many1 p :: re) (c :: u ++ w).

(** [s] has a substring that the pattern denotes. *)
Definition found (re : regex) (s : str) : Prop :=
  exists pre w suf, s = pre ++ w ++ suf /\ lang re w.

Lemma greedy_sound p k s r :
  greedy p k s = Some r ->
  exists u t, s = u ++ t /\ forallb p u = true /\ k t = Some r.
Proof.
  induction s as [|c s IH]; simpl; intros H.
  - exists [], []. auto.
  - destruct (p c) eqn:Hc.
    + destruct (greedy p k s) as [r'|] eqn:Hg.
      * inversion H; subst r'. destruct (IH eq_refl) as (u & t & -> & Hu & Hk).
        exists (c :: u), t. simpl. rewrite Hc, Hu. auto.
      * exists [], (c :: s). auto.
    + exists [], (c :: s). auto.
Qed.

Lemma greedy_complete p k u t r :
  forallb p u = true -> k t = Some r ->
  exists r', greedy p k (u ++ t) = Some r'.
Proof.
  induction u as [|c u IH]; simpl; intros Hu Hk.
  - destruct t as [|d t]; simpl.
    + eauto.
    + destruct (p d); [destruct (greedy p k t)|]; eauto.
  - apply andb_true_iff in Hu as [Hc Hu]. rewrite Hc.
    destruct (IH Hu Hk) as [r' ->]. eauto.
Qed.

Lemma match_here_sound re : forall s r,
  match_here re s = Some r -> exists w, s = w ++ r /\ lang re w.
Proof.
  induction re as [|a re IH]; simpl; intros s r H.
  - inversion H; subst. exists []. split; [reflexivity | constructor].
  - destruct a as [p|p]; destruct s as [|c s]; try discriminate;
      destruct (p c) eqn:Hc; try discriminate.
    + destruct (IH _ _ H) as (w & -> & Hw).
      exists (c :: w). split; [reflexivity | now constructor].
    + destruct (greedy_sound _ _ _ _ H) as (u & t & -> & Hu & Hk).
      destruct (IH _ _ Hk) as (w & -> & Hw).
      exists (c :: u ++ w). split.
      * simpl. now rewrite app_assoc.
      * now constructor.
Qed.

Lemma match_here_complete re w :
  lang re w -> forall r, exists r', match_here re (w ++ r) = Some r'.
Proof.
  induction 1 as [|p re c w Hc _ IH|p re c u w Hc Hu _ IH]; intros r; simpl.
  - eauto.
  - rewrite Hc. apply IH.
  - rewrite Hc. destruct (IH r) as [r' Hr'].
    rewrite <- app_assoc. eapply greedy_complete; eauto.
Qed.

(** Every atom consumes at least one character. *)
Lemma lang_length re w : lang re w -> length re <= length w.
Proof.
  induction 1; simpl; try lia. rewrite length_app. lia.
Qed.

Lemma match_here_shorter re s r :
  match_here re s = Some r -> length r + length re <= length s.
Proof.
  intros H. destruct (match_here_sound _ _ _ H) as (w & -> & Hw).
  apply lang_length in Hw. rewrite length_app. lia.
Qed.

Lemma lang_classes re w :
  lang re w -> forall q, (forall a, In a re -> forall c, class_of a c = true -> q c = true) ->
  forallb q w = true.
Proof.
  induction 1 as [|p re c w Hc _ IH|p re c u w Hc Hu _ IH]; intros q Hq; simpl.
  - reflexivity.
  - rewrite (Hq (One p) (or_introl eq_refl) c Hc). simpl.
    apply IH. intros a Ha. apply Hq. now right.
  - rewrite (Hq (Many1 p) (or_introl eq_refl) c Hc). simpl.
    rewrite forallb_app. apply andb_true_iff. split.
    + apply forallb_forall. intros x Hx.
      apply (Hq (Many1 p) (or_introl eq_refl)). simpl.
      rewrite forallb_forall in Hu. now apply Hu.
    + apply IH. intros a Ha. apply Hq. now right.
Qed.

(** The unfolding of [sub] for a pattern with at least one atom. *)
Lemma sub_loop_enough re repl : re <> [] -> forall n m s,
  length s <= n -> length s <= m ->
  sub_loop n re repl s = sub_loop m re repl s.
Proof.
  intros Hre. induction n as [|n IH]; intros m s Hn Hm.
  - destruct s; simpl in *; [destruct m; reflexivity | lia].
  - destruct s as [|c s]; [destruct m; reflexivity|].
    destruct m as [|m]; simpl in Hn, Hm; [lia|].
    simpl. destruct (match_here re (c :: s)) as [r|] eqn:Hr.
    + apply match_here_shorter in Hr. simpl in Hr.
      assert (0 < length re) by (destruct re; [congruence | simpl; lia]).
      f_equal. apply IH; lia.
    + f_equal. apply IH; lia.
Qed.

Lemma sub_nil re repl : sub re repl [] = [].
Proof. reflexivity. Qed.

Lemma sub_cons re repl c s : re <> [] ->
  sub re repl (c :: s) =
  match match_here re (c :: s) with
  | Some rest => repl ++ sub re repl rest
  | None => c :: sub re repl s
  end.
Proof.
  intros Hre. unfold sub at 1. cbn [length sub_loop].
  destruct (match_here re (c :: s)) as [r|] eqn:Hr.
  - f_equal. apply sub_loop_enough; auto.
    apply match_here_shorter in Hr. simpl in Hr.
    assert (0 < length re) by (destruct re; [congruence | simpl; lia]). lia.
  - reflexivity.
Qed.

Lemma found_cons re c s : found re s -> found re (c :: s).
Proof.
  intros (pre & w & suf & -> & Hw). exists (c :: pre), w, suf. auto.
Qed.

Lemma found_app_l re a s : found re s -> found re (a ++ s).
Proof. induction a; simpl; auto using found_cons. Qed.

Lemma found_app_r re a s : found re s -> found re (s ++ a).
Proof.
  intros (pre & w & suf & -> & Hw). exists pre, w, (suf ++ a).
  split; [now rewrite <- !app_assoc | assumption].
Qed.

(** Where nothing matches, [sub] changes nothing. *)
Lemma sub_id re repl s : re <> [] -> ~ found re s -> sub re repl s = s.
Proof.
  intros Hre. induction s as [|c s IH]; intros Hnf; [reflexivity|].
  rewrite sub_cons by assumption.
  destruct (match_here re (c :: s)) as [r|] eqn:Hr.
  - exfalso. apply Hnf. destruct (match_here_sound _ _ _ Hr) as (w & E & Hw).
    exists [], w, r. auto.
  - f_equal. apply IH. intros Hf. apply Hnf. now apply found_cons.
Qed.

End ReFacts.
Import ReFacts.

(* ===================================================================== *)
(** * Facts on [clean_text] *)
(* ===================================================================== *)

Module CleanFacts.

(** The characters an e-mail match is made of. *)
Definition email_char (c : ascii) : bool := email_class c || Ascii.eqb c "@".

Ltac all_chars c :=
  destruct c as [[] [] [] [] [] [] [] []]; vm_compute; try reflexivity;
  try discriminate; auto.

Lemma space_not_email_char c : isspace c = true -> email_char c = false.
Proof. all_chars c. Qed.

Lemma lang_email_chars w : lang EMAIL_RE w -> forallb email_char w = true.
Proof.
  intros H. apply (lang_classes _ _ H). intros a Ha c Hc.
  unfold email_char, email_class in *. simpl in Ha.
  destruct Ha as [<-|[<-|[<-|[<-|[<-|[]]]]]]; cbn [class_of] in Hc.
  - unfold email_class in Hc. now rewrite Hc.
  - rewrite Ascii.eqb_sym in Hc. rewrite Hc. now rewrite orb_true_r.
  - unfold email_class in Hc. now rewrite Hc.
  - rewrite Ascii.eqb_sym in Hc. rewrite Hc. now rewrite !orb_true_r.
  - now rewrite Hc.
Qed.

Lemma lang_email_at w : lang EMAIL_RE w -> In "@"%char w.
Proof.
  intros H. inversion H as [| |p re c u w1 Hc Hu H1]; subst.
  inversion H1 as [|p re d w2 Hd H2|]; subst.
  apply Ascii.eqb_eq in Hd. subst d.
  right. apply in_or_app. right. now left.
Qed.

Lemma lang_email_nonempty w : lang EMAIL_RE w -> w <> [].
Proof. intros H E. subst. apply lang_email_at in H. contradiction. Qed.

Lemma email_prefix_cut w : forall a r c x,
  forallb email_char w = true -> email_char c = false ->
  w ++ r = a ++ c :: x -> exists a', a = w ++ a'.
Proof.
  induction w as [|d w IH]; simpl; intros a r c x Hw Hc E.
  - now exists a.
  - apply andb_true_iff in Hw as [Hd Hw].
    destruct a as [|e a]; simpl in E; inversion E; subst.
    + congruence.
    + destruct (IH _ _ _ _ Hw Hc H1) as [a' ->]. now exists a'.
Qed.

Definition redact (s : str) : str := sub EMAIL_RE redaction_marker s.

Lemma EMAIL_RE_atoms : EMAIL_RE <> [].
Proof. discriminate. Qed.

Lemma WHITESPACE_RE_atoms : WHITESPACE_RE <> [].
Proof. discriminate. Qed.

(** A run of e-mail characters at the head of the redacted text was at
    the head of the text. *)
Lemma redact_prefix w : forall t r,
  forallb email_char w = true -> redact t = w ++ r ->
  exists r', t = w ++ r'.
Proof.
  induction w as [|c w IH]; simpl; intros t r Hw E.
  - now exists t.
  - apply andb_true_iff in Hw as [Hc Hw].
    destruct t as [|d t]; [discriminate|].
    unfold redact in E. rewrite sub_cons in E by apply EMAIL_RE_atoms.
    destruct (match_here EMAIL_RE (d :: t)) as [rest|].
    + simpl in E. inversion E; subst c. discriminate.
    + inversion E; subst d. destruct (IH t r Hw H1) as [r' ->]. now exists r'.
Qed.

Lemma marker_split pre l :
  redaction_marker = pre ++ l -> l <> [] ->
  exists a, l = a ++ ["]"%char] /\ ~ In "@"%char a.
Proof.
  intros E Hl. destruct (exists_last Hl) as (a & x & ->).
  exists a. rewrite app_assoc in E.
  change redaction_marker with (txt "[e-mail removido" ++ ["]"%char]) in E.
  apply app_inj_tail in E as [E <-]. split; [reflexivity|].
  intros Hin. assert (Hin' : In "@"%char (txt "[e-mail removido")).
  { rewrite E. apply in_or_app. now right. }
  simpl in Hin'. repeat (destruct Hin' as [Hin'|Hin']; [discriminate|]).
  exact Hin'.
Qed.

Lemma redact_clean_upto n : forall s, length s <= n -> ~ found EMAIL_RE (redact s).
Proof.
  induction n as [|n IH]; intros s Hlen (pre & w & suf & E & Hw).
  - destruct s; [|simpl in Hlen; lia].
    simpl in E. symmetry in E. apply app_eq_nil in E as [_ E].
    apply app_eq_nil in E as [E _]. now apply lang_email_nonempty in Hw.
  - destruct s as [|c s].
    { simpl in E. symmetry in E. apply app_eq_nil in E as [_ E].
      apply app_eq_nil in E as [E _]. now apply lang_email_nonempty in Hw. }
    simpl in Hlen. unfold redact in E.
    rewrite sub_cons in E by apply EMAIL_RE_atoms.
    destruct (match_here EMAIL_RE (c :: s)) as [rest|] eqn:Hm.
    + apply match_here_shorter in Hm. simpl in Hm.
      assert (Hrest : length rest <= n) by lia.
      apply app_eq_app in E as [l [[E1 E2]|[E1 E2]]].
      * destruct l as [|x l].
        { simpl in E2. apply (IH rest Hrest). exists [], w, suf. auto. }
        destruct (marker_split pre (x :: l) E1) as (a & Ea & Hat);
          [discriminate|].
        rewrite Ea, <- app_assoc in E2. simpl in E2.
        destruct (email_prefix_cut w a suf "]"%char (sub EMAIL_RE redaction_marker rest))
          as [a' ->]; auto using lang_email_chars.
        apply Hat. apply in_or_app. left. now apply lang_email_at.
      * apply (IH rest Hrest). exists l, w, suf. auto.
    + destruct pre as [|d pre]; simpl in E.
      * destruct w as [|d w]; [now apply lang_email_nonempty in Hw|].
        simpl in E. inversion E; subst d.
        pose proof (lang_email_chars _ Hw) as Hch. simpl in Hch.
        apply andb_true_iff in Hch as [_ Hch].
        destruct (redact_prefix w s suf Hch H1) as [r' ->].
        destruct (match_here_complete _ _ Hw r') as [r'' Hr''].
        simpl in Hr''. simpl in Hm. congruence.
      * inversion E; subst d.
        apply (IH s); [lia|]. exists pre, w, suf. auto.
Qed.

(** After the substitution no e-mail is left. *)
Lemma redact_clean s : ~ found EMAIL_RE (redact s).
Proof. now apply (redact_clean_upto (length s)). Qed.

(** ** Whitespace *)

Definition squeeze (s : str) : str := sub WHITESPACE_RE (txt " ") s.

Lemma greedy_space s : greedy isspace (fun t => Some t) s = Some (lstrip s).
Proof.
  induction s as [|c s IH]; simpl; [reflexivity|].
  destruct (isspace c); [now rewrite IH | reflexivity].
Qed.

Lemma squeeze_cons c s :
  squeeze (c :: s) =
  if isspace c then " "%char :: squeeze (lstrip s) else c :: squeeze s.
Proof.
  unfold squeeze. rewrite sub_cons by apply WHITESPACE_RE_atoms.
  simpl. destruct (isspace c); [now rewrite greedy_space | reflexivity].
Qed.

Lemma lstrip_suffix s : exists a, s = a ++ lstrip s /\ forallb isspace a = true.
Proof.
  induction s as [|c s (a & E & Ha)]; simpl.
  - now exists [].
  - destruct (isspace c) eqn:Hc.
    + exists (c :: a). simpl. rewrite Hc, Ha. split; [now f_equal | reflexivity].
    + now exists [].
Qed.

Lemma lstrip_length s : length (lstrip s) <= length s.
Proof.
  destruct (lstrip_suffix s) as (a & E & _).
  rewrite E at 2. rewrite length_app. lia.
Qed.

Definition head_space (s : str) : bool :=
  match s with c :: _ => isspace c | [] => false end.

Lemma lstrip_head s : head_space (lstrip s) = false.
Proof.
  induction s as [|c s IH]; simpl; [reflexivity|].
  destruct (isspace c) eqn:Hc; [exact IH | simpl; exact Hc].
Qed.

Lemma lstrip_id s : head_space s = false -> lstrip s = s.
Proof. destruct s as [|c s]; simpl; [reflexivity | now intros ->]. Qed.

Lemma rstrip_prefix s : exists b, s = rstrip s ++ b /\ forallb isspace b = true.
Proof.
  unfold rstrip. destruct (lstrip_suffix (rev s)) as (a & E & Ha).
  exists (rev a). split.
  - rewrite <- rev_app_distr, <- E. now rewrite rev_involutive.
  - rewrite forallb_forall in *. intros x Hx. apply Ha. now apply in_rev.
Qed.

(** The stripped text sits inside the text. *)
Lemma strip_inside s : exists a b, s = a ++ strip s ++ b.
Proof.
  unfold strip. destruct (lstrip_suffix s) as (a & E & _).
  destruct (rstrip_prefix (lstrip s)) as (b & E' & _).
  exists a, b. now rewrite <- E', <- E.
Qed.

Lemma rstrip_idem s : rstrip (rstrip s) = rstrip s.
Proof.
  unfold rstrip. rewrite rev_involutive. f_equal.
  apply lstrip_id, lstrip_head.
Qed.

Lemma head_space_prefix a b : head_space (a ++ b) = false -> head_space a = false.
Proof. destruct a; simpl; auto. Qed.

Lemma strip_head s : head_space (strip s) = false.
Proof.
  unfold strip. destruct (rstrip_prefix (lstrip s)) as (b & E & _).
  apply head_space_prefix with b. rewrite <- E. apply lstrip_head.
Qed.

Lemma strip_idem s : strip (strip s) = strip s.
Proof.
  unfold strip at 1. rewrite (lstrip_id _ (strip_head s)).
  unfold strip. apply rstrip_idem.
Qed.

(** Every whitespace character is one space, and no two are adjacent. *)
Fixpoint collapsed (s : str) : bool :=
  match s with
  | [] => true
  | c :: s' =>
      (if isspace c then Ascii.eqb c " " && negb (head_space s') else true)
      && collapsed s'
  end.

Lemma squeeze_head_space s : head_space s = false -> head_space (squeeze s) = false.
Proof.
  destruct s as [|c s]; simpl; [reflexivity|]. intros Hc.
  rewrite squeeze_cons, Hc. simpl. exact Hc.
Qed.

Lemma squeeze_collapsed_upto n : forall s, length s <= n -> collapsed (squeeze s) = true.
Proof.
  induction n as [|n IH]; intros s Hlen.
  - destruct s; [reflexivity | simpl in Hlen; lia].
  - destruct s as [|c s]; [reflexivity|]. simpl in Hlen.
    rewrite squeeze_cons. destruct (isspace c) eqn:Hc; simpl.
    + rewrite (squeeze_head_space _ (lstrip_head s)). simpl.
      apply IH. pose proof (lstrip_length s). lia.
    + rewrite Hc. simpl. apply IH. lia.
Qed.

Lemma squeeze_collapsed s : collapsed (squeeze s) = true.
Proof. now apply (squeeze_collapsed_upto (length s)). Qed.

Lemma squeeze_id s : collapsed s = true -> squeeze s = s.
Proof.
  induction s as [|c s IH]; simpl; intros H; [reflexivity|].
  rewrite squeeze_cons. apply andb_true_iff in H as [H1 H2].
  destruct (isspace c).
  - apply andb_true_iff in H1 as [E H1]. apply Ascii.eqb_eq in E. subst c.
    apply negb_true_iff in H1. rewrite (lstrip_id _ H1). now rewrite IH.
  - now rewrite IH.
Qed.

Lemma collapsed_app_r a b : collapsed (a ++ b) = true -> collapsed b = true.
Proof.
  induction a as [|c a IH]; simpl; auto.
  intros H. apply andb_true_iff in H as [_ H]. auto.
Qed.

Lemma collapsed_app_l a b : collapsed (a ++ b) = true -> collapsed a = true.
Proof.
  induction a as [|c a IH]; simpl; auto.
  intros H. apply andb_true_iff in H as [H1 H2]. rewrite (IH H2), andb_true_r.
  destruct (isspace c); [|reflexivity].
  apply andb_true_iff in H1 as [-> H1]. simpl.
  apply negb_true_iff in H1. apply negb_true_iff.
  now apply head_space_prefix with b.
Qed.

Lemma strip_collapsed s : collapsed s = true -> collapsed (strip s) = true.
Proof.
  intros H. destruct (strip_inside s) as (a & b & E). rewrite E in H.
  apply collapsed_app_r in H. now apply collapsed_app_l in H.
Qed.

(** A run without whitespace at the head of the squeezed text was at the
    head of the text. *)
Lemma squeeze_prefix w : forall t r,
  forallb (fun c => negb (isspace c)) w = true -> squeeze t = w ++ r ->
  exists r', t = w ++ r'.
Proof.
  induction w as [|c w IH]; simpl; intros t r Hw E.
  - now exists t.
  - apply andb_true_iff in Hw as [Hc Hw]. apply negb_true_iff in Hc.
    destruct t as [|d t]; [discriminate|].
    rewrite squeeze_cons in E. destruct (isspace d) eqn:Hd.
    + inversion E; subst c. discriminate.
    + inversion E; subst d. destruct (IH t r Hw H1) as [r' ->]. now exists r'.
Qed.

Lemma squeeze_inside_upto n : forall t pre w suf,
  length t <= n -> w <> [] ->
  forallb (fun c => negb (isspace c)) w = true ->
  squeeze t = pre ++ w ++ suf ->
  exists pre' suf', t = pre' ++ w ++ suf'.
Proof.
  induction n as [|n IH]; intros t pre w suf Hlen Hne Hw E.
  - destruct t; [|simpl in Hlen; lia].
    simpl in E. symmetry in E. apply app_eq_nil in E as [_ E].
    apply app_eq_nil in E as [E _]. contradiction.
  - destruct t as [|d t].
    { simpl in E. symmetry in E. apply app_eq_nil in E as [_ E].
      apply app_eq_nil in E as [E _]. contradiction. }
    simpl in Hlen. rewrite squeeze_cons in E.
    destruct w as [|c w]; [contradiction|].
    pose proof Hw as Hw'. simpl in Hw'.
    apply andb_true_iff in Hw' as [Hc Hw']. apply negb_true_iff in Hc.
    destruct (isspace d) eqn:Hd.
    + destruct pre as [|e pre]; simpl in E; inversion E; subst.
      * discriminate.
      * destruct (IH (lstrip t) pre (c :: w) suf) as (p & s & Ep); auto.
        { pose proof (lstrip_length t). lia. }
        destruct (lstrip_suffix t) as (a & Ea & _).
        exists (d :: a ++ p), s. simpl. f_equal.
        rewrite Ea at 1. rewrite Ep. now rewrite <- app_assoc.
    + destruct pre as [|e pre]; simpl in E; inversion E; subst.
      * destruct (squeeze_prefix w t suf Hw' H1) as [r' ->].
        now exists [], r'.
      * destruct (IH t pre (c :: w) suf) as (p & s & Ep); auto; [lia|].
        match goal with |- exists _ _, ?x :: _ = _ => exists (x :: p), s end.
        simpl. now f_equal.
Qed.

Lemma no_space_in_email w :
  lang EMAIL_RE w -> forallb (fun c => negb (isspace c)) w = true.
Proof.
  intros H. apply lang_email_chars in H. rewrite forallb_forall in *.
  intros c Hc. specialize (H c Hc). apply negb_true_iff.
  destruct (isspace c) eqn:Hs; [|reflexivity].
  apply space_not_email_char in Hs. congruence.
Qed.

Lemma found_squeeze t : found EMAIL_RE (squeeze t) -> found EMAIL_RE t.
Proof.
  intros (pre & w & suf & E & Hw).
  destruct (squeeze_inside_upto (length t) t pre w suf) as (p & s & Ep); auto.
  - now apply lang_email_nonempty.
  - now apply no_space_in_email.
  - now exists p, w, s.
Qed.

Lemma found_strip re t : found re (strip t) -> found re t.
Proof.
  intros H. destruct (strip_inside t) as (a & b & E). rewrite E.
  now apply found_app_l, found_app_r.
Qed.

(** ** The marker stays where an e-mail was *)

Lemma lstrip_app a c b :
  isspace c = false -> lstrip (a ++ c :: b) = lstrip a ++ c :: b.
Proof.
  intros Hc. induction a as [|d a IH]; simpl.
  - now rewrite Hc.
  - destruct (isspace d); [exact IH | reflexivity].
Qed.

Lemma rstrip_app a c b :
  isspace c = false -> rstrip (a ++ c :: b) = a ++ c :: rstrip b.
Proof.
  intros Hc. unfold rstrip. rewrite rev_app_distr. simpl.
  rewrite <- app_assoc. simpl. rewrite (lstrip_app _ _ _ Hc).
  rewrite rev_app_distr. simpl. rewrite rev_involutive.
  now rewrite <- app_assoc.
Qed.

Lemma squeeze_app_upto n : forall a c b,
  length a <= n -> isspace c = false ->
  squeeze (a ++ c :: b) = squeeze a ++ squeeze (c :: b).
Proof.
  induction n as [|n IH]; intros a c b Hlen Hc.
  - destruct a; [reflexivity | simpl in Hlen; lia].
  - destruct a as [|d a]; [reflexivity|]. simpl in Hlen.
    cbn [app]. rewrite !(squeeze_cons d). destruct (isspace d).
    + rewrite (lstrip_app _ _ _ Hc). cbn [app]. f_equal.
      apply IH; [|exact Hc]. pose proof (lstrip_length a). lia.
    + cbn [app]. f_equal. apply IH; [lia | exact Hc].
Qed.

Lemma squeeze_app a c b :
  isspace c = false -> squeeze (a ++ c :: b) = squeeze a ++ squeeze (c :: b).
Proof. now apply (squeeze_app_upto (length a)). Qed.

Ltac squeeze_step :=
  rewrite squeeze_cons;
  match goal with
  | |- context [isspace ?c] =>
      let v := eval vm_compute in (isspace c) in
      change (isspace c) with v; cbv iota
  end.

Lemma squeeze_marker b :
  squeeze (redaction_marker ++ b) = redaction_marker ++ squeeze b.
Proof.
  unfold redaction_marker, txt. cbn [list_ascii_of_string app].
  do 7 squeeze_step. squeeze_step.
  change (lstrip ("r"%char :: ?x)) with ("r"%char :: x).
  do 9 squeeze_step. reflexivity.
Qed.

Lemma redact_found s :
  found EMAIL_RE s -> exists p q, redact s = p ++ redaction_marker ++ q.
Proof.
  induction s as [|c s IH]; intros (pre & w & suf & E & Hw).
  - symmetry in E. apply app_eq_nil in E as [_ E].
    apply app_eq_nil in E as [E _]. now apply lang_email_nonempty in Hw.
  - unfold redact. rewrite sub_cons by apply EMAIL_RE_atoms.
    destruct (match_here EMAIL_RE (c :: s)) as [rest|] eqn:Hm.
    + now exists [], (sub EMAIL_RE redaction_marker rest).
    + destruct pre as [|d pre]; simpl in E.
      * destruct (match_here_complete _ _ Hw suf) as [r Hr].
        rewrite <- E in Hr. congruence.
      * inversion E; subst. destruct IH as (p & q & Epq).
        { now exists pre, w, suf. }
        exists (d :: p), q. unfold redact in Epq. rewrite Epq. reflexivity.
Qed.

Lemma clean_text_marker s :
  found EMAIL_RE s ->
  exists p q, clean_text (Some s) = p ++ redaction_marker ++ q.
Proof.
  intros H. destruct (redact_found s H) as (p & q & E).
  change (clean_text (Some s)) with (strip (squeeze (redact s))).
  rewrite E.
  change redaction_marker with ("["%char :: txt "e-mail removido]") at 1.
  cbn [app]. rewrite squeeze_app by reflexivity.
  change ("["%char :: txt "e-mail removido]" ++ q) with (redaction_marker ++ q).
  rewrite squeeze_marker. unfold strip.
  change redaction_marker with ("["%char :: txt "e-mail removido]") at 1.
  cbn [app]. rewrite lstrip_app by reflexivity.
  change ("["%char :: txt "e-mail removido]" ++ squeeze q)
    with (txt "[e-mail removido" ++ "]"%char :: squeeze q).
  rewrite app_assoc, rstrip_app by reflexivity.
  exists (lstrip (squeeze p)), (rstrip (squeeze q)).
  rewrite <- app_assoc. reflexivity.
Qed.

Lemma clean_text_Some s : clean_text (Some s) = strip (squeeze (redact s)).
Proof. reflexivity. Qed.

Lemma clean_text_no_email s : ~ found EMAIL_RE (clean_text s).
Proof.
  destruct s as [s|].
  - rewrite clean_text_Some. intros H.
    apply found_strip, found_squeeze in H. now apply redact_clean in H.
  - simpl. intros (pre & w & suf & E & Hw).
    symmetry in E. apply app_eq_nil in E as [_ E].
    apply app_eq_nil in E as [E _]. now apply lang_email_nonempty in Hw.
Qed.

Lemma clean_text_collapsed s : collapsed (clean_text s) = true.
Proof.
  destruct s as [s|]; [|reflexivity].
  rewrite clean_text_Some. apply strip_collapsed, squeeze_collapsed.
Qed.

Lemma clean_text_fixed s : clean_text (Some (clean_text s)) = clean_text s.
Proof.
  rewrite clean_text_Some. unfold redact.
  rewrite (sub_id _ _ _ EMAIL_RE_atoms (clean_text_no_email s)).
  rewrite (squeeze_id _ (clean_text_collapsed s)).
  destruct s as [s|]; [|reflexivity].
  rewrite clean_text_Some. apply strip_idem.
Qed.

End CleanFacts.

(* ===================================================================== *)
(** * Facts on sorting and on first-seen order *)
(* ===================================================================== *)

Module OrderFacts.

(** [x] stands before [y] in [l]. *)
Definition before {A} (l : list A) (x y : A) : Prop :=
  exists l1 l2 l3, l = l1 ++ x :: l2 ++ y :: l3.

Lemma before_cons {A} (l : list A) z x y :
  before (z :: l) x y <-> (z = x /\ In y l) \/ before l x y.
Proof.
  split.
  - intros (l1 & l2 & l3 & E). destruct l1 as [|a l1]; simpl in E; inversion E; subst.
    + left. split; [reflexivity|]. apply in_or_app. right. now left.
    + right. now exists l1, l2, l3.
  - intros [[-> Hin]|(l1 & l2 & l3 & ->)].
    + apply in_split in Hin as (l2 & l3 & ->). now exists [], l2, l3.
    + now exists (z :: l1), l2, l3.
Qed.

Lemma before_nil {A} (x y : A) : ~ before [] x y.
Proof. intros (l1 & l2 & l3 & E). destruct l1; discriminate. Qed.

Lemma before_filter {A} (P : A -> bool) l x y :
  P x = true -> P y = true -> (before (filter P l) x y <-> before l x y).
Proof.
  intros Hx Hy. induction l as [|z l IH]; simpl.
  - reflexivity.
  - destruct (P z) eqn:Hz.
    + rewrite !before_cons, IH, filter_In. intuition.
    + rewrite before_cons, IH. split; [tauto|].
      intros [[-> _]|H]; [congruence | exact H].
Qed.

Lemma before_map {A B} (f : A -> B) l x y :
  (forall a b, f a = f b -> a = b) ->
  (before (map f l) (f x) (f y) <-> before l x y).
Proof.
  intros Hinj. induction l as [|z l IH]; simpl.
  - split; intros H; now apply before_nil in H.
  - rewrite !before_cons, IH. split.
    + intros [[E Hin]|H]; [left | now right].
      split; [now apply Hinj|].
      apply in_map_iff in Hin as (a & Ea & Ha). apply Hinj in Ea. now subst.
    + intros [[-> Hin]|H]; [left | now right].
      split; [reflexivity | now apply in_map].
Qed.

(** ** The stable descending sort *)
Section Sort.
Context {A : Type} (above : A -> A -> bool).
Hypothesis above_asym : forall a b, above a b = true -> above b a = false.
Hypothesis above_negtrans :
  forall a b c, above b a = false -> above c b = false -> above c a = false.

(** No later row has a greater key. *)
Definition descending (a b : A) : Prop := above b a = false.

(** [b] has the key of [a]. *)
Definition tied (a b : A) : bool := negb (above a b) && negb (above b a).

Lemma insert_perm x l : Permutation (insert above x l) (x :: l).
Proof.
  induction l as [|y l IH]; simpl; [reflexivity|].
  destruct (above y x); [|reflexivity].
  rewrite IH. apply perm_swap.
Qed.

Lemma sort_desc_perm l : Permutation (sort_desc above l) l.
Proof.
  induction l as [|x l IH]; simpl; [reflexivity|].
  rewrite insert_perm. now constructor.
Qed.

Lemma insert_sorted x l :
  StronglySorted descending l -> StronglySorted descending (insert above x l).
Proof.
  induction 1 as [|y l Hs IH Hy]; simpl.
  - repeat constructor.
  - destruct (above y x) eqn:Hyx.
    + constructor; [exact IH|].
      rewrite Forall_forall in *. intros z Hz.
      apply (Permutation_in _ (insert_perm x l)) in Hz.
      destruct Hz as [<-|Hz]; [now apply above_asym | now apply Hy].
    + constructor; [now constructor|].
      constructor; [exact Hyx|].
      rewrite Forall_forall in *. intros z Hz.
      apply above_negtrans with y; [exact Hyx | now apply Hy].
Qed.

Lemma sort_desc_sorted l : StronglySorted descending (sort_desc above l).
Proof.
  induction l as [|x l IH]; simpl; [constructor | now apply insert_sorted].
Qed.

Lemma insert_tied a x l :
  filter (tied a) (insert above x l) = filter (tied a) (x :: l).
Proof.
  induction l as [|y l IH]; [reflexivity|].
  cbn [insert]. destruct (above y x) eqn:Hyx; [|reflexivity].
  cbn [filter] in *. rewrite IH.
  destruct (tied a x) eqn:Hax; [|reflexivity].
  assert (Hay : tied a y = false).
  { unfold tied in *. apply andb_true_iff in Hax as [H1 H2].
    apply negb_true_iff in H1, H2.
    destruct (above a y) eqn:E1; [reflexivity|].
    destruct (above y a) eqn:E2; [now rewrite andb_false_r|].
    rewrite (above_negtrans x a y H1 E2) in Hyx. discriminate. }
  now rewrite Hay.
Qed.

(** The sort is stable: the rows tied with [a] keep their order. *)
Lemma sort_desc_stable a l :
  filter (tied a) (sort_desc above l) = filter (tied a) l.
Proof.
  induction l as [|x l IH]; [reflexivity|].
  cbn [sort_desc fold_right]. fold (sort_desc above l).
  rewrite insert_tied. cbn [filter]. now rewrite IH.
Qed.

End Sort.

(** ** First-seen order *)
Section Unique.
Context {A : Type} (eqb : A -> A -> bool).
Hypothesis eqb_refl : forall a, eqb a a = true.
Hypothesis eqb_sym : forall a b, eqb a b = eqb b a.
Hypothesis eqb_trans :
  forall a b c, eqb a b = true -> eqb b c = true -> eqb a c = true.

Definition fresh (seen : list A) (x : A) : bool := negb (existsb (eqb x) seen).

Lemma fresh_cons x seen y : fresh (x :: seen) y = fresh [x] y && fresh seen y.
Proof. unfold fresh. simpl. rewrite orb_false_r. apply negb_orb. Qed.

Lemma filter_fresh_cons x seen l :
  filter (fresh (x :: seen)) l = filter (fresh seen) (filter (fresh [x]) l).
Proof.
  induction l as [|y l IH]; [reflexivity|].
  cbn [filter]. rewrite fresh_cons.
  destruct (fresh [x] y); cbn [andb filter]; [|exact IH].
  destruct (fresh seen y); now rewrite IH.
Qed.

Lemma filter_fresh_seen x seen l :
  existsb (eqb x) seen = true ->
  filter (fresh seen) (filter (fresh [x]) l) = filter (fresh seen) l.
Proof.
  intros Hx. rewrite <- filter_fresh_cons. apply filter_ext. intros y.
  rewrite fresh_cons. destruct (fresh seen y) eqn:Hy; [|apply andb_false_r].
  rewrite andb_true_r. unfold fresh in *. simpl. rewrite orb_false_r.
  apply negb_true_iff in Hy. apply negb_true_iff.
  destruct (eqb y x) eqn:E; [|reflexivity].
  apply existsb_exists in Hx as (z & Hz & Hxz).
  assert (existsb (eqb y) seen = true); [|congruence].
  apply existsb_exists. exists z. split; [exact Hz|].
  now apply eqb_trans with x.
Qed.

Lemma unique_from_filter xs : forall seen,
  unique_from eqb seen xs = filter (fresh seen) (unique eqb xs).
Proof.
  unfold unique.
  induction xs as [|x xs IH]; intros seen; [reflexivity|].
  cbn [unique_from existsb filter]. rewrite (IH [x]).
  unfold fresh at 1. destruct (existsb (eqb x) seen) eqn:Hx; cbn [negb].
  - rewrite IH. symmetry. now apply filter_fresh_seen.
  - f_equal. rewrite IH. apply filter_fresh_cons.
Qed.

(** The head comes first, then the other values in their own order. *)
Lemma unique_cons x xs :
  unique eqb (x :: xs) = x :: filter (fun y => negb (eqb y x)) (unique eqb xs).
Proof.
  unfold unique at 1. cbn [unique_from existsb]. f_equal.
  rewrite unique_from_filter. apply filter_ext. intros y.
  unfold fresh. simpl. now rewrite orb_false_r.
Qed.

Lemma unique_incl xs y : In y (unique eqb xs) -> In y xs.
Proof.
  revert y. induction xs as [|x xs IH]; intros y; [auto|].
  rewrite unique_cons. intros [<-|H]; [now left|].
  apply filter_In in H as [H _]. right. now apply IH.
Qed.

Lemma unique_covers xs y :
  In y xs -> exists z, In z (unique eqb xs) /\ eqb y z = true.
Proof.
  induction xs as [|x xs IH]; [intros []|].
  rewrite unique_cons. intros [<-|H].
  - exists x. split; [now left | apply eqb_refl].
  - destruct (IH H) as (z & Hz & Hyz).
    destruct (eqb z x) eqn:Hzx.
    + exists x. split; [now left | now apply eqb_trans with z].
    + exists z. split; [|exact Hyz]. right. apply filter_In.
      split; [exact Hz | now rewrite Hzx].
Qed.

Lemma unique_apart xs :
  ForallOrdPairs (fun a b => eqb a b = false) (unique eqb xs).
Proof.
  induction xs as [|x xs IH]; [constructor|].
  rewrite unique_cons. constructor.
  - apply Forall_forall. intros y Hy. apply filter_In in Hy as [_ Hy].
    apply negb_true_iff in Hy. now rewrite eqb_sym.
  - induction IH as [|a l Ha _ IHl]; [constructor|].
    cbn [filter]. destruct (negb (eqb a x)); [|exact IHl].
    constructor; [|exact IHl].
    rewrite Forall_forall in *. intros y Hy.
    apply filter_In in Hy as [Hy _]. now apply Ha.
Qed.

End Unique.

End OrderFacts.
Import OrderFacts.

(* ===================================================================== *)
(** * The text cleaner *)
(* ===================================================================== *)

(** An e-mail shape, as the pattern reads: a local part and a domain of
    word characters, dots and hyphens around an at sign, then a dot and a
    suffix of word characters. *)
Definition email_shaped (w : str) : Prop :=
  exists l d t,
    w = l ++ "@"%char :: d ++ "."%char :: t
    /\ l <> [] /\ d <> [] /\ t <> []
    /\ forallb email_class l = true
    /\ forallb email_class d = true
    /\ forallb isword t = true.

Lemma email_shaped_lang w : email_shaped w <-> lang EMAIL_RE w.
Proof.
  split.
  - intros (l & d & t & -> & Hl & Hd & Ht & Fl & Fd & Ft).
    destruct l as [|a l]; [contradiction|].
    destruct d as [|b d]; [contradiction|].
    destruct t as [|c t]; [contradiction|].
    simpl in Fl, Fd, Ft.
    apply andb_true_iff in Fl as [Fa Fl].
    apply andb_true_iff in Fd as [Fb Fd].
    apply andb_true_iff in Ft as [Fc Ft].
    change ((a :: l) ++ "@"%char :: (b :: d) ++ "."%char :: c :: t)
      with (a :: l ++ "@"%char :: b :: d ++ "."%char :: c :: t).
    apply lang_many; auto. apply lang_one; [reflexivity|].
    apply lang_many; auto. apply lang_one; [reflexivity|].
    rewrite <- (app_nil_r t). apply lang_many; auto. constructor.
  - intros H.
    inversion H as [| |p1 r1 a l w1 Fa Fl H1]; subst.
    inversion H1 as [|p2 r2 x w2 Fx H2|]; subst.
    inversion H2 as [| |p3 r3 b d w3 Fb Fd H3]; subst.
    inversion H3 as [|p4 r4 y w4 Fy H4|]; subst.
    inversion H4 as [| |p5 r5 c t w5 Fc Ft H5]; subst.
    inversion H5; subst.
    apply Ascii.eqb_eq in Fx, Fy. subst x y.
    exists (a :: l), (b :: d), (c :: t). rewrite app_nil_r. simpl.
    rewrite Fa, Fb, Fc, Fl, Fd, Ft.
    repeat split; try discriminate; reflexivity.
Qed.

Lemma strip_tail s : CleanFacts.head_space (rev (strip s)) = false.
Proof.
  unfold strip, rstrip. rewrite rev_involutive. apply CleanFacts.lstrip_head.
Qed.

Lemma collapsed_space pre c suf :
  CleanFacts.collapsed (pre ++ c :: suf) = true -> isspace c = true ->
  c = " "%char /\ CleanFacts.head_space suf = false
  /\ forall p x, pre = p ++ [x] -> isspace x = false.
Proof.
  intros H Hc. pose proof (CleanFacts.collapsed_app_r _ _ H) as H1.
  simpl in H1. rewrite Hc in H1.
  apply andb_true_iff in H1 as [H1 _]. apply andb_true_iff in H1 as [E Hs].
  apply Ascii.eqb_eq in E. apply negb_true_iff in Hs.
  repeat split; auto. intros p x ->.
  rewrite <- app_assoc in H. apply CleanFacts.collapsed_app_r in H.
  simpl in H. rewrite Hc in H. destruct (isspace x); [|reflexivity].
  simpl in H. rewrite andb_false_r in H. discriminate.
Qed.

(** C6.  [clean_text] gives the empty text for a missing or empty input;
    it is the trimmed, whitespace-collapsed redaction of its input, where
    the redaction replaces the e-mail found at the head of the text by the
    marker and otherwise moves on by one character.  A text that holds an
    e-mail is cleaned to a text that holds the marker, and a text that
    holds none is only collapsed and trimmed.  No substring of the cleaned
    text has the shape of an e-mail; every whitespace character of the
    cleaned text is one space between two characters that are not
    whitespace; and the sentence of the specification is cleaned as it
    says. *)
Theorem C6_clean_text_redacts :
  clean_text None = []
  /\ clean_text (Some []) = []
  /\ (forall s,
        clean_text (Some s)
        = strip (sub WHITESPACE_RE (txt " ") (sub EMAIL_RE redaction_marker s)))
  /\ (forall s w rest,
        email_shaped w -> s = w ++ rest ->
        exists w' rest',
          s = w' ++ rest' /\ email_shaped w'
          /\ sub EMAIL_RE redaction_marker s
             = redaction_marker ++ sub EMAIL_RE redaction_marker rest')
  /\ (forall c s,
        (forall w rest, c :: s = w ++ rest -> ~ email_shaped w) ->
        sub EMAIL_RE redaction_marker (c :: s)
        = c :: sub EMAIL_RE redaction_marker s)
  /\ (forall s pre w suf,
        s = pre ++ w ++ suf -> email_shaped w ->
        exists p q, clean_text (Some s) = p ++ redaction_marker ++ q)
  /\ (forall s,
        (forall pre w suf, s = pre ++ w ++ suf -> ~ email_shaped w) ->
        clean_text (Some s) = strip (sub WHITESPACE_RE (txt " ") s))
  /\ (forall s pre w suf, clean_text s = pre ++ w ++ suf -> ~ email_shaped w)
  /\ (forall s pre c suf,
        clean_text s = pre ++ c :: suf -> isspace c = true ->
        c = " "%char
        /\ (exists p x, pre = p ++ [x] /\ isspace x = false)
        /\ (exists y q, suf = y :: q /\ isspace y = false))
  /\ clean_text (Some (txt "contact me at a.b-c@d.com today"))
     = txt "contact me at [e-mail removido] today".
Proof.
  split; [reflexivity|]. split; [reflexivity|]. split; [reflexivity|].
  split; [|split; [|split; [|split; [|split; [|split]]]]].
  - intros s w rest Hw ->. apply email_shaped_lang in Hw.
    destruct (match_here_complete _ _ Hw rest) as [r Hr].
    destruct (match_here_sound _ _ _ Hr) as (w' & E & Hw').
    exists w', r. split; [exact E|]. split; [now apply email_shaped_lang|].
    destruct w as [|c w]; [now apply CleanFacts.lang_email_nonempty in Hw|].
    simpl in *. rewrite sub_cons by apply CleanFacts.EMAIL_RE_atoms.
    simpl. simpl in Hr. now rewrite Hr.
  - intros c s Hno. rewrite sub_cons by apply CleanFacts.EMAIL_RE_atoms.
    destruct (match_here EMAIL_RE (c :: s)) as [r|] eqn:Hr; [|reflexivity].
    destruct (match_here_sound _ _ _ Hr) as (w & E & Hw).
    exfalso. apply (Hno w r E). now apply email_shaped_lang.
  - intros s pre w suf E Hw. apply CleanFacts.clean_text_marker.
    exists pre, w, suf. split; [exact E | now apply email_shaped_lang].
  - intros s Hno. rewrite CleanFacts.clean_text_Some. unfold CleanFacts.redact.
    rewrite sub_id; [reflexivity | apply CleanFacts.EMAIL_RE_atoms |].
    intros (pre & w & suf & E & Hw). apply (Hno pre w suf E).
    now apply email_shaped_lang.
  - intros s pre w suf E Hw. apply (CleanFacts.clean_text_no_email s).
    exists pre, w, suf. split; [exact E | now apply email_shaped_lang].
  - intros s pre c suf E Hc.
    pose proof (CleanFacts.clean_text_collapsed s) as Hcol. rewrite E in Hcol.
    destruct (collapsed_space _ _ _ Hcol Hc) as (-> & Hsuf & Hpre).
    assert (Hhead : CleanFacts.head_space (clean_text s) = false).
    { destruct s as [s|]; [apply CleanFacts.strip_head | reflexivity]. }
    assert (Htail : CleanFacts.head_space (rev (clean_text s)) = false).
    { destruct s as [s|]; [apply strip_tail | reflexivity]. }
    rewrite E in Hhead, Htail. split; [reflexivity|]. split.
    + destruct pre as [|a pre]; [simpl in Hhead; congruence|].
      destruct (@exists_last _ (a :: pre)) as (p & x & Ep); [discriminate|].
      exists p, x. split; [exact Ep | now apply (Hpre p x)].
    + destruct suf as [|y q].
      * rewrite rev_app_distr in Htail. simpl in Htail. congruence.
      * exists y, q. split; [reflexivity | exact Hsuf].
  - vm_compute. reflexivity.
Qed.

(** C6 at the sentence of the specification: the marker that stands in
    the cleaned sentence is not itself an e-mail. *)
Lemma C6_witness : ~ email_shaped redaction_marker.
Proof.
  apply (proj1 (proj2 (proj2 (proj2 (proj2 (proj2 (proj2 (proj2
           C6_clean_text_redacts))))))))
    with (s := Some (txt "contact me at a.b-c@d.com today"))
         (pre := txt "contact me at ") (suf := txt " today").
  vm_compute. reflexivity.
Defined.

(** C7.  [clean_text] is idempotent: cleaning a cleaned text gives it
    back. *)
Theorem C7_clean_text_idempotent :
  forall s : option str, clean_text (Some (clean_text s)) = clean_text s.
Proof. exact CleanFacts.clean_text_fixed. Qed.

(* ===================================================================== *)
(** * Numeric coercion and means *)
(* ===================================================================== *)

Lemma str_eqb_eq a : forall b, str_eqb a b = true <-> a = b.
Proof.
  induction a as [|x a IH]; intros [|y b]; simpl; split; intros H;
    try discriminate; try reflexivity.
  - apply andb_true_iff in H as [E H]. apply Ascii.eqb_eq in E.
    apply IH in H. now subst.
  - inversion H; subst. rewrite Ascii.eqb_refl. now apply IH.
Qed.

Lemma str_eqb_refl a : str_eqb a a = true.
Proof. now apply str_eqb_eq. Qed.

Lemma mem_In c l : mem c l = true <-> In c l.
Proof.
  unfold mem. rewrite existsb_exists. split.
  - intros (x & Hx & E). apply str_eqb_eq in E. now subst.
  - intros H. exists c. split; [exact H | apply str_eqb_refl].
Qed.

Lemma getcol_In df c s : getcol df c = Some s -> In c (columns df).
Proof.
  induction df as [|[name t] df IH]; simpl; [discriminate|].
  destruct (str_eqb name c) eqn:E.
  - apply str_eqb_eq in E. now left.
  - intros H. right. now apply IH.
Qed.

Lemma In_getcol df c : In c (columns df) -> exists s, getcol df c = Some s.
Proof.
  induction df as [|[name t] df IH]; simpl; [intros []|].
  destruct (str_eqb name c) eqn:E; [eauto|].
  intros [H|H]; [|now apply IH].
  subst. rewrite str_eqb_refl in E. discriminate.
Qed.

Lemma dropna_Some {A} (l : list A) : dropna (map Some l) = l.
Proof. induction l as [|x l IH]; simpl; [reflexivity | now rewrite IH]. Qed.

Lemma dropna_app {A} (a b : series A) : dropna (a ++ b) = dropna a ++ dropna b.
Proof. unfold dropna. apply flat_map_app. Qed.

Lemma replace_no_old old new s : old <> new -> ~ In old (replace old new s).
Proof.
  intros Hne Hin. unfold replace in Hin.
  apply in_map_iff in Hin as (c & E & _).
  destruct (Ascii.eqb c old) eqn:Hc.
  - now subst.
  - subst. rewrite Ascii.eqb_refl in Hc. discriminate.
Qed.

(* ===================================================================== *)
(** * Facts on doubles *)
(* ===================================================================== *)

Module F64Facts.

(** The place of a number among the doubles: the infinities at the ends,
    the zeros in the middle, and a finite number by its sign, its exponent
    and its mantissa. *)
Definition rank (x : float64) : Z * Z * Z :=
  match x with
  | S754_infinity true => (-2, 0, 0)%Z
  | S754_finite true m e => (-1, - e, - Z.pos m)%Z
  | S754_zero _ => (0, 0, 0)%Z
  | S754_nan => (0, 0, 0)%Z
  | S754_finite false m e => (1, e, Z.pos m)%Z
  | S754_infinity false => (2, 0, 0)%Z
  end.

Definition lex_lt (a b : Z * Z * Z) : Prop :=
  let '(a1, a2, a3) := a in
  let '(b1, b2, b3) := b in
  (a1 < b1 \/ (a1 = b1 /\ (a2 < b2 \/ (a2 = b2 /\ a3 < b3))))%Z.

Lemma ltb_rank x y :
  is_nan x = false -> is_nan y = false ->
  (ltb x y = true <-> lex_lt (rank x) (rank y)).
Proof.
  unfold ltb, SFltb.
  destruct x as [sx|sx| |sx mx ex], y as [sy|sy| |sy my ey];
    try discriminate; intros _ _;
    try destruct sx; try destruct sy; cbn [SFcompare rank lex_lt];
    try (split; [discriminate | lia]); try (split; [lia | reflexivity]).
  all: rewrite Pos.compare_cont_spec; cbn [Pos.switch_Eq].
  all: fold (Pos.compare mx my);
    destruct (Z.compare_spec ex ey); destruct (Pos.compare_spec mx my);
    cbn [CompOpp]; split; try discriminate; try reflexivity; try lia.
Qed.

Lemma eqb_rank x y :
  is_nan x = false -> is_nan y = false ->
  (eqb x y = true <-> rank x = rank y).
Proof.
  unfold eqb, SFeqb.
  destruct x as [sx|sx| |sx mx ex], y as [sy|sy| |sy my ey];
    try discriminate; intros _ _;
    try destruct sx; try destruct sy; cbn [SFcompare rank];
    try (split; [discriminate | intros H; inversion H]);
    try (split; reflexivity).
  all: rewrite Pos.compare_cont_spec; cbn [Pos.switch_Eq].
  all: fold (Pos.compare mx my);
    destruct (Z.compare_spec ex ey); destruct (Pos.compare_spec mx my);
    cbn [CompOpp]; split; try discriminate; try reflexivity;
    try (intros; subst; reflexivity);
    try (let Hr := fresh "Hr" in intros Hr; exfalso; inversion Hr; lia).
Qed.

Lemma ltb_asym x y :
  is_nan x = false -> is_nan y = false -> ltb x y = true -> ltb y x = false.
Proof.
  intros Hx Hy H. apply (ltb_rank x y Hx Hy) in H.
  destruct (ltb y x) eqn:E; [|reflexivity].
  apply (ltb_rank y x Hy Hx) in E.
  destruct (rank x) as [[a1 a2] a3], (rank y) as [[b1 b2] b3].
  cbn [lex_lt] in *. lia.
Qed.

Lemma ltb_negtrans x y z :
  is_nan x = false -> is_nan y = false -> is_nan z = false ->
  ltb x y = false -> ltb y z = false -> ltb x z = false.
Proof.
  intros Hx Hy Hz H1 H2.
  destruct (ltb x z) eqn:E; [|reflexivity].
  apply (ltb_rank x z Hx Hz) in E.
  assert (N1 : ~ lex_lt (rank x) (rank y))
    by (intros H; apply (ltb_rank x y Hx Hy) in H; congruence).
  assert (N2 : ~ lex_lt (rank y) (rank z))
    by (intros H; apply (ltb_rank y z Hy Hz) in H; congruence).
  destruct (rank x) as [[a1 a2] a3], (rank y) as [[b1 b2] b3],
    (rank z) as [[c1 c2] c3].
  cbn [lex_lt] in *. lia.
Qed.

Lemma same_refl x : same x x = true.
Proof.
  unfold same. destruct (is_nan x) eqn:E.
  - now rewrite orb_true_r.
  - rewrite (proj2 (eqb_rank x x E E) eq_refl). reflexivity.
Qed.

Lemma same_iff x y :
  same x y = true
  <-> (is_nan x = true /\ is_nan y = true)
      \/ (is_nan x = false /\ is_nan y = false /\ rank x = rank y).
Proof.
  unfold same. destruct (is_nan x) eqn:Ex, (is_nan y) eqn:Ey.
  - rewrite orb_true_r. tauto.
  - destruct x; try discriminate. cbn. split; [discriminate|].
    intros [[_ H]|[H _]]; discriminate.
  - destruct y; try discriminate.
    assert (E : eqb x S754_nan = false) by (destruct x; reflexivity).
    rewrite E. cbn. split; [discriminate|].
    intros [[H _]|[_ [H _]]]; discriminate.
  - rewrite andb_false_r, orb_false_r, (eqb_rank x y Ex Ey).
    split; [intros H; right; auto|].
    intros [[H _]|[_ [_ H]]]; [discriminate | exact H].
Qed.

Lemma same_sym x y : same x y = same y x.
Proof.
  destruct (same x y) eqn:E.
  - symmetry. apply same_iff. apply same_iff in E.
    destruct E as [[H1 H2]|(H1 & H2 & H3)]; [left | right]; auto.
  - destruct (same y x) eqn:E'; [|reflexivity].
    apply same_iff in E'.
    assert (same x y = true); [|congruence].
    apply same_iff. destruct E' as [[H1 H2]|(H1 & H2 & H3)]; [left | right]; auto.
Qed.

Lemma same_trans x y z :
  same x y = true -> same y z = true -> same x z = true.
Proof.
  rewrite !same_iff.
  intros [[H1 H2]|(H1 & H2 & H3)] [[H4 H5]|(H4 & H5 & H6)];
    try congruence; [left | right]; auto.
  repeat split; auto. congruence.
Qed.

Lemma add_neg_zero_l x : add neg_zero x = x.
Proof. destruct x as [[]|[]| |[] m e]; reflexivity. Qed.

Lemma add_neg_zero_r x : add x neg_zero = x.
Proof. destruct x as [[]|[]| |[] m e]; reflexivity. Qed.

End F64Facts.
Import F64Facts.

(** ** Integers that are doubles *)

Module F64Exact.
Local Open Scope Z_scope.

Lemma iter_pos_iter {A} (f : A -> A) p : forall x, iter_pos f p x = Pos.iter f x p.
Proof.
  induction p as [p IH|p IH|]; intros x; cbn [iter_pos Pos.iter].
  - rewrite !IH, !Pos.iter_swap. reflexivity.
  - rewrite !IH. reflexivity.
  - reflexivity.
Qed.

Lemma iter_xO_pow m p : Z.pos (Pos.iter xO m p) = Z.pos m * 2 ^ Z.pos p.
Proof.
  induction p as [|p IH] using Pos.peano_ind.
  - cbn [Pos.iter]. rewrite Pos2Z.inj_xO. change (2 ^ 1) with 2. lia.
  - rewrite Pos.iter_succ, Pos2Z.inj_xO, IH, Pos2Z.inj_succ, Z.pow_succ_r by lia. lia.
Qed.

Lemma digits_log2 m : Z.pos (digits2_pos m) = Z.log2 (Z.pos m) + 1.
Proof.
  induction m as [m IH|m IH|]; cbn [digits2_pos].
  - rewrite Pos2Z.inj_succ, IH.
    rewrite Pos2Z.inj_xI, Z.log2_succ_double by lia. lia.
  - rewrite Pos2Z.inj_succ, IH.
    rewrite Pos2Z.inj_xO, Z.log2_double by lia. lia.
  - reflexivity.
Qed.

Definition exact_record (m : Z) : shr_record :=
  {| shr_m := m; shr_r := false; shr_s := false |}.

Lemma shr_exact m p :
  iter_pos shr_1 p (exact_record (Z.pos (Pos.iter xO m p))) = exact_record (Z.pos m).
Proof.
  rewrite iter_pos_iter. revert m.
  induction p as [|p IH] using Pos.peano_ind; intros m.
  - reflexivity.
  - rewrite Pos.iter_succ, <- Pos.iter_swap.
    rewrite Pos.iter_succ. cbn [shr_1 exact_record orb]. apply IH.
Qed.

(** A mantissa of 53 bits with an exponent in range is returned as it
    is. *)
Lemma round_canonical s m e :
  Z.log2 (Z.pos m) = 52 -> -1074 <= e <= 971 ->
  binary_round_aux prec emax s (Z.pos m) e loc_Exact = S754_finite s m e.
Proof.
  intros Hm He. unfold binary_round_aux, shr_fexp.
  cbn [Zdigits2 shr_record_of_loc]. rewrite digits_log2, Hm.
  assert (E : fexp prec emax (52 + 1 + e) - e = 0).
  { unfold fexp, emin, prec, emax. lia. }
  rewrite E. cbn [shr shr_m loc_of_shr_record round_nearest_even Zdigits2].
  rewrite digits_log2, Hm, E. cbn [shr shr_m].
  unfold emax, prec. destruct (e <=? 1024 - 53) eqn:L; [reflexivity|].
  apply Z.leb_gt in L. lia.
Qed.

(** The same mantissa followed by [p] more bits that are 0. *)
Lemma round_shifted s m e p :
  Z.log2 (Z.pos m) = 52 -> -1074 <= e <= 971 ->
  binary_round_aux prec emax s (Z.pos (Pos.iter xO m p)) (e - Z.pos p) loc_Exact
  = S754_finite s m e.
Proof.
  intros Hm He. unfold binary_round_aux, shr_fexp.
  assert (HL : Z.log2 (Z.pos (Pos.iter xO m p)) = Z.pos p + 52).
  { rewrite iter_xO_pow, Z.log2_mul_pow2, Hm by lia. reflexivity. }
  cbn [Zdigits2 shr_record_of_loc]. rewrite digits_log2, HL.
  assert (E : fexp prec emax (Z.pos p + 52 + 1 + (e - Z.pos p)) - (e - Z.pos p) = Z.pos p).
  { unfold fexp, emin, prec, emax. lia. }
  rewrite E. cbn [shr]. fold (exact_record (Z.pos (Pos.iter xO m p))).
  rewrite shr_exact.
  cbn [exact_record shr_m loc_of_shr_record round_nearest_even Zdigits2].
  rewrite digits_log2, Hm.
  replace (e - Z.pos p + Z.pos p) with e by lia.
  assert (E' : fexp prec emax (52 + 1 + e) - e = 0).
  { unfold fexp, emin, prec, emax. lia. }
  rewrite E'. cbn [shr shr_m].
  unfold emax, prec. destruct (e <=? 1024 - 53) eqn:L; [reflexivity|].
  apply Z.leb_gt in L. lia.
Qed.


(** The mantissa and the exponent of the double that is the integer [c],
    for 0 < c < 2^53. *)
Definition mant (c : Z) : positive := Z.to_pos (c * 2 ^ (52 - Z.log2 c)).
Definition expo (c : Z) : Z := Z.log2 c - 52.

Lemma log2_small c : 0 < c < 2 ^ 53 -> 0 <= Z.log2 c <= 52.
Proof.
  intros [H0 H1]. split; [apply Z.log2_nonneg|].
  apply (Z.log2_lt_pow2 c 53 H0) in H1. lia.
Qed.

Lemma mant_pos c : 0 < c < 2 ^ 53 -> Z.pos (mant c) = c * 2 ^ (52 - Z.log2 c).
Proof.
  intros H. pose proof (log2_small c H) as Hl. unfold mant.
  rewrite Z2Pos.id; [reflexivity|].
  apply Z.mul_pos_pos; [lia|]. apply Z.pow_pos_nonneg; lia.
Qed.

Lemma mant_log2 c : 0 < c < 2 ^ 53 -> Z.log2 (Z.pos (mant c)) = 52.
Proof.
  intros H. pose proof (log2_small c H) as Hl.
  rewrite (mant_pos c H), Z.log2_mul_pow2 by lia. lia.
Qed.

Lemma expo_range c : 0 < c < 2 ^ 53 -> -1074 <= expo c <= 971.
Proof. intros H. pose proof (log2_small c H). unfold expo. lia. Qed.

(** Rounding the integer [c], given with [k] more bits that are 0. *)
Lemma binary_round_int s M k c :
  0 < c < 2 ^ 53 -> 0 <= k -> Z.pos M = c * 2 ^ k ->
  binary_round prec emax s M (- k) = S754_finite s (mant c) (expo c).
Proof.
  intros Hc Hk HM. pose proof (log2_small c Hc) as Hl.
  pose proof (mant_pos c Hc) as Hmp.
  unfold binary_round. rewrite digits_log2, HM, Z.log2_mul_pow2 by lia.
  assert (E : fexp prec emax (k + Z.log2 c + 1 + - k) = expo c).
  { unfold fexp, emin, prec, emax, expo. lia. }
  rewrite E. unfold shl_align.
  destruct (expo c - - k) as [|q|q] eqn:D.
  - assert (M = mant c).
    { apply Pos2Z.inj. rewrite HM, Hmp. f_equal. f_equal. unfold expo in D. lia. }
    subst M. replace (- k) with (expo c) by lia.
    apply round_canonical; [now apply mant_log2 | now apply expo_range].
  - assert (M = Pos.iter xO (mant c) q).
    { apply Pos2Z.inj. rewrite iter_xO_pow, HM, Hmp, <- Z.mul_assoc.
      rewrite <- Z.pow_add_r by lia. f_equal. f_equal. unfold expo in D. lia. }
    subst M. replace (- k) with (expo c - Z.pos q) by lia.
    apply round_shifted; [now apply mant_log2 | now apply expo_range].
  - assert (Pos.iter xO M q = mant c).
    { apply Pos2Z.inj. rewrite iter_xO_pow, HM, Hmp, <- Z.mul_assoc.
      rewrite <- Z.pow_add_r by lia. f_equal. f_equal. unfold expo in D. lia. }
    rewrite H. apply round_canonical; [now apply mant_log2 | now apply expo_range].
Qed.

Lemma of_Z_pos c :
  0 < c < 2 ^ 53 -> of_Z c = S754_finite false (mant c) (expo c).
Proof.
  intros Hc. unfold of_Z, binary_normalize.
  destruct c as [|p|p]; try lia.
  apply (binary_round_int false p 0 (Z.pos p) Hc); lia.
Qed.

Lemma of_Z_neg c :
  0 < c < 2 ^ 53 -> of_Z (- c) = S754_finite true (mant c) (expo c).
Proof.
  intros Hc. unfold of_Z, binary_normalize.
  destruct c as [|p|p]; try lia. cbn [Z.opp].
  apply (binary_round_int true p 0 (Z.pos p) Hc); lia.
Qed.

(** The double of a small integer, by its sign. *)
Lemma of_Z_small a :
  - 2 ^ 53 < a < 2 ^ 53 -> a <> 0 ->
  of_Z a = S754_finite (a <? 0) (mant (Z.abs a)) (expo (Z.abs a)).
Proof.
  intros Ha Hn. destruct (a <? 0) eqn:E.
  - apply Z.ltb_lt in E. replace a with (- Z.abs a) at 1 by lia.
    apply of_Z_neg. lia.
  - apply Z.ltb_ge in E. replace a with (Z.abs a) at 1 by lia.
    apply of_Z_pos. lia.
Qed.

Lemma normalize_int z k :
  - 2 ^ 53 < z < 2 ^ 53 -> 0 <= k ->
  binary_normalize prec emax (z * 2 ^ k) (- k) false = of_Z z.
Proof.
  intros Hz Hk.
  assert (Hp : 0 < 2 ^ k) by (apply Z.pow_pos_nonneg; lia).
  unfold binary_normalize.
  destruct (z * 2 ^ k) as [|M|M] eqn:E.
  - assert (z = 0) by nia. subst z. reflexivity.
  - assert (0 < z) by nia.
    rewrite (binary_round_int false M k z); [|lia|lia|lia].
    symmetry. apply of_Z_pos. lia.
  - assert (z < 0) by nia.
    rewrite (binary_round_int true M k (- z)); [|lia|lia|lia].
    rewrite <- (of_Z_neg (- z)) by lia. f_equal. lia.
Qed.

Lemma shl_align_fst m e e' :
  e' <= e -> Z.pos (fst (shl_align m e e')) = Z.pos m * 2 ^ (e - e').
Proof.
  intros H. unfold shl_align. destruct (e' - e) as [|q|q] eqn:D; cbn [fst].
  - replace (e - e') with 0 by lia. lia.
  - lia.
  - rewrite iter_xO_pow. f_equal. f_equal. lia.
Qed.

Lemma cond_Zopp_abs a : cond_Zopp (a <? 0) (Z.abs a) = a.
Proof. unfold cond_Zopp. destruct (a <? 0) eqn:E; lia. Qed.

(** The sum of two small integers whose sum is small is exact. *)
Lemma add_exact a b :
  - 2 ^ 53 < a < 2 ^ 53 -> - 2 ^ 53 < b < 2 ^ 53 ->
  - 2 ^ 53 < a + b < 2 ^ 53 ->
  add (of_Z a) (of_Z b) = of_Z (a + b).
Proof.
  intros Ha Hb Hab.
  destruct (Z.eq_dec a 0) as [->|Na].
  { cbn [Z.add]. destruct (Z.eq_dec b 0) as [->|Nb]; [reflexivity|].
    rewrite (of_Z_small b Hb Nb). reflexivity. }
  destruct (Z.eq_dec b 0) as [->|Nb].
  { rewrite Z.add_0_r, (of_Z_small a Ha Na). reflexivity. }
  rewrite (of_Z_small a Ha Na), (of_Z_small b Hb Nb).
  unfold add, SFadd.
  set (ea := expo (Z.abs a)). set (eb := expo (Z.abs b)).
  set (ez := Z.min ea eb).
  assert (Ra : 0 < Z.abs a < 2 ^ 53) by lia.
  assert (Rb : 0 < Z.abs b < 2 ^ 53) by lia.
  pose proof (log2_small _ Ra) as La. pose proof (log2_small _ Rb) as Lb.
  assert (Hez : ez <= 0) by (unfold ez, ea, eb, expo; lia).
  assert (Ea : Z.pos (fst (shl_align (mant (Z.abs a)) ea ez)) = Z.abs a * 2 ^ (- ez)).
  { rewrite shl_align_fst by (unfold ez; lia).
    rewrite (mant_pos _ Ra), <- Z.mul_assoc, <- Z.pow_add_r
      by (unfold ez, ea, eb, expo; lia).
    f_equal. f_equal. unfold ea, expo. lia. }
  assert (Eb : Z.pos (fst (shl_align (mant (Z.abs b)) eb ez)) = Z.abs b * 2 ^ (- ez)).
  { rewrite shl_align_fst by (unfold ez; lia).
    rewrite (mant_pos _ Rb), <- Z.mul_assoc, <- Z.pow_add_r
      by (unfold ez, ea, eb, expo; lia).
    f_equal. f_equal. unfold eb, expo. lia. }
  rewrite Ea, Eb.
  assert (S : cond_Zopp (a <? 0) (Z.abs a * 2 ^ (- ez))
              + cond_Zopp (b <? 0) (Z.abs b * 2 ^ (- ez))
              = (a + b) * 2 ^ (- ez)).
  { unfold cond_Zopp. destruct (a <? 0) eqn:A, (b <? 0) eqn:B; nia. }
  rewrite S. replace ez with (- - ez) at 2 by lia.
  apply normalize_int; lia.
Qed.

Definition nonneg (mrs : shr_record) : Prop := 0 <= shr_m mrs.

Lemma shr_1_nonneg mrs : nonneg mrs -> nonneg (shr_1 mrs).
Proof.
  unfold nonneg. destruct mrs as [m r s]. cbn [shr_m].
  destruct m as [|[p|p|]|p]; cbn [shr_1 shr_m]; lia.
Qed.

Lemma shr_fexp_nonneg m e l :
  0 <= m -> nonneg (fst (shr_fexp prec emax m e l)).
Proof.
  intros Hm. unfold shr_fexp, shr.
  assert (H0 : nonneg (shr_record_of_loc m l)).
  { unfold nonneg. destruct l as [|[]]; exact Hm. }
  destruct (fexp prec emax (Zdigits2 m + e) - e) as [|p|p]; cbn [fst]; auto.
  rewrite iter_pos_iter. apply Pos.iter_invariant; [|exact H0].
  intros mrs. apply shr_1_nonneg.
Qed.

Lemma round_aux_not_nan s m e l :
  0 <= m -> is_nan (binary_round_aux prec emax s m e l) = false.
Proof.
  intros Hm. unfold binary_round_aux.
  pose proof (shr_fexp_nonneg m e l Hm) as H1.
  destruct (shr_fexp prec emax m e l) as [mrs' e'] eqn:E1. cbn [fst] in H1.
  assert (H2 : 0 <= round_nearest_even (shr_m mrs') (loc_of_shr_record mrs')).
  { unfold nonneg in H1. unfold round_nearest_even.
    destruct (loc_of_shr_record mrs') as [|[]]; try lia.
    destruct (Z.even (shr_m mrs')); lia. }
  pose proof (shr_fexp_nonneg _ e' loc_Exact H2) as H3.
  destruct (shr_fexp prec emax _ e' loc_Exact) as [mrs'' e''] eqn:E2.
  cbn [fst] in H3. unfold nonneg in H3.
  destruct (shr_m mrs'') as [|p|p]; try reflexivity; [|lia].
  destruct (e'' <=? emax - prec); reflexivity.
Qed.

Lemma div_core_nonneg m1 e1 m2 e2 :
  0 <= fst (fst (SFdiv_core_binary prec emax (Z.pos m1) e1 (Z.pos m2) e2)).
Proof.
  unfold SFdiv_core_binary.
  set (s := e1 - e2 - _).
  set (m' := match s with Z.pos _ => Z.shiftl (Z.pos m1) s | 0 => Z.pos m1 | Z.neg _ => 0 end).
  assert (Hm' : 0 <= m').
  { unfold m'. destruct s; try lia. apply Z.shiftl_nonneg. lia. }
  pose proof (Z.div_eucl_eq m' (Z.pos m2) ltac:(lia)) as Hq.
  pose proof (Z.mod_pos_bound m' (Z.pos m2) ltac:(lia)) as Hr.
  unfold Z.modulo in Hr.
  destruct (Z.div_eucl m' (Z.pos m2)) as [q r]. cbn [fst]. nia.
Qed.

(** The quotient of two small integers, the second positive, is a
    number. *)
Lemma ratio_not_nan a n :
  - 2 ^ 53 < a < 2 ^ 53 -> 0 < n < 2 ^ 53 -> is_nan (div (of_Z a) (of_Z n)) = false.
Proof.
  intros Ha Hn. rewrite (of_Z_pos n Hn).
  destruct (Z.eq_dec a 0) as [->|Na]; [reflexivity|].
  rewrite (of_Z_small a Ha Na). unfold div, SFdiv.
  pose proof (div_core_nonneg (mant (Z.abs a)) (expo (Z.abs a)) (mant n) (expo n)) as H.
  destruct (SFdiv_core_binary _ _ _ _ _ _) as [[mz ez] lz]. cbn [fst] in H.
  now apply round_aux_not_nan.
Qed.

(** The product of two small integers that are not negative, when it is
    small. *)
Lemma mul_exact a b :
  0 <= a < 2 ^ 53 -> 0 <= b < 2 ^ 53 -> a * b < 2 ^ 53 ->
  mul (of_Z a) (of_Z b) = of_Z (a * b).
Proof.
  intros Ha Hb Hab.
  destruct (Z.eq_dec a 0) as [->|Na].
  { cbn [Z.mul]. destruct (Z.eq_dec b 0) as [->|Nb]; [reflexivity|].
    rewrite (of_Z_pos b) by lia. reflexivity. }
  destruct (Z.eq_dec b 0) as [->|Nb].
  { rewrite Z.mul_0_r, (of_Z_pos a) by lia. reflexivity. }
  assert (Ra : 0 < a < 2 ^ 53) by lia.
  assert (Rb : 0 < b < 2 ^ 53) by lia.
  assert (Rc : 0 < a * b < 2 ^ 53) by nia.
  rewrite (of_Z_pos a Ra), (of_Z_pos b Rb), (of_Z_pos _ Rc).
  unfold mul, SFmul. cbn [xorb].
  pose proof (log2_small _ Ra) as La. pose proof (log2_small _ Rb) as Lb.
  pose proof (log2_small _ Rc) as Lc.
  pose proof (Z.log2_mul_below a b ltac:(lia) ltac:(lia)) as Lm.
  destruct (expo (a * b) - (expo a + expo b)) as [|p|p] eqn:D;
    try (unfold expo in D; lia).
  assert (E : (mant a * mant b)%positive = Pos.iter xO (mant (a * b)) p).
  { apply Pos2Z.inj. rewrite iter_xO_pow, Pos2Z.inj_mul.
    rewrite (mant_pos a Ra), (mant_pos b Rb), (mant_pos _ Rc).
    replace (Z.pos p) with (52 + Z.log2 (a * b) - Z.log2 a - Z.log2 b)
      by (unfold expo in D; lia).
    replace (a * 2 ^ (52 - Z.log2 a) * (b * 2 ^ (52 - Z.log2 b)))
      with (a * b * (2 ^ (52 - Z.log2 a) * 2 ^ (52 - Z.log2 b))) by ring.
    rewrite <- (Z.mul_assoc (a * b) (2 ^ (52 - Z.log2 (a * b)))).
    rewrite <- !Z.pow_add_r by lia.
    f_equal. f_equal. lia. }
  rewrite E. replace (expo a + expo b) with (expo (a * b) - Z.pos p) by lia.
  apply round_shifted; [now apply mant_log2 | now apply expo_range].
Qed.

Lemma opp_exact a : a <> 0 -> opp (of_Z a) = of_Z (- a).
Proof.
  intros Na. unfold of_Z, binary_normalize.
  destruct a as [|p|p]; [contradiction|..]; cbn [Z.opp];
    unfold opp, SFopp, binary_round;
    destruct (shl_align _ _ _) as [mz ez]; unfold binary_round_aux;
    destruct (shr_fexp _ _ _ _ _) as [mrs' e'];
    destruct (shr_fexp _ _ _ _ _) as [mrs'' e''];
    destruct (shr_m mrs''); try reflexivity;
    destruct (e'' <=? emax - prec); reflexivity.
Qed.

(** A number divided by 1 is that number. *)
Lemma div_one s m e :
  Z.log2 (Z.pos m) = 52 -> -1073 <= e <= 971 ->
  div (S754_finite s m e) (of_Z 1) = S754_finite s m e.
Proof.
  intros Hm He.
  change (of_Z 1) with (S754_finite false 4503599627370496 (-52)).
  unfold div, SFdiv, SFdiv_core_binary. cbn [Zdigits2].
  rewrite digits_log2, Hm.
  change (Z.pos (digits2_pos 4503599627370496)) with 53.
  assert (E : Z.min (fexp prec emax (52 + 1 + e - (53 + -52))) (e - -52) = e - 1).
  { unfold fexp, emin, prec, emax. lia. }
  rewrite E. replace (e - -52 - (e - 1)) with 53 by lia.
  rewrite Z.shiftl_mul_pow2 by lia.
  assert (Q : Z.div_eucl (Z.pos m * 2 ^ 53) 4503599627370496 = (Z.pos m~0, 0)).
  { pose proof (Z.div_eucl_eq (Z.pos m * 2 ^ 53) 4503599627370496 ltac:(lia)) as H1.
    pose proof (Z.mod_pos_bound (Z.pos m * 2 ^ 53) 4503599627370496 ltac:(lia)) as H2.
    unfold Z.modulo in H2.
    destruct (Z.div_eucl (Z.pos m * 2 ^ 53) 4503599627370496) as [q r].
    change (2 ^ 53) with (2 * 4503599627370496) in H1.
    assert (q = 2 * Z.pos m) by nia. subst q.
    assert (r = 0) by lia. subst r. reflexivity. }
  rewrite Q. cbn [xorb]. rewrite xorb_false_r.
  change (new_location 4503599627370496 0) with loc_Exact.
  change (m~0)%positive with (Pos.iter xO m 1).
  replace (e - 1) with (e - Z.pos 1) by lia.
  apply round_shifted; [exact Hm | lia].
Qed.

Lemma div_one_int a :
  - 2 ^ 53 < a < 2 ^ 53 -> div (of_Z a) (of_Z 1) = of_Z a.
Proof.
  intros Ha. destruct (Z.eq_dec a 0) as [->|Na]; [reflexivity|].
  rewrite (of_Z_small a Ha Na).
  assert (R : 0 < Z.abs a < 2 ^ 53) by lia.
  pose proof (log2_small _ R). apply div_one; [now apply mant_log2|].
  unfold expo. lia.
Qed.

End F64Exact.
Import F64Exact.

(* ===================================================================== *)
(** * Facts on sums *)
(* ===================================================================== *)

Module SumFacts.

(** [x] is a sum of the numbers of [l], added in some order and in some
    grouping, from the identity -0.0 of numpy. *)
Inductive sum_of : list float64 -> float64 -> Prop :=
| sum_none : sum_of [] neg_zero
| sum_one x : sum_of [x] x
| sum_add l1 l2 x1 x2 :
    sum_of l1 x1 -> sum_of l2 x2 -> sum_of (l1 ++ l2) (add x1 x2)
| sum_perm l l' x : Permutation l l' -> sum_of l x -> sum_of l' x.

Lemma seq_sum_of a : forall l acc,
  sum_of l acc -> sum_of (l ++ a) (seq_sum acc a).
Proof.
  unfold seq_sum. induction a as [|x a IH]; intros l acc H; cbn [fold_left].
  - now rewrite app_nil_r.
  - replace (l ++ x :: a) with ((l ++ [x]) ++ a) by now rewrite <- app_assoc.
    apply IH. apply sum_add; [exact H | constructor].
Qed.

(** The eight partial sums, each with the numbers it has taken. *)
Definition lanes (ls : list (list float64)) (r : list float64) : Prop :=
  Forall2 sum_of ls r.

(** A partial sum takes one more number. *)
Definition take (p : list float64 * float64) : list float64 := fst p ++ [snd p].

Lemma add_row_lanes ls r : lanes ls r -> forall row,
  length row = length r ->
  lanes (map take (combine ls row)) (add_row r row).
Proof.
  induction 1 as [|l x ls r Hx _ IH]; intros row Hlen.
  - constructor.
  - destruct row as [|y row]; [discriminate|]. cbn [combine map add_row]. unfold take at 1. cbn [fst snd].
    constructor; [apply sum_add; [exact Hx | constructor]|].
    apply IH. simpl in Hlen. lia.
Qed.

Lemma concat_add_row ls row :
  length row = length ls ->
  Permutation (concat (map take (combine ls row)))
              (concat ls ++ row).
Proof.
  revert row. induction ls as [|l ls IH]; intros row Hlen.
  - destruct row; [reflexivity | discriminate].
  - destruct row as [|y row]; [discriminate|].
    cbn [combine map concat]. unfold take at 1. cbn [fst snd]. rewrite (IH row) by (simpl in Hlen; lia).
    rewrite <- !app_assoc. apply Permutation_app_head.
    cbn [app]. apply Permutation_middle.
Qed.

Lemma block_rows_lanes_upto n : forall a, length a <= n ->
  forall ls r r' rest,
  lanes ls r -> length r = 8 ->
  block_rows r a = (r', rest) ->
  exists ls', lanes ls' r' /\ length r' = 8
              /\ Permutation (concat ls' ++ rest) (concat ls ++ a).
Proof.
  induction n as [|n IH]; intros a Hn ls r r' rest Hl H8 E.
  - destruct a; [|simpl in Hn; lia]. inversion E; subst.
    exists ls. repeat split; auto.
  - destruct a as [|a0 [|a1 [|a2 [|a3 [|a4 [|a5 [|a6 [|a7 a']]]]]]]];
      try (inversion E; subst; exists ls; repeat split; auto; fail).
    cbn [block_rows] in E.
    set (row := [a0; a1; a2; a3; a4; a5; a6; a7]) in *.
    assert (Hls : length ls = 8) by (rewrite (Forall2_length Hl); exact H8).
    assert (Hrow : length row = length r) by (rewrite H8; reflexivity).
    pose proof (add_row_lanes ls r Hl row Hrow) as Hl'.
    assert (H8' : length (add_row r row) = 8).
    { rewrite <- (Forall2_length Hl'), length_map, length_combine, Hls.
      reflexivity. }
    destruct (IH a' ltac:(simpl in Hn; lia) _ _ _ _ Hl' H8' E)
      as (ls' & H1 & H2 & H3).
    exists ls'. split; [exact H1|]. split; [exact H2|].
    rewrite H3, concat_add_row by (rewrite Hls; reflexivity).
    rewrite <- app_assoc. reflexivity.
Qed.

Lemma block_rows_lanes a ls r r' rest :
  lanes ls r -> length r = 8 ->
  block_rows r a = (r', rest) ->
  exists ls', lanes ls' r' /\ length r' = 8
              /\ Permutation (concat ls' ++ rest) (concat ls ++ a).
Proof. apply (block_rows_lanes_upto (length a) a (Nat.le_refl _)). Qed.

Lemma add_pairs_lanes ls r :
  lanes ls r -> length r = 8 -> sum_of (concat ls) (add_pairs r).
Proof.
  intros Hl H8.
  destruct r as [|r0 [|r1 [|r2 [|r3 [|r4 [|r5 [|r6 [|r7 [|]]]]]]]]]; try discriminate.
  inversion Hl as [|l0 ? ls0 ? S0 Hl0]; subst.
  inversion Hl0 as [|l1 ? ls1 ? S1 Hl1]; subst.
  inversion Hl1 as [|l2 ? ls2 ? S2 Hl2]; subst.
  inversion Hl2 as [|l3 ? ls3 ? S3 Hl3]; subst.
  inversion Hl3 as [|l4 ? ls4 ? S4 Hl4]; subst.
  inversion Hl4 as [|l5 ? ls5 ? S5 Hl5]; subst.
  inversion Hl5 as [|l6 ? ls6 ? S6 Hl6]; subst.
  inversion Hl6 as [|l7 ? ls7 ? S7 Hl7]; subst.
  inversion Hl7; subst.
  cbn [add_pairs concat]. rewrite app_nil_r.
  replace (l0 ++ l1 ++ l2 ++ l3 ++ l4 ++ l5 ++ l6 ++ l7)
    with (((l0 ++ l1) ++ (l2 ++ l3)) ++ ((l4 ++ l5) ++ (l6 ++ l7)))
    by (rewrite <- !app_assoc; reflexivity).
  repeat apply sum_add; assumption.
Qed.

Lemma lanes_start (l : list float64) : lanes (map (fun x => [x]) l) l.
Proof. induction l; constructor; [constructor | assumption]. Qed.

Lemma concat_start (l : list float64) : concat (map (fun x => [x]) l) = l.
Proof. induction l; simpl; congruence. Qed.

Lemma block_sum_of a : 8 <= length a -> sum_of a (block_sum a).
Proof.
  intros Hlen. unfold block_sum.
  destruct (block_rows (firstn 8 a) (skipn 8 a)) as [r rest] eqn:E.
  assert (H8 : length (firstn 8 a) = 8) by (rewrite length_firstn; lia).
  destruct (block_rows_lanes _ _ _ _ _ (lanes_start _) H8 E)
    as (ls' & H1 & H2 & H3).
  apply sum_perm with (concat ls' ++ rest).
  - rewrite H3, concat_start, firstn_skipn. reflexivity.
  - apply seq_sum_of. now apply add_pairs_lanes.
Qed.

Lemma pairwise_of fuel : forall a, sum_of a (pairwise fuel a).
Proof.
  induction fuel as [|fuel IH]; intros a; cbn [pairwise].
  - destruct (length a <? 8) eqn:E8.
    + apply (seq_sum_of a [] neg_zero). constructor.
    + apply Nat.ltb_ge in E8.
      destruct (length a <=? 128); now apply block_sum_of.
  - destruct (length a <? 8) eqn:E8.
    + apply (seq_sum_of a [] neg_zero). constructor.
    + apply Nat.ltb_ge in E8.
      destruct (length a <=? 128); [now apply block_sum_of|].
      set (n2 := length a / 2 - (length a / 2) mod 8).
      rewrite <- (firstn_skipn n2 a) at 1.
      apply sum_add; apply IH.
Qed.

Lemma pairwise_sum_of a : sum_of a (pairwise_sum a).
Proof. apply pairwise_of. Qed.

Lemma buffers_concat fuel : forall a, concat (buffers fuel a) = a.
Proof.
  induction fuel as [|fuel IH]; intros a; cbn [buffers].
  - simpl. apply app_nil_r.
  - destruct (length a <=? bufsize).
    + simpl. apply app_nil_r.
    + cbn [concat]. rewrite IH. apply firstn_skipn.
Qed.

Lemma buffered_sum_of bufs : forall l acc,
  sum_of l acc ->
  sum_of (l ++ concat bufs)
         (fold_left (fun acc buf => add acc (pairwise_sum buf)) bufs acc).
Proof.
  induction bufs as [|b bufs IH]; intros l acc H; cbn [fold_left concat].
  - now rewrite app_nil_r.
  - rewrite app_assoc. apply IH. apply sum_add; [exact H | apply pairwise_sum_of].
Qed.

(** numpy's sum is a sum of the numbers of the array, missing values
    standing as 0. *)
Lemma np_sum_of s : sum_of (fill0 s) (np_sum s).
Proof.
  unfold np_sum. destruct (is_whole s).
  - rewrite <- (buffers_concat (length s) (fill0 s)) at 1.
    apply (buffered_sum_of _ [] neg_zero). constructor.
  - apply (sum_add [] (fill0 s)); [constructor | apply pairwise_sum_of].
Qed.

Local Open Scope Z_scope.

(** The sum of integers, and the sum of their absolute values. *)
Definition total (zs : list Z) : Z := fold_right Z.add 0 zs.
Definition weight (zs : list Z) : Z := fold_right (fun z w => Z.abs z + w) 0 zs.

Lemma total_app a b : total (a ++ b) = total a + total b.
Proof. induction a as [|z a IH]; simpl; lia. Qed.

Lemma weight_app a b : weight (a ++ b) = weight a + weight b.
Proof. induction a as [|z a IH]; simpl; lia. Qed.

Lemma total_weight zs : Z.abs (total zs) <= weight zs.
Proof. induction zs as [|z zs IH]; simpl; lia. Qed.

Lemma weight_nonneg zs : 0 <= weight zs.
Proof. pose proof (total_weight zs). lia. Qed.

Lemma total_perm a b : Permutation a b -> total a = total b.
Proof. induction 1; simpl; lia. Qed.

Lemma weight_perm a b : Permutation a b -> weight a = weight b.
Proof. induction 1; simpl; lia. Qed.

(** Whatever the order and the grouping, doubles that are integers are
    added without error as long as the absolute values add up to less
    than 2^53. *)
Lemma sum_of_exact l x :
  sum_of l x ->
  forall zs, l = map of_Z zs -> weight zs < 2 ^ 53 ->
  x = of_Z (total zs) \/ (x = neg_zero /\ zs = []).
Proof.
  induction 1 as [|x|l1 l2 x1 x2 _ IH1 _ IH2|l l' x Hp _ IH]; intros zs E W.
  - right. split; [reflexivity|]. destruct zs; [reflexivity | discriminate].
  - left. destruct zs as [|z [|? ?]]; try discriminate.
    inversion E. cbn [total fold_right]. now rewrite Z.add_0_r.
  - symmetry in E. apply map_eq_app in E as (zs1 & zs2 & -> & E1 & E2).
    rewrite weight_app in W. rewrite total_app.
    pose proof (weight_nonneg zs1). pose proof (weight_nonneg zs2).
    pose proof (total_weight zs1). pose proof (total_weight zs2).
    destruct (IH1 zs1 (eq_sym E1) ltac:(lia)) as [->|[-> ->]];
      destruct (IH2 zs2 (eq_sym E2) ltac:(lia)) as [->|[-> ->]].
    + left. apply add_exact; lia.
    + left. rewrite add_neg_zero_r. cbn [total fold_right]. now rewrite Z.add_0_r.
    + left. rewrite add_neg_zero_l. reflexivity.
    + right. split; reflexivity.
  - subst l'. apply Permutation_map_inv in Hp as (zs0 & -> & Hp).
    rewrite (total_perm _ _ Hp). rewrite (weight_perm _ _ Hp) in W.
    destruct (IH zs0 eq_refl W) as [->|[-> ->]]; [now left|].
    right. split; [reflexivity|]. symmetry in Hp. now apply Permutation_nil in Hp.
Qed.

End SumFacts.
Import SumFacts.

(* ===================================================================== *)
(** * The coercion *)
(* ===================================================================== *)

(** The text is read as a number. *)
Definition reads (t : str) : bool :=
  match convert t with
  | Unread => false
  | _ => true
  end.

Lemma integers_within_all lo hi rs :
  integers_within lo hi rs = true ->
  forall r, In r rs -> exists z f, r = Integer z f.
Proof.
  unfold integers_within. rewrite forallb_forall. intros H r Hr.
  specialize (H r Hr). destruct r as [|z f|f]; try discriminate.
  now exists z, f.
Qed.

(** Whatever kind of array comes out, each text is read on its own: it
    stands in the result for the integer or for the double read from it,
    and is missing exactly when it is no number. *)
Lemma to_numeric_cells texts :
  exists f,
    to_numeric texts = map f texts
    /\ (forall t, In t texts -> (f t = None <-> reads t = false))
    /\ (forall t, f t = as_whole (convert t) \/ f t = as_real (convert t)).
Proof.
  unfold to_numeric.
  destruct (integers_within int64_min int64_max (map convert texts)
            || integers_within 0 uint64_max (map convert texts)) eqn:E.
  - exists (fun t => as_whole (convert t)). split; [apply map_map|].
    split; [|now left]. intros t Ht.
    assert (H : exists z f, convert t = Integer z f).
    { apply orb_true_iff in E as [E|E];
        apply (integers_within_all _ _ _ E); now apply in_map. }
    destruct H as (z & f & H). unfold reads. rewrite H.
    split; discriminate.
  - exists (fun t => as_real (convert t)). split; [apply map_map|].
    split; [|now right]. intros t _. unfold reads.
    destruct (convert t); cbn [as_real]; split; intros H;
      try reflexivity; discriminate.
Qed.

Lemma to_numeric_length texts : length (to_numeric texts) = length texts.
Proof.
  destruct (to_numeric_cells texts) as (f & -> & _). apply length_map.
Qed.

Lemma to_numeric_nth texts i t :
  nth_error texts i = Some t ->
  exists v, nth_error (to_numeric texts) i = Some v
            /\ (v = None <-> reads t = false)
            /\ (v = as_whole (convert t) \/ v = as_real (convert t)).
Proof.
  intros H. destruct (to_numeric_cells texts) as (f & -> & Hf & Hk).
  exists (f t). split; [now apply map_nth_error|]. split; [|apply Hk].
  apply Hf. now apply nth_error_In in H.
Qed.

Lemma to_numeric_present texts :
  length (dropna (to_numeric texts)) = length (filter reads texts).
Proof.
  destruct (to_numeric_cells texts) as (f & -> & Hf & _).
  induction texts as [|t texts IH]; [reflexivity|].
  cbn [map filter]. 
  assert (IH' : length (dropna (map f texts)) = length (filter reads texts)).
  { apply IH. intros u Hu. apply Hf. now right. }
  specialize (Hf t (or_introl eq_refl)).
  unfold dropna in *. cbn [flat_map]. rewrite length_app, IH'.
  destruct (f t) as [x|], (reads t); simpl; try reflexivity.
  - destruct Hf as [_ Hf]. discriminate (Hf eq_refl).
  - destruct Hf as [Hf _]. discriminate (Hf eq_refl).
Qed.

Lemma to_numeric_series_length s : length (to_numeric_series s) = length s.
Proof. unfold to_numeric_series. now rewrite to_numeric_length, length_map. Qed.

(** ** The characters of a number *)

(** A digit, a blank, a sign, the point, or the letter of the exponent. *)
Definition numeric_char (c : ascii) : bool :=
  is_digit c || is_blank c || one_of [43; 45; 46; 69; 101]%N c.

Definition infinity_spelling (s : str) : bool :=
  existsb (fun p => str_eqb (lower s) (fst p)) infinities.

(** [s'] is what is left of [s] behind characters of a number. *)
Definition eats (s s' : str) : Prop :=
  exists b, s = b ++ s' /\ forallb numeric_char b = true.

Lemma eats_refl s : eats s s.
Proof. now exists []. Qed.

Lemma eats_trans s1 s2 s3 : eats s1 s2 -> eats s2 s3 -> eats s1 s3.
Proof.
  intros (a & -> & Ha) (b & -> & Hb). exists (a ++ b).
  split; [now rewrite app_assoc|]. rewrite forallb_app. now rewrite Ha, Hb.
Qed.

Lemma eats_cons c s s' : numeric_char c = true -> eats s s' -> eats (c :: s) s'.
Proof.
  intros Hc (b & -> & Hb). exists (c :: b). split; [reflexivity|].
  simpl. now rewrite Hc, Hb.
Qed.

Lemma eats_all s : eats s [] -> forallb numeric_char s = true.
Proof. intros (b & -> & Hb). now rewrite app_nil_r. Qed.

Lemma digit_numeric c : is_digit c = true -> numeric_char c = true.
Proof. unfold numeric_char. now intros ->. Qed.

Lemma blank_numeric c : is_blank c = true -> numeric_char c = true.
Proof. unfold numeric_char. intros ->. now rewrite orb_true_r. Qed.

Lemma eats_blanks s : eats s (skip_blanks s).
Proof.
  induction s as [|c s IH]; cbn [skip_blanks]; [apply eats_refl|].
  destruct (is_blank c) eqn:E; [|apply eats_refl].
  now apply eats_cons; [apply blank_numeric|].
Qed.

Lemma eats_skip_digits s : eats s (skip_digits s).
Proof.
  induction s as [|c s IH]; cbn [skip_digits]; [apply eats_refl|].
  destruct (is_digit c) eqn:E; [|apply eats_refl].
  now apply eats_cons; [apply digit_numeric|].
Qed.

Lemma eats_sign s : eats s (snd (sign s)).
Proof.
  destruct s as [|c s]; cbn [sign]; [apply eats_refl|].
  destruct (Ascii.eqb c "-") eqn:E1.
  { apply Ascii.eqb_eq in E1. subst. apply eats_cons; [reflexivity | apply eats_refl]. }
  destruct (Ascii.eqb c "+") eqn:E2; [|apply eats_refl].
  apply Ascii.eqb_eq in E2. subst. apply eats_cons; [reflexivity | apply eats_refl].
Qed.

Lemma eats_int_digits s : forall x k e, eats s (snd (int_digits x k e s)).
Proof.
  induction s as [|c s IH]; intros x k e; cbn [int_digits]; [apply eats_refl|].
  destruct (is_digit c) eqn:E; [|apply eats_refl].
  destruct (k <? max_digits); apply eats_cons;
    try (now apply digit_numeric); apply IH.
Qed.

Lemma eats_frac_digits s : forall x k d, eats s (snd (frac_digits x k d s)).
Proof.
  induction s as [|c s IH]; intros x k d; cbn [frac_digits]; [apply eats_refl|].
  destruct (is_digit c) eqn:E; [|apply eats_refl].
  destruct (k <? max_digits).
  - apply eats_cons; [now apply digit_numeric | apply IH].
  - cbn [snd]. apply (eats_skip_digits (c :: s)).
Qed.

Lemma eats_digits s : forall acc k, eats s (snd (digits acc k s)).
Proof.
  induction s as [|c s IH]; intros acc k; cbn [digits]; [apply eats_refl|].
  destruct (is_digit c) eqn:E; [|apply eats_refl].
  apply eats_cons; [now apply digit_numeric | apply IH].
Qed.

Lemma eats_exponent_part s r : exponent_part s = Some r -> eats s (snd r).
Proof.
  destruct s as [|c s]; cbn [exponent_part].
  { intros H. inversion H. apply eats_refl. }
  destruct (Ascii.eqb c "e" || Ascii.eqb c "E") eqn:E.
  2:{ intros H. inversion H. apply eats_refl. }
  pose proof (eats_sign s) as H1.
  destruct (sign s) as [negative s1]. cbn [snd] in H1.
  pose proof (eats_digits s1 0%Z 0) as H2.
  destruct (digits 0 0 s1) as [[n k] s2]. cbn [snd] in H2.
  destruct (k =? 0); [discriminate|]. intros H. inversion H. cbn [snd].
  apply eats_cons.
  - apply orb_true_iff in E as [E|E]; apply Ascii.eqb_eq in E; subst; reflexivity.
  - now apply eats_trans with s1.
Qed.

(** A text that the parser reads holds only characters of a number. *)
Lemma precise_xstrtod_chars s r :
  precise_xstrtod s = Some r -> forallb numeric_char s = true.
Proof.
  unfold precise_xstrtod. intros H. apply eats_all.
  apply eats_trans with (skip_blanks s); [apply eats_blanks|].
  pose proof (eats_sign (skip_blanks s)) as H1.
  destruct (sign (skip_blanks s)) as [negative s1]. cbn [snd] in H1.
  apply eats_trans with s1; [exact H1|].
  pose proof (eats_int_digits s1 zero 0 0%Z) as H2.
  destruct (int_digits zero 0 0 s1) as [[[x k] e] s2]. cbn [snd] in H2.
  apply eats_trans with s2; [exact H2|].
  assert (H3 : forall x' k' e' point s3,
             (if k' =? 0 then None
              else
                let number := if negative then opp x' else x' in
                match exponent_part s3 with
                | None => None
                | Some (marked, n, s4) =>
                    match scale number (e' + n) with
                    | None => None
                    | Some y =>
                        match skip_blanks s4 with
                        | [] => Some (y, negb point && negb marked)
                        | _ :: _ => None
                        end
                    end
                end) = Some r -> eats s3 []).
  { intros x' k' e' point s3 H'.
    destruct (k' =? 0); [discriminate|]. cbv zeta in H'.
    destruct (exponent_part s3) as [[[marked n] s4]|] eqn:Ee; [|discriminate].
    apply eats_exponent_part in Ee. cbn [snd] in Ee.
    apply eats_trans with s4; [exact Ee|].
    destruct (scale _ _); [|discriminate].
    pose proof (eats_blanks s4) as Hb.
    destruct (skip_blanks s4); [exact Hb | discriminate]. }
  destruct s2 as [|c s2].
  - now apply (H3 x k e false []).
  - destruct (Ascii.eqb c ".") eqn:Ec.
    + apply Ascii.eqb_eq in Ec. subst c.
      pose proof (eats_frac_digits s2 x k 0) as H4.
      destruct (frac_digits x k 0 s2) as [[[x' k'] d] s3]. cbn [snd] in H4.
      apply eats_cons; [reflexivity|].
      apply eats_trans with s3; [exact H4|].
      now apply (H3 x' k' (e - Z.of_nat d)%Z true s3).
    + now apply (H3 x k e false (c :: s2)).
Qed.

(** A text that holds a character that is none of a number, and that is
    no spelling of an infinity, is not read. *)
Lemma not_numeric t :
  (exists c, In c t /\ numeric_char c = false) ->
  infinity_spelling t = false ->
  reads t = false.
Proof.
  intros (c & Hc & Hn) Hi. unfold reads, convert, floatify.
  destruct (precise_xstrtod t) as [r|] eqn:E.
  - apply precise_xstrtod_chars in E. rewrite forallb_forall in E.
    rewrite (E c Hc) in Hn. discriminate.
  - unfold infinity_spelling in Hi.
    destruct (find _ infinities) as [[k x]|] eqn:F; [|reflexivity].
    apply find_some in F as [F1 F2]. cbn [fst] in F2.
    assert (existsb (fun p => str_eqb (lower t) (fst p)) infinities = true);
      [|congruence].
    apply existsb_exists. now exists (k, x).
Qed.

(** C10.  [to_numeric_series] hands to [pd.to_numeric] the text of each
    value in which every comma, wherever it stands, has become a dot: the
    normalised text has the length of the text, a dot at each place of a
    comma and the same character elsewhere, and no comma.  Each cell of the
    result is read from its own normalised text.  So [1,234] is read as
    1.234, the double nearest to it, not as 1234, and [1,234.5], which
    then has two dots, is missing. *)
Theorem C10_every_comma_becomes_a_dot :
  (forall v, normalise v = replace "," "." (astype_str v))
  /\ (forall s, to_numeric_series s
               = to_numeric (map (fun v => replace "," "." (astype_str v)) s))
  /\ (forall s i v,
        nth_error s i = Some v ->
        exists r,
          nth_error (to_numeric_series s) i = Some r
          /\ (r = as_whole (convert (replace "," "." (astype_str v)))
              \/ r = as_real (convert (replace "," "." (astype_str v)))))
  /\ (forall s, length (replace "," "." s) = length s)
  /\ (forall s i,
        nth i (replace "," "." s) " "%char
        = if Ascii.eqb (nth i s " "%char) "," then "."%char
          else nth i s " "%char)
  /\ (forall s, ~ In ","%char (replace "," "." s))
  /\ (exists x q,
        to_numeric_series [Some (Text (txt "1,234"))] = [Some (Real x)]
        /\ x = ratio 1234 1000
        /\ valueQ x = Some q
        /\ (Qabs (q - (1234 # 1000)) <= 1 # 9007199254740992)%Q
        /\ eqb x (of_Z 1234) = false)
  /\ replace "," "." (txt "1,234.5") = txt "1.234.5"
  /\ to_numeric_series [Some (Text (txt "1,234.5"))] = [None].
Proof.
  split; [reflexivity|]. split; [reflexivity|]. split.
  { intros s i v H. unfold to_numeric_series.
    destruct (to_numeric_nth (map normalise s) i (normalise v))
      as (r & Hr & _ & Hk); [now apply map_nth_error|].
    exists r. split; [exact Hr | exact Hk]. }
  split; [intros s; apply length_map|]. split.
  - intros s i. unfold replace.
    exact (map_nth (fun c => if Ascii.eqb c "," then "."%char else c) s " "%char i).
  - split; [intros s; now apply replace_no_old|]. split.
    + exists (ratio 1234 1000).
      eexists. split; [vm_compute; reflexivity|]. split; [reflexivity|].
      split; [vm_compute; reflexivity|].
      split; [vm_compute; discriminate | vm_compute; reflexivity].
    + split; vm_compute; reflexivity.
Qed.

(* ===================================================================== *)
(** * Means *)
(* ===================================================================== *)

Lemma mean_undefined (s : series number) : dropna s = [] -> mean s = None.
Proof. unfold mean. now intros ->. Qed.

(** The mean, when there is one: the sum of the array, divided by the
    number of present values. *)
Lemma mean_value (s : series number) m :
  mean s = Some m
  <-> dropna s <> [] /\ is_nan m = false
      /\ m = div (np_sum s) (of_Z (Z.of_nat (length (dropna s)))).
Proof.
  unfold mean. destruct (dropna s) as [|x xs] eqn:E.
  - cbn [length Nat.eqb]. split; [discriminate | intros [H _]; now elim H].
  - cbn [length Nat.eqb].
    set (q := div (np_sum s) (of_Z (Z.of_nat (S (length xs))))).
    destruct (is_nan q) eqn:N.
    + split; [discriminate|]. intros (_ & H1 & H2). congruence.
    + split.
      * intros H. inversion H; subst m. repeat split; auto. discriminate.
      * intros (_ & _ & ->). reflexivity.
Qed.

(** The integers that are summed when the present numbers of [s] are the
    integers [zs]: a missing value stands as 0. *)
Fixpoint spread (s : series number) (zs : list Z) : list Z :=
  match s with
  | [] => []
  | None :: s' => 0%Z :: spread s' zs
  | Some _ :: s' =>
      match zs with
      | z :: zs' => z :: spread s' zs'
      | [] => []
      end
  end.

Lemma fill0_spread s : forall zs,
  map as_float (dropna s) = map of_Z zs ->
  fill0 s = map of_Z (spread s zs)
  /\ total (spread s zs) = total zs
  /\ weight (spread s zs) = weight zs
  /\ (spread s zs = [] -> zs = []).
Proof.
  induction s as [|[x|] s IH]; intros zs E.
  - destruct zs; [|discriminate]. repeat split.
  - destruct zs as [|z zs]; [discriminate|].
    cbn [dropna flat_map app map] in E. inversion E as [[E1 E2]].
    destruct (IH zs E2) as (F & T & W & _).
    cbn [fill0 map spread]. fold (fill0 s). rewrite F, E1.
    cbn [total weight fold_right]. fold (total (spread s zs)) (total zs).
    fold (weight (spread s zs)) (weight zs). rewrite T, W.
    repeat split. discriminate.
  - cbn [dropna flat_map app] in E. destruct (IH zs E) as (F & T & W & _).
    cbn [fill0 map spread]. fold (fill0 s). rewrite F.
    cbn [total weight fold_right]. fold (total (spread s zs)).
    fold (weight (spread s zs)). rewrite T, W.
    repeat split. discriminate.
Qed.

(** When the present numbers of a series are integers whose absolute
    values add up to less than 2^53, no addition rounds, in whatever order
    numpy adds: the mean is the double nearest to the quotient of the sum
    of the present numbers by their number. *)
Lemma mean_of_integers (s : series number) zs :
  map as_float (dropna s) = map of_Z zs -> zs <> [] ->
  (weight zs < 2 ^ 53)%Z -> (Z.of_nat (length zs) < 2 ^ 53)%Z ->
  mean s = Some (ratio (total zs) (Z.of_nat (length zs))).
Proof.
  intros E Hne W N.
  destruct (fill0_spread s zs E) as (F & T & Wt & Hnil).
  assert (Hsum : np_sum s = of_Z (total zs)).
  { destruct (sum_of_exact _ _ (np_sum_of s) (spread s zs) F ltac:(lia))
      as [H|[_ H]]; [now rewrite <- T | elim Hne; now apply Hnil]. }
  assert (Hlen : length (dropna s) = length zs).
  { rewrite <- (length_map as_float), E. apply length_map. }
  apply mean_value. rewrite Hlen, Hsum.
  destruct zs as [|z zs]; [contradiction|].
  assert (Hd : dropna s <> []).
  { intros H. rewrite H in Hlen. discriminate. }
  split; [exact Hd|]. split; [|reflexivity].
  pose proof (total_weight (z :: zs)) as Ht.
  apply ratio_not_nan; [lia|].
  cbn [length] in *. lia.
Qed.

Lemma unread_column (s : series value) :
  (forall v, In v s -> reads (normalise v) = false) ->
  dropna (to_numeric_series s) = [].
Proof.
  intros H. apply length_zero_iff_nil.
  unfold to_numeric_series. rewrite to_numeric_present.
  apply length_zero_iff_nil.
  induction s as [|v s IH]; [reflexivity|].
  cbn [map filter]. rewrite (H v (or_introl eq_refl)).
  apply IH. intros w Hw. apply H. now right.
Qed.

Definition c8_sheet : dataframe :=
  [(score_word, [Some (Text (txt "n/a")); None; Some (Text [])])].

Definition c8_scored_sheet : dataframe :=
  [(score_word,
    [Some (Text (txt "4,5")); Some (Text (txt "n/a")); None; Some (Int 3)])].

(** C8.  The coercion reads [4,5] as 4.5.  A text that is no number, the
    empty text and a missing cell give missing, one result per cell and
    never an error, whatever the column around them; a text that holds a
    character of no number, and is no spelling of an infinity, is such a
    text.  The mean counts the present values only and is undefined when
    there is none: it is the sum of the array, in which a missing value
    stands as 0, divided by the number of present values, and for present
    values that are integers it is the double nearest to the quotient of
    their sum by their number.  The score tile shows the mean when it is a
    number and the dash otherwise, never NaN: a column of 4,5, n/a, a
    missing cell and 3 shows 3.75, and a column without a number shows the
    dash. *)
Theorem C8_missing_values_propagate :
  (exists x q,
     to_numeric_series [Some (Text (txt "4,5"))] = [Some (Real x)]
     /\ valueQ x = Some q /\ (q == 45 # 10)%Q)
  /\ to_numeric_series [Some (Text (txt "n/a"))] = [None]
  /\ to_numeric_series [Some (Text [])] = [None]
  /\ to_numeric_series [None] = [None]
  /\ (forall s, length (to_numeric_series s) = length s)
  /\ (forall s i v,
        nth_error s i = Some v -> reads (normalise v) = false ->
        nth_error (to_numeric_series s) i = Some None)
  /\ (forall v,
        (exists c, In c (normalise v) /\ numeric_char c = false) ->
        infinity_spelling (normalise v) = false ->
        reads (normalise v) = false)
  /\ (forall s : series number, dropna s = [] -> mean s = None)
  /\ (forall (s : series number) m,
        mean s = Some m
        <-> dropna s <> [] /\ is_nan m = false
            /\ m = div (np_sum s) (of_Z (Z.of_nat (length (dropna s)))))
  /\ (forall s : series number, sum_of (fill0 s) (np_sum s))
  /\ (forall (s : series number) zs,
        map as_float (dropna s) = map of_Z zs -> zs <> [] ->
        (weight zs < 2 ^ 53)%Z -> (Z.of_nat (length zs) < 2 ^ 53)%Z ->
        mean s = Some (ratio (total zs) (Z.of_nat (length zs))))
  /\ (forall df c s,
        score_col df = Some c -> getcol df c = Some s ->
        (forall v, In v s -> reads (normalise v) = false) ->
        score_metric df = Dash)
  /\ (forall df c s m,
        score_col df = Some c -> getcol df c = Some s ->
        mean (to_numeric_series s) = Some m ->
        score_metric df = Fixed2 m)
  /\ (forall df x,
        score_metric df = Fixed2 x ->
        is_nan x = false
        /\ exists c s,
             score_col df = Some c /\ getcol df c = Some s
             /\ dropna (to_numeric_series s) <> []
             /\ mean (to_numeric_series s) = Some x)
  /\ score_metric c8_scored_sheet = Fixed2 (ratio 375 100)
  /\ score_metric c8_sheet = Dash.
Proof.
  split.
  { exists (ratio 45 10). eexists. split; [vm_compute; reflexivity|].
    split; [vm_compute; reflexivity | reflexivity]. }
  split; [vm_compute; reflexivity|]. split; [vm_compute; reflexivity|].
  split; [vm_compute; reflexivity|].
  split; [exact to_numeric_series_length|]. split.
  { intros s i v H Hr. unfold to_numeric_series.
    destruct (to_numeric_nth (map normalise s) i (normalise v))
      as (r & Hn & Hm & _); [now apply map_nth_error|].
    rewrite Hn. f_equal. now apply Hm. }
  split; [intros v; apply not_numeric|].
  split; [exact mean_undefined|]. split; [exact mean_value|].
  split; [exact np_sum_of|]. split; [exact mean_of_integers|]. split.
  { intros df c s Hc Hs Hall. unfold score_metric. rewrite Hc, Hs.
    now rewrite (mean_undefined _ (unread_column s Hall)). }
  split.
  { intros df c s m Hc Hs Hm. unfold score_metric. now rewrite Hc, Hs, Hm. }
  split.
  { intros df x. unfold score_metric.
    destruct (score_col df) as [c|] eqn:Hc; [|discriminate].
    destruct (getcol df c) as [s|] eqn:Hs; [|discriminate].
    destruct (mean (to_numeric_series s)) as [m|] eqn:Hm; [|discriminate].
    intros H. inversion H; subst m.
    pose proof (proj1 (mean_value _ _) Hm) as (H1 & H2 & _).
    split; [exact H2|]. exists c, s. repeat split; auto. }
  split; vm_compute; reflexivity.
Qed.

(** C8 on a score column that holds no number. *)
Lemma C8_witness : score_metric c8_sheet = Dash.
Proof.
  apply (proj1 (proj2 (proj2 (proj2 (proj2 (proj2 (proj2 (proj2 (proj2
           (proj2 (proj2 (proj2 C8_missing_values_propagate))))))))))))
    with (c := score_word)
         (s := [Some (Text (txt "n/a")); None; Some (Text [])]).
  - vm_compute. reflexivity.
  - vm_compute. reflexivity.
  - intros v Hv. simpl in Hv.
    destruct Hv as [<-|[<-|[<-|[]]]]; vm_compute; reflexivity.
Defined.

(* ===================================================================== *)
(** * Numeric indicators *)
(* ===================================================================== *)

(** The numbers a column holds: the present values of its coercion. *)
Definition parsed (s : series value) : list number :=
  dropna (to_numeric_series s).

(** [xs] has at most [n] distinct members: [n] numbers suffice to name
    every member of [xs], up to the equality of [unique()]. *)
Definition at_most_distinct (xs : list number) (n : nat) : Prop :=
  exists reps,
    length reps <= n
    /\ forall x, In x xs -> exists r, In r reps /\ number_eqb x r = true.

Lemma count_true_notna {A} (s : series A) :
  count_true (notna s) = length (dropna s).
Proof.
  unfold count_true. induction s as [|[x|] s IH]; simpl; auto.
Qed.

Lemma length_notna {A} (s : series A) : length (notna s) = length s.
Proof. apply length_map. Qed.

Lemma ge_half_share (bs : list bool) :
  bs <> [] ->
  (ge_half (mean_bool bs) = true <-> length bs <= 2 * count_true bs).
Proof.
  intros Hne. unfold mean_bool. destruct bs as [|b bs]; [contradiction|].
  set (n := length (b :: bs)). set (k := count_true (b :: bs)).
  assert (Hn : 0 < n) by (unfold n; simpl; lia).
  unfold ge_half. rewrite Qle_bool_iff.
  destruct n as [|n']; [lia|].
  unfold Qle, Qdiv, Qmult, Qinv, inject_Z. cbn [Qnum Qden].
  rewrite Nat2Z.inj_succ. rewrite <- Pos2Z.inj_mul.
  destruct (Z.succ (Z.of_nat n')) as [|p|p] eqn:E; try lia.
  cbn [Qnum Qden]. rewrite Pos2Z.inj_mul. lia.
Qed.

Lemma number_eqb_refl a : number_eqb a a = true.
Proof. destruct a; cbn [number_eqb]; [apply Z.eqb_refl | apply same_refl]. Qed.

Lemma number_eqb_sym a b : number_eqb a b = number_eqb b a.
Proof.
  destruct a, b; cbn [number_eqb]; try reflexivity;
    [apply Z.eqb_sym | apply same_sym].
Qed.

Lemma number_eqb_trans a b c :
  number_eqb a b = true -> number_eqb b c = true -> number_eqb a c = true.
Proof.
  destruct a, b, c; cbn [number_eqb]; try discriminate.
  - rewrite !Z.eqb_eq. congruence.
  - apply same_trans.
Qed.

(** Values that are pairwise apart cannot outnumber values that name each
    of them. *)
Section Distinct.
Context {A : Type} (eqb : A -> A -> bool).
Hypothesis eqb_sym : forall a b, eqb a b = eqb b a.
Hypothesis eqb_trans :
  forall a b c, eqb a b = true -> eqb b c = true -> eqb a c = true.

Lemma apart_named (reps us : list A) :
  ForallOrdPairs (fun a b => eqb a b = false) us ->
  (forall u, In u us -> exists r, In r reps /\ eqb u r = true) ->
  length us <= length reps.
Proof.
  intros Hap Hcov.
  set (name := fun u => find (eqb u) reps).
  assert (Hname : forall u, In u us ->
             exists r, name u = Some r /\ In r reps /\ eqb u r = true).
  { intros u Hu. unfold name. destruct (find (eqb u) reps) as [r|] eqn:F.
    - apply find_some in F. now exists r.
    - destruct (Hcov u Hu) as (r & Hr & E).
      rewrite (find_none _ _ F r Hr) in E. discriminate. }
  rewrite <- (length_map name us), <- (length_map Some reps).
  apply NoDup_incl_length.
  - clear Hcov. induction Hap as [|a l Ha _ IH]; [constructor|].
    cbn [map]. constructor.
    + intros Hin. apply in_map_iff in Hin as (b & E & Hb).
      destruct (Hname a (or_introl eq_refl)) as (r & Hr & _ & Ea).
      destruct (Hname b (or_intror Hb)) as (r' & Hr' & _ & Eb).
      assert (r' = r) by congruence. subst r'.
      rewrite Forall_forall in Ha. specialize (Ha b Hb).
      rewrite (eqb_trans a r b Ea) in Ha; [discriminate|].
      now rewrite eqb_sym.
    + apply IH. intros u Hu. apply Hname. now right.
  - intros o Ho. apply in_map_iff in Ho as (u & <- & Hu).
    destruct (Hname u Hu) as (r & -> & Hr & _). now apply in_map.
Qed.

End Distinct.

Lemma unique_at_most (xs : list number) n :
  length (unique number_eqb xs) <= n <-> at_most_distinct xs n.
Proof.
  split.
  - intros H. exists (unique number_eqb xs). split; [exact H|].
    intros x Hx.
    exact (unique_covers number_eqb number_eqb_refl number_eqb_trans xs x Hx).
  - intros (reps & Hlen & Hcov).
    apply Nat.le_trans with (length reps); [|exact Hlen].
    apply (apart_named number_eqb number_eqb_sym number_eqb_trans).
    + apply (unique_apart number_eqb number_eqb_sym number_eqb_trans).
    + intros u Hu. apply Hcov.
      now apply (unique_incl number_eqb number_eqb_trans) in Hu.
Qed.

(** The test of the loop, read on the column. *)
Lemma indicator_iff (s : series value) :
  s <> [] ->
  (indicator (to_numeric_series s) = true
   <-> length s <= 2 * length (parsed s) /\ at_most_distinct (parsed s) 20).
Proof.
  intros Hne. unfold indicator. rewrite andb_true_iff, Nat.leb_le.
  rewrite unique_at_most. fold (parsed s).
  rewrite ge_half_share.
  - rewrite count_true_notna, length_notna, to_numeric_series_length.
    reflexivity.
  - intros E. apply (f_equal (@length bool)) in E.
    rewrite length_notna, to_numeric_series_length in E.
    destruct s; [contradiction | discriminate].
Qed.

Lemma indicator_present (s : series number) : indicator s = true -> dropna s <> [].
Proof.
  unfold indicator. intros H. apply andb_true_iff in H as [H _].
  destruct s as [|v s]; [discriminate|].
  apply ge_half_share in H; [|discriminate].
  rewrite count_true_notna, length_notna in H. simpl length in H at 1.
  intros E. rewrite E in H. simpl in H. lia.
Qed.

Lemma numeric_cols_In dfw c :
  In c (numeric_cols dfw) <-> In c (columns dfw) /\ numeric_col dfw c = true.
Proof. unfold numeric_cols. apply filter_In. Qed.

(** ** The order of the rows *)

Lemma key_number r x : key r = Some x -> is_nan x = false.
Proof.
  unfold key. destruct (snd r) as [y|]; [|discriminate].
  destruct (is_nan y) eqn:E; [discriminate|]. intros H. now inversion H; subst.
Qed.

Lemma mean_above_asym a b : mean_above a b = true -> mean_above b a = false.
Proof.
  unfold mean_above.
  destruct (key a) as [x|] eqn:Ka, (key b) as [y|] eqn:Kb; auto.
  apply ltb_asym; eauto using key_number.
Qed.

Lemma mean_above_negtrans a b c :
  mean_above b a = false -> mean_above c b = false -> mean_above c a = false.
Proof.
  unfold mean_above.
  destruct (key a) as [x|] eqn:Ka, (key b) as [y|] eqn:Kb,
    (key c) as [z|] eqn:Kc; auto; try discriminate.
  intros H1 H2. apply ltb_negtrans with y; eauto using key_number.
Qed.

(** Two sorts of the kind of [sort_values]: one leaves rows of equal mean
    in their order, the other turns them around. *)
Definition stable_sort (l : list row) : list row := sort_desc mean_above l.

Definition reversing_sort (l : list row) : list row :=
  sort_desc mean_above (rev l).

Lemma stable_sort_sorts : sorts_descending mean_above stable_sort.
Proof.
  intros l. split; [apply sort_desc_perm|].
  apply sort_desc_sorted; [exact mean_above_asym | exact mean_above_negtrans].
Qed.

Lemma reversing_sort_sorts : sorts_descending mean_above reversing_sort.
Proof.
  intros l. unfold reversing_sort. split.
  - rewrite sort_desc_perm. symmetry. apply Permutation_rev.
  - apply sort_desc_sorted; [exact mean_above_asym | exact mean_above_negtrans].
Qed.

(** The rows of the table of means are those of the indicators. *)
Lemma means_rows sort_values dfw r :
  (forall l : list row, Permutation (sort_values l) l) ->
  (In r (means sort_values dfw)
   <-> exists c, In c (numeric_cols dfw)
                 /\ r = (nice_col (uni c), col_mean dfw c)).
Proof.
  intros Hperm. unfold means, mean_rows. split.
  - intros H. apply (Permutation_in _ (Hperm _)) in H.
    apply in_map_iff in H as (c & <- & Hc). now exists c.
  - intros (c & Hc & ->). apply (Permutation_in _ (Permutation_sym (Hperm _))).
    apply in_map_iff. now exists c.
Qed.

Lemma indicator_column dfw c :
  In c (numeric_cols dfw) ->
  exists s, getcol dfw c = Some s /\ parsed s <> []
            /\ col_mean dfw c = mean (to_numeric_series s).
Proof.
  intros Hc. apply numeric_cols_In in Hc as [_ Hn].
  unfold numeric_col in Hn. unfold col_mean.
  destruct (getcol dfw c) as [s|] eqn:Hs; [|discriminate].
  exists s. split; [reflexivity|]. split; [|reflexivity].
  now apply indicator_present.
Qed.

(** Every column of the sheet has the same number of rows. *)
Definition rectangular (df : dataframe) : Prop :=
  forall c1 s1 c2 s2,
    In (c1, s1) df -> In (c2, s2) df -> length s1 = length s2.

Lemma getcol_pair df c s : getcol df c = Some s -> In (c, s) df.
Proof.
  induction df as [|[name t] df IH]; simpl; [discriminate|].
  destruct (str_eqb name c) eqn:E.
  - apply str_eqb_eq in E. intros H. inversion H; subst. now left.
  - intros H. right. now apply IH.
Qed.

Lemma df_work_sub ctl df p : In p (df_work ctl df) -> In p df.
Proof.
  unfold df_work. destruct (hide_identifying ctl); [|auto].
  destruct (id_cols df); [auto|].
  unfold drop. intros H. now apply filter_In in H.
Qed.

(** Past the halt on [df.empty], every column has a row. *)
Lemma df_work_rows ctl df c s :
  rectangular df -> empty df = false ->
  getcol (df_work ctl df) c = Some s -> s <> [].
Proof.
  intros Hrect Hne Hs. apply getcol_pair, df_work_sub in Hs.
  destruct df as [|[c0 s0] df]; [discriminate|]. simpl in Hne.
  apply Nat.eqb_neq in Hne.
  assert (E : length s = length s0) by (apply (Hrect c s c0 s0); simpl; auto).
  intros ->. simpl in E. congruence.
Qed.

(** The loop over the columns of the working table, read on a column. *)
Lemma numeric_cols_test ctl df c s :
  rectangular df -> empty df = false ->
  getcol (df_work ctl df) c = Some s ->
  (In c (numeric_cols (df_work ctl df))
   <-> length s <= 2 * length (parsed s) /\ at_most_distinct (parsed s) 20).
Proof.
  intros Hrect Hne Hs.
  pose proof (df_work_rows ctl df c s Hrect Hne Hs) as Hrows.
  rewrite numeric_cols_In. unfold numeric_col.
  rewrite Hs, <- (indicator_iff s Hrows). split; [tauto|].
  intros H. split; [now apply getcol_In in Hs | exact H].
Qed.

Definition c2_column : series value :=
  [Some (Int 1); Some (Int 2); Some (Int 1); Some (Int 1); Some (Int 2); None].

Definition c2_sheet : dataframe := [(txt "Nota", c2_column)].

(** The same column as pandas holds it once a cell is missing: floats. *)
Definition c2_float_sheet : dataframe :=
  [(txt "Nota",
    [Some (Text (txt "1.0")); Some (Text (txt "2.0")); Some (Text (txt "1.0"));
     Some (Text (txt "1.0")); Some (Text (txt "2.0")); None])].

(** C2.  In a run that got past the halt on an empty sheet, a column of
    the working table is a numeric indicator exactly when at least half of
    its cells are numbers after coercion and these numbers take at most 20
    distinct values.  The table of means has one row for each indicator
    and no other row; the row carries the label of the column and its
    mean, which is taken over at least one number.  A mean is the sum of
    the column, where a missing cell stands as 0, divided by the number of
    present values; when the present values are integers it is the double
    nearest to the quotient of their sum by their number, so missing cells
    do not weigh on it.  The column 1, 2, 1, 1, 2, missing is an indicator
    and its mean is 1.4, the double that pandas reads from [1.4]. *)
Theorem C2_numeric_indicator :
  (forall ctl df c s,
     rectangular df -> empty df = false ->
     getcol (df_work ctl df) c = Some s ->
     (In c (numeric_cols (df_work ctl df))
      <-> length s <= 2 * length (parsed s) /\ at_most_distinct (parsed s) 20))
  /\ (forall sort_values dfw r,
        (forall l : list row, Permutation (sort_values l) l) ->
        (In r (means sort_values dfw)
         <-> exists c, In c (numeric_cols dfw)
                       /\ r = (nice_col (uni c), col_mean dfw c)))
  /\ (forall dfw c,
        In c (numeric_cols dfw) ->
        exists s, getcol dfw c = Some s /\ parsed s <> []
                  /\ col_mean dfw c = mean (to_numeric_series s))
  /\ (forall (s : series number) m,
        mean s = Some m
        <-> dropna s <> [] /\ is_nan m = false
            /\ m = div (np_sum s) (of_Z (Z.of_nat (length (dropna s)))))
  /\ (forall s : series number, sum_of (fill0 s) (np_sum s))
  /\ (forall (s : series number) zs,
        map as_float (dropna s) = map of_Z zs -> zs <> [] ->
        (weight zs < 2 ^ 53)%Z -> (Z.of_nat (length zs) < 2 ^ 53)%Z ->
        mean s = Some (ratio (total zs) (Z.of_nat (length zs))))
  /\ In (txt "Nota") (numeric_cols (df_work default_controls c2_sheet))
  /\ col_mean (df_work default_controls c2_sheet) (txt "Nota")
     = Some (ratio 14 10)
  /\ col_mean (df_work default_controls c2_float_sheet) (txt "Nota")
     = Some (ratio 14 10)
  /\ to_numeric_series [Some (Text (txt "1.4"))] = [Some (Real (ratio 14 10))]
  /\ (exists q, valueQ (ratio 14 10) = Some q
                /\ (Qabs (q - (14 # 10)) <= 1 # 9007199254740992)%Q).
Proof.
  split; [exact numeric_cols_test|].
  split; [intros sort_values dfw r; apply means_rows|].
  split; [exact indicator_column|].
  split; [exact mean_value|]. split; [exact np_sum_of|].
  split; [exact mean_of_integers|].
  split; [vm_compute; now left|].
  split; [vm_compute; reflexivity|]. split; [vm_compute; reflexivity|].
  split; [vm_compute; reflexivity|].
  eexists. split; [vm_compute; reflexivity | vm_compute; discriminate].
Qed.

Lemma c2_sheet_rectangular : rectangular c2_sheet.
Proof.
  intros c1 s1 c2 s2 H1 H2. simpl in H1, H2.
  destruct H1 as [H1|[]], H2 as [H2|[]]. congruence.
Qed.

(** C2 on the column of the specification. *)
Lemma C2_witness :
  In (txt "Nota") (numeric_cols (df_work default_controls c2_sheet))
  <-> length c2_column <= 2 * length (parsed c2_column)
      /\ at_most_distinct (parsed c2_column) 20.
Proof.
  apply (proj1 C2_numeric_indicator default_controls c2_sheet (txt "Nota") c2_column).
  - exact c2_sheet_rectangular.
  - reflexivity.
  - vm_compute. reflexivity.
Defined.

(** ** The order of the table of means *)

(** A row stands above another: the second has no mean that is a number,
    or both have and the first mean is not the smaller. *)
Definition row_mean_ge (a b : row) : Prop :=
  match key b with
  | Some y => exists x, key a = Some x /\ ltb x y = false
  | None => True
  end.

(** The row has the mean [m]. *)
Definition has_mean (m : float64) (r : row) : bool :=
  match key r with
  | Some x => eqb x m
  | None => false
  end.

(** The claim as the specification words it: rows of equal mean keep the
    order of their columns. *)
Definition ties_keep_column_order (sort_values : list row -> list row)
  (dfw : dataframe) : Prop :=
  forall m,
    filter (has_mean m) (means sort_values dfw)
    = filter (has_mean m) (mean_rows dfw).

Definition c4_sheet : dataframe :=
  [(txt "A", [Some (Int 4); Some (Int 2)]);
   (txt "B", [Some (Int 3); Some (Int 3)]);
   (txt "C", [Some (Int 5); Some (Int 5)])].

Lemma StronglySorted_In {A} (R R' : A -> A -> Prop) l :
  (forall a b, In a l -> In b l -> R a b -> R' a b) ->
  StronglySorted R l -> StronglySorted R' l.
Proof.
  intros Himp H. induction H as [|a l Hs IH Ha]; constructor.
  - apply IH. intros x y Hx Hy. apply Himp; now right.
  - rewrite Forall_forall in *. intros y Hy.
    apply Himp; [now left | now right | now apply Ha].
Qed.

Lemma mean_above_ge a b : mean_above b a = false -> row_mean_ge a b.
Proof.
  unfold mean_above, row_mean_ge.
  destruct (key b) as [y|]; [|trivial].
  destruct (key a) as [x|]; [|discriminate].
  intros H. now exists x.
Qed.

(** Four columns whose means are all 3. *)
Definition c4_tied_sheet : dataframe :=
  [(txt "A", [Some (Int 4); Some (Int 2)]);
   (txt "B", [Some (Int 3); Some (Int 3)]);
   (txt "C", [Some (Int 2); Some (Int 4)]);
   (txt "D", [Some (Int 1); Some (Int 5)])].

(** The sort that turns rows of equal mean around leaves them as D, C, B,
    A; the one that keeps their order as A, B, C, D.  Both are sorts by
    mean, greatest first. *)
Example tied_rows_either_way :
  means reversing_sort c4_tied_sheet
  = [(uni (txt "D"), Some (of_Z 3)); (uni (txt "C"), Some (of_Z 3));
     (uni (txt "B"), Some (of_Z 3)); (uni (txt "A"), Some (of_Z 3))]
  /\ means stable_sort c4_tied_sheet
     = [(uni (txt "A"), Some (of_Z 3)); (uni (txt "B"), Some (of_Z 3));
        (uni (txt "C"), Some (of_Z 3)); (uni (txt "D"), Some (of_Z 3))].
Proof. split; vm_compute; reflexivity. Qed.

(** That [sort_values] sorts by mean, greatest first, does not make rows
    of equal mean keep the order of their columns: a sort of this kind may
    leave the columns A, B, C and D, whose means are all 3, as D, C, B,
    A. *)
Lemma C4_counterexample :
  ~ (forall sort_values,
       sorts_descending mean_above sort_values ->
       ties_keep_column_order sort_values c4_tied_sheet).
Proof.
  intros H. specialize (H reversing_sort reversing_sort_sorts (of_Z 3)).
  vm_compute in H. discriminate.
Qed.

Section Means.
Variable sort_values : list row -> list row.
Hypothesis sort_values_sorts : sorts_descending mean_above sort_values.

(** C4, amended.  The table of means holds the rows of the numeric
    columns, taken in column order and then sorted by mean, greatest
    first: the rows are the same, no row stands below a row of smaller
    mean, and a row whose mean is no number stands below every row whose
    mean is one.  The order of rows of equal mean is that in which the
    sort of pandas leaves them, which the code does not fix.  The section
    shows this table as a chart and as a table, or the notice that there
    is no indicator. *)
Theorem C4_means_sorted :
  (forall dfw,
     mean_rows dfw
     = map (fun c => (nice_col (uni c), col_mean dfw c))
         (filter (numeric_col dfw) (columns dfw))
     /\ means sort_values dfw = sort_values (mean_rows dfw)
     /\ Permutation (means sort_values dfw) (mean_rows dfw)
     /\ StronglySorted row_mean_ge (means sort_values dfw))
  /\ (forall ctl df,
        (numeric_cols (df_work ctl df) = []
         /\ indicators_section sort_values ctl df = [Info No_indicators])
        \/ (numeric_cols (df_work ctl df) <> []
            /\ indicators_section sort_values ctl df
               = [Indicator_chart (means sort_values (df_work ctl df));
                  Indicator_table (means sort_values (df_work ctl df))])).
Proof.
  split.
  2:{ intros ctl df. unfold indicators_section.
      destruct (numeric_cols (df_work ctl df)); [now left | right].
      split; [discriminate | reflexivity]. }
  intros dfw. split; [reflexivity|]. split; [reflexivity|].
  destruct (sort_values_sorts (mean_rows dfw)) as [Hp Hs].
  split; [exact Hp|].
  apply StronglySorted_In with (R := fun a b => mean_above b a = false);
    [|exact Hs].
  intros a b _ _. apply mean_above_ge.
Qed.

End Means.

(** C4 with a sort that keeps rows of equal mean in order, on the sheet
    of the columns A, B and C. *)
Lemma C4_witness :
  means stable_sort c4_sheet
  = [(uni (txt "C"), Some (of_Z 5)); (uni (txt "A"), Some (of_Z 3));
     (uni (txt "B"), Some (of_Z 3))]
  /\ StronglySorted row_mean_ge (means stable_sort c4_sheet).
Proof.
  split; [vm_compute; reflexivity|].
  exact (proj2 (proj2 (proj2
           (proj1 (C4_means_sorted stable_sort stable_sort_sorts) c4_sheet)))).
Defined.

(* ===================================================================== *)
(** * Column roles *)
(* ===================================================================== *)

Lemma first_col_In p cols c : first_col p cols = Some c -> In c cols.
Proof.
  induction cols as [|x cols IH]; simpl; [discriminate|].
  destruct (contains (lower p) (lower x)).
  - intros H. inversion H. now left.
  - intros H. right. now apply IH.
Qed.

Lemma guess_timestamp_col_In cols c :
  guess_timestamp_col cols = Some c -> In c cols.
Proof.
  unfold guess_timestamp_col. induction preferred as [|p ps IH]; simpl;
    [discriminate|].
  destruct (first_col p cols) as [x|] eqn:E; [|exact IH].
  intros H. inversion H; subst. now apply first_col_In in E.
Qed.

Lemma textual_cols_In ctl df c :
  In c (textual_cols ctl df) <->
  In c (columns df)
  /\ ~ In c (numeric_cols (df_work ctl df))
  /\ ts_col df <> Some c
  /\ is_comment_col c = false
  /\ (hide_identifying ctl = true -> identifying c = false).
Proof.
  unfold textual_cols. rewrite filter_In, !andb_true_iff, !negb_true_iff.
  assert (Hts : is_ts (ts_col df) c = false <-> ts_col df <> Some c).
  { unfold is_ts. destruct (ts_col df) as [t|].
    - split.
      + intros H E. inversion E; subst. rewrite str_eqb_refl in H. discriminate.
      + intros H. destruct (str_eqb c t) eqn:E; [|reflexivity].
        apply str_eqb_eq in E. subst. contradiction.
    - split; [discriminate | reflexivity]. }
  assert (Hnum : mem c (numeric_cols (df_work ctl df)) = false
                 <-> ~ In c (numeric_cols (df_work ctl df))).
  { rewrite <- mem_In. destruct (mem c _); split; congruence. }
  rewrite Hts, Hnum, andb_false_iff.
  destruct (hide_identifying ctl), (identifying c); intuition congruence.
Qed.

(** The claim as the specification words it. *)
Definition timestamp_excluded (ctl : controls) (df : dataframe) : Prop :=
  forall t,
    ts_col df = Some t ->
    ~ In t (numeric_cols (df_work ctl df)) /\ ~ In t (textual_cols ctl df).

Definition c5_sheet : dataframe :=
  [(txt "Timestamp", [Some (Int 1); Some (Int 2)]);
   (txt "Curso", [Some (Text (txt "Fisica")); Some (Text (txt "Quimica"))])].

(** A column named as a timestamp whose cells are numbers is listed among
    the numeric indicators. *)
Lemma C5_counterexample : ~ timestamp_excluded default_controls c5_sheet.
Proof.
  intros H. destruct (H (txt "Timestamp")) as [Hnum _].
  - vm_compute. reflexivity.
  - apply Hnum. vm_compute. now left.
Qed.

(** C5, amended.  The column designated as the timestamp is a column of
    the table and is never a textual question.  The numeric indicators
    are chosen by the content of the columns alone: the timestamp column
    is one of them exactly when it is a column of the working table at
    least half of whose cells are numbers that take at most 20 distinct
    values. *)
Theorem C5_timestamp_not_categorical :
  forall ctl df t,
    ts_col df = Some t ->
    In t (columns df)
    /\ ~ In t (textual_cols ctl df)
    /\ (In t (numeric_cols (df_work ctl df)) -> In t (columns (df_work ctl df)))
    /\ (forall s,
          rectangular df -> empty df = false ->
          getcol (df_work ctl df) t = Some s ->
          (In t (numeric_cols (df_work ctl df))
           <-> length s <= 2 * length (parsed s)
               /\ at_most_distinct (parsed s) 20)).
Proof.
  intros ctl df t Ht. split; [now apply guess_timestamp_col_In|]. split.
  - intros H. apply textual_cols_In in H as (_ & _ & Hts & _). contradiction.
  - split.
    + intros H. now apply numeric_cols_In in H.
    + intros s. apply numeric_cols_test.
Qed.

(** C5 on a sheet whose timestamp column holds numbers. *)
Lemma C5_witness :
  In (txt "Timestamp") (columns c5_sheet)
  /\ ~ In (txt "Timestamp") (textual_cols default_controls c5_sheet).
Proof.
  destruct (C5_timestamp_not_categorical default_controls c5_sheet
              (txt "Timestamp")) as (H1 & H2 & _).
  - vm_compute. reflexivity.
  - split; [exact H1 | exact H2].
Defined.

(* ===================================================================== *)
(** * Anonymization *)
(* ===================================================================== *)

Lemma columns_drop df cols :
  columns (drop df cols) = filter (fun c => negb (mem c cols)) (columns df).
Proof.
  unfold columns, drop. induction df as [|[c s] df IH]; simpl; [reflexivity|].
  destruct (mem c cols); simpl; now rewrite IH.
Qed.

(** With the toggle on, no identifying column is left in the working
    table. *)
Lemma df_work_hides ctl df c :
  hide_identifying ctl = true -> identifying c = true ->
  ~ In c (columns (df_work ctl df)).
Proof.
  intros Hh Hc Hin. unfold df_work in Hin. rewrite Hh in Hin.
  destruct (id_cols df) as [|x ids] eqn:E.
  - assert (H : In c (id_cols df)) by (apply filter_In; auto).
    rewrite E in H. contradiction.
  - rewrite columns_drop in Hin. apply filter_In in Hin as [Hin Hm].
    apply negb_true_iff in Hm.
    assert (H : mem c (id_cols df) = true).
    { apply mem_In. apply filter_In. auto. }
    rewrite E in H. congruence.
Qed.

(** The working table, the numeric indicators, the textual questions and
    the raw table hold no identifying column when the toggle is on. *)
Lemma identifying_hidden ctl df c :
  hide_identifying ctl = true -> identifying c = true ->
  ~ In c (columns (df_work ctl df))
  /\ ~ In c (numeric_cols (df_work ctl df))
  /\ ~ In c (textual_cols ctl df)
  /\ (forall t, In (Raw_table t) (raw_table_section ctl df) -> ~ In c (columns t)).
Proof.
  intros Hh Hc. pose proof (df_work_hides ctl df c Hh Hc) as Hw.
  split; [exact Hw|]. split; [|split].
  - intros H. apply numeric_cols_In in H as [H _]. contradiction.
  - intros H. apply textual_cols_In in H as (_ & _ & _ & _ & H).
    rewrite (H Hh) in Hc. discriminate.
  - intros t Ht. unfold raw_table_section in Ht.
    destruct (show_raw_table ctl); [|contradiction].
    destruct Ht as [Ht|[]]. inversion Ht; subst. exact Hw.
Qed.

Definition c1_column : str := txt "Deixe aqui seu nome".

Definition c1_sheet : dataframe :=
  [(c1_column, [Some (Text (txt "Maria Silva")); None]);
   (txt "Nota", [Some (Int 5); Some (Int 4)])].

(** C1, at a sheet where the code departs from it.  With anonymization on,
    a column whose name is both identifying and a comment field is dropped
    from the working table, yet the comment section, which reads the
    original table, lists it and prints its cells.  A column named
    [E-mail], which is no comment field, is in none of the four inputs. *)
Theorem C1_comments_read_identifying_columns :
  hide_identifying default_controls = true
  /\ identifying c1_column = true
  /\ ~ In c1_column (columns (df_work default_controls c1_sheet))
  /\ In c1_column (comment_cols c1_sheet)
  /\ comments_section default_controls c1_sheet
     = [Title (nice_col (uni c1_column)); Bullet (txt "Maria Silva"); Divider]
  /\ (forall ctl df,
        hide_identifying ctl = true ->
        ~ In (txt "E-mail") (columns (df_work ctl df))
        /\ ~ In (txt "E-mail") (numeric_cols (df_work ctl df))
        /\ ~ In (txt "E-mail") (textual_cols ctl df)
        /\ ~ In (txt "E-mail") (comment_cols df)).
Proof.
  split; [reflexivity|]. split; [vm_compute; reflexivity|]. split.
  { apply df_work_hides; vm_compute; reflexivity. }
  split; [vm_compute; now left|]. split; [vm_compute; reflexivity|].
  intros ctl df Hh.
  destruct (identifying_hidden ctl df (txt "E-mail") Hh) as (H1 & H2 & H3 & _).
  { vm_compute. reflexivity. }
  repeat split; auto.
  intros H. apply filter_In in H as [_ H]. vm_compute in H. discriminate.
Qed.

(* ===================================================================== *)
(** * Answer frequencies *)
(* ===================================================================== *)

(** How often [k] occurs in [xs]. *)
Definition occurrences (k : str) (xs : list str) : nat :=
  count_occ (list_eq_dec ascii_dec) xs k.

(** [k1] is met in [xs] before any [k2]. *)
Definition seen_first (xs : list str) (k1 k2 : str) : Prop :=
  exists a b, xs = a ++ k1 :: b /\ ~ In k2 a.

Lemma str_eqb_sym a b : str_eqb a b = str_eqb b a.
Proof.
  destruct (str_eqb a b) eqn:E1, (str_eqb b a) eqn:E2; auto.
  - apply str_eqb_eq in E1. subst. rewrite str_eqb_refl in E2. discriminate.
  - apply str_eqb_eq in E2. subst. rewrite str_eqb_refl in E1. discriminate.
Qed.

Lemma str_eqb_trans a b c :
  str_eqb a b = true -> str_eqb b c = true -> str_eqb a c = true.
Proof. rewrite !str_eqb_eq. congruence. Qed.

Lemma str_eqb_neq a b : str_eqb a b = false <-> a <> b.
Proof.
  split.
  - intros H E. subst. rewrite str_eqb_refl in H. discriminate.
  - intros H. destruct (str_eqb a b) eqn:E; [|reflexivity].
    apply str_eqb_eq in E. contradiction.
Qed.

Lemma count_occurrences k xs : count str_eqb k xs = occurrences k xs.
Proof.
  unfold count, occurrences. induction xs as [|x xs IH]; simpl; [reflexivity|].
  destruct (list_eq_dec ascii_dec x k) as [->|Hne].
  - rewrite str_eqb_refl. simpl. now rewrite IH.
  - rewrite str_eqb_sym. apply str_eqb_neq in Hne. now rewrite Hne.
Qed.

Lemma unique_In xs k : In k (unique str_eqb xs) <-> In k xs.
Proof.
  split.
  - apply (unique_incl str_eqb str_eqb_trans).
  - intros H.
    destruct (unique_covers str_eqb str_eqb_refl str_eqb_trans xs k H)
      as (z & Hz & E).
    apply str_eqb_eq in E. now subst.
Qed.

Lemma unique_NoDup xs : NoDup (unique str_eqb xs).
Proof.
  pose proof (unique_apart str_eqb str_eqb_sym str_eqb_trans xs) as H.
  induction H as [|a l Ha _ IH]; constructor; [|exact IH].
  intros Hin. rewrite Forall_forall in Ha. specialize (Ha a Hin).
  rewrite str_eqb_refl in Ha. discriminate.
Qed.

Lemma before_In {A} (l : list A) x y : before l x y -> In x l /\ In y l.
Proof.
  intros (l1 & l2 & l3 & ->). split.
  - apply in_or_app. right. now left.
  - apply in_or_app. right. right. apply in_or_app. right. now left.
Qed.

(** [unique] lists the values in the order in which they are first met. *)
Lemma unique_first_seen xs k1 k2 :
  k1 <> k2 -> In k2 xs ->
  (before (unique str_eqb xs) k1 k2 <-> seen_first xs k1 k2).
Proof.
  intros Hne. induction xs as [|x xs IH]; [intros []|]. intros Hk2.
  rewrite (unique_cons str_eqb str_eqb_trans), before_cons.
  set (P := fun y => negb (str_eqb y x)).
  assert (HP : forall y, P y = true <-> y <> x).
  { intros y. unfold P. rewrite negb_true_iff. apply str_eqb_neq. }
  split.
  - intros [[-> _]|Hb].
    + exists [], xs. auto.
    + destruct (before_In _ _ _ Hb) as [H1 H2].
      apply filter_In in H1 as [_ H1]. apply filter_In in H2 as [H2' H2].
      apply before_filter in Hb; auto.
      apply (proj1 (unique_In _ _)) in H2'. apply (proj1 (IH H2')) in Hb.
      destruct Hb as (a & b & -> & Ha).
      exists (x :: a), b. split; [reflexivity|].
      intros [E|Hin]; [|contradiction]. apply HP in H2. now subst.
  - intros (a & b & E & Ha). destruct a as [|y a]; simpl in E; inversion E; subst.
    + left. split; [reflexivity|]. apply filter_In. split.
      * apply unique_In. destruct Hk2 as [Hk2|Hk2]; [congruence | exact Hk2].
      * apply HP. congruence.
    + assert (Hx2 : k2 <> y) by (intros ->; apply Ha; now left).
      assert (Hin2 : In k2 (a ++ k1 :: b)).
      { destruct Hk2 as [Hk2|Hk2]; [congruence | exact Hk2]. }
      assert (Hb : before (unique str_eqb (a ++ k1 :: b)) k1 k2).
      { apply IH; auto. exists a, b. split; [reflexivity|].
        intros Hin. apply Ha. now right. }
      destruct (list_eq_dec ascii_dec y k1) as [->|Hx1].
      * left. split; [reflexivity|]. apply filter_In. split.
        -- now apply unique_In.
        -- now apply HP.
      * right. apply before_filter; auto; apply HP; congruence.
Qed.

Definition count_above (a b : str * nat) : bool := snd b <? snd a.

Lemma count_above_asym a b : count_above a b = true -> count_above b a = false.
Proof. unfold count_above. rewrite Nat.ltb_lt, Nat.ltb_ge. lia. Qed.

Lemma count_above_negtrans a b c :
  count_above b a = false -> count_above c b = false -> count_above c a = false.
Proof. unfold count_above. rewrite !Nat.ltb_ge. lia. Qed.

(** The rows of [value_counts] before they are sorted. *)
Definition count_rows (xs : list str) : list (str * nat) :=
  map (fun k => (k, count str_eqb k xs)) (unique str_eqb xs).

Lemma value_counts_rows xs : value_counts xs = sort_desc count_above (count_rows xs).
Proof. reflexivity. Qed.

Lemma value_counts_perm xs : Permutation (value_counts xs) (count_rows xs).
Proof. apply sort_desc_perm. Qed.

Lemma count_rows_In xs k n :
  In (k, n) (count_rows xs) <-> In k xs /\ n = occurrences k xs.
Proof.
  unfold count_rows. rewrite in_map_iff. split.
  - intros (k' & E & Hk). inversion E; subst.
    split; [now apply unique_In | apply count_occurrences].
  - intros [Hk ->]. exists k. split.
    + now rewrite count_occurrences.
    + now apply unique_In.
Qed.

Lemma value_counts_In xs k n :
  In (k, n) (value_counts xs) <-> In k xs /\ n = occurrences k xs.
Proof.
  rewrite <- count_rows_In. split; apply Permutation_in.
  - apply value_counts_perm.
  - symmetry. apply value_counts_perm.
Qed.

Lemma value_counts_keys xs : NoDup (map fst (value_counts xs)).
Proof.
  apply (Permutation_NoDup (l := map fst (count_rows xs))).
  - apply Permutation_map. symmetry. apply value_counts_perm.
  - unfold count_rows. rewrite map_map. simpl. rewrite map_id.
    apply unique_NoDup.
Qed.

Lemma value_counts_sorted xs :
  StronglySorted (fun a b => snd b <= snd a) (value_counts xs).
Proof.
  apply StronglySorted_In with (R := descending count_above).
  - intros a b _ _ H. unfold descending, count_above in H.
    now apply Nat.ltb_ge in H.
  - apply sort_desc_sorted.
    + exact count_above_asym.
    + exact count_above_negtrans.
Qed.

Lemma value_counts_ties xs k1 k2 n :
  In (k1, n) (value_counts xs) -> In (k2, n) (value_counts xs) -> k1 <> k2 ->
  (before (value_counts xs) (k1, n) (k2, n) <-> seen_first xs k1 k2).
Proof.
  intros H1 H2 Hne.
  apply value_counts_In in H1 as [Hk1 E1], H2 as [Hk2 E2].
  set (P := tied count_above (k1, n)).
  assert (HP : forall k, P (k, n) = true).
  { intros k. unfold P, tied, count_above. simpl. now rewrite Nat.ltb_irrefl. }
  rewrite <- (before_filter P) by apply HP.
  rewrite value_counts_rows. unfold P.
  rewrite (sort_desc_stable count_above count_above_negtrans).
  fold P. rewrite (before_filter P) by apply HP.
  rewrite <- (unique_first_seen xs k1 k2 Hne Hk2).
  unfold count_rows. set (f := fun k => (k, count str_eqb k xs)).
  assert (Ef1 : (k1, n) = f k1).
  { unfold f. now rewrite count_occurrences, <- E1. }
  assert (Ef2 : (k2, n) = f k2).
  { unfold f. now rewrite count_occurrences, <- E2. }
  rewrite Ef1, Ef2. apply before_map.
  intros a b E. now inversion E.
Qed.

Lemma answers_missing a b : answers (a ++ None :: b) = answers (a ++ b).
Proof. unfold answers. now rewrite !dropna_app. Qed.

(** The claim as the specification words it: the rows are those of the
    non-empty cleaned values. *)
Definition rows_of_nonempty_answers (df : dataframe) (q : str) : Prop :=
  forall s, getcol df q = Some s ->
  forall k n,
    In (k, n) (freq df q)
    <-> k <> [] /\ In k (answers s) /\ n = occurrences k (answers s).

Definition c3_blank_sheet : dataframe :=
  [(txt "Curso", [Some (Text (txt " ")); Some (Text (txt "Fisica"))])].

(** A cell that holds only whitespace is not missing; it is cleaned to the
    empty text, which gets a row of its own. *)
Lemma C3_counterexample :
  ~ rows_of_nonempty_answers c3_blank_sheet (txt "Curso").
Proof.
  intros H.
  assert (Hin : In ([], 1) (freq c3_blank_sheet (txt "Curso"))).
  { vm_compute. now left. }
  apply (H _ eq_refl) in Hin as [Hne _]. now apply Hne.
Qed.

Definition c3_sheet : dataframe :=
  [(txt "Curso", [Some (Text (txt "Yes")); Some (Text (txt "No"));
                  Some (Text (txt "Yes")); Some (Text (txt "Yes"))])].

(** C3, amended.  For a column of the table, the frequency table has one
    row for each distinct cleaned value of the cells that are not missing,
    the empty text included when a cell cleans to it, with the number of
    such cells that clean to it.  Missing cells are left out before
    anything is counted.  The rows are sorted by count, greatest first,
    and of two values with the same count the one met first in row order
    comes first.  The answers Yes, No, Yes, Yes give Yes 3, No 1. *)
Theorem C3_frequency_rows :
  (forall df q s,
     getcol df q = Some s ->
     freq df q = value_counts (answers s)
     /\ answers s = map (fun v => clean_text (Some (str_of_value v))) (dropna s)
     /\ NoDup (map fst (freq df q))
     /\ (forall k n,
           In (k, n) (freq df q)
           <-> In k (answers s) /\ n = occurrences k (answers s))
     /\ StronglySorted (fun a b => snd b <= snd a) (freq df q)
     /\ (forall k1 k2 n,
           In (k1, n) (freq df q) -> In (k2, n) (freq df q) -> k1 <> k2 ->
           (before (freq df q) (k1, n) (k2, n)
            <-> seen_first (answers s) k1 k2)))
  /\ (forall a b, answers (a ++ None :: b) = answers (a ++ b))
  /\ (forall ctl df q,
        frequency_section ctl df q = [Info No_textual_question]
        \/ frequency_section ctl df q
           = [Frequency_chart (firstn 15 (freq df q));
              Frequency_table (freq df q)])
  /\ freq c3_sheet (txt "Curso") = [(txt "Yes", 3); (txt "No", 1)].
Proof.
  split; [|split; [exact answers_missing | split; [| vm_compute; reflexivity]]].
  2:{ intros ctl df q. unfold frequency_section.
      destruct (textual_cols ctl df); [now left | now right]. }
  intros df q s Hs. unfold freq. rewrite Hs.
  split; [reflexivity|]. split; [reflexivity|].
  split; [apply value_counts_keys|].
  split; [apply value_counts_In|].
  split; [apply value_counts_sorted | apply value_counts_ties].
Qed.

(** C3 on the answers of the specification: the row of Yes stands before
    the row of No, and there is no third row. *)
Lemma C3_witness :
  NoDup (map fst (freq c3_sheet (txt "Curso")))
  /\ In (txt "Yes", 3) (freq c3_sheet (txt "Curso"))
  /\ In (txt "No", 1) (freq c3_sheet (txt "Curso")).
Proof.
  destruct (proj1 C3_frequency_rows c3_sheet (txt "Curso")
              [Some (Text (txt "Yes")); Some (Text (txt "No"));
               Some (Text (txt "Yes")); Some (Text (txt "Yes"))])
    as (_ & _ & Hk & Hin & _).
  - vm_compute. reflexivity.
  - split; [exact Hk|]. split; apply Hin; vm_compute; auto.
Defined.

(* ===================================================================== *)
(** * Comments *)
(* ===================================================================== *)

(** The claim as the specification words it: the bullets are the
    non-empty cleaned comments, and a column without any shows the
    no-comments line. *)
Definition nonempty (t : str) : bool := negb (length t =? 0).

Definition only_nonempty_comments (ctl : controls) (df : dataframe) (c : str)
  : Prop :=
  comment_block ctl df c
  = Title (nice_col (uni c))
    :: match filter nonempty (comments df c) with
       | [] => [No_comments]
       | cs => map Bullet (firstn (max_comments ctl) cs)
       end
    ++ [Divider].

Definition c9_sheet : dataframe :=
  [(txt "Feedback", [Some (Text (txt " ")); None])].

(** A comment that holds only whitespace is printed as an empty bullet,
    and the no-comments line is not shown. *)
Lemma C9_counterexample :
  ~ only_nonempty_comments default_controls c9_sheet (txt "Feedback").
Proof. unfold only_nonempty_comments. vm_compute. discriminate. Qed.

Lemma slider_value_range n :
  slider_value n = true -> 5 <= n <= 100 /\ n mod 5 = 0.
Proof.
  unfold slider_value, slider_min, slider_max, slider_step.
  rewrite !andb_true_iff, !Nat.leb_le, Nat.eqb_eq. intros [[H1 H2] H3].
  split; [lia|].
  replace n with (n - 5 + 1 * 5) by lia.
  now rewrite Nat.Div0.mod_add.
Qed.

(** C9, amended.  The comment section lists, for each comment column, the
    cleaned texts of its cells that are not missing, in row order, the
    empty text included when a cell cleans to it, and no more than the
    maximum set on the slider, which lies between 5 and 100 and is 30 when
    untouched.  A column whose cells are all missing shows the no-comments
    line.  A table without comment column shows one notice and nothing
    else. *)
Theorem C9_comment_blocks :
  (forall ctl df c s,
     getcol df c = Some s ->
     comments df c = map (fun v => clean_text (Some (str_of_value v))) (dropna s)
     /\ (dropna s = [] ->
         comment_block ctl df c
         = [Title (nice_col (uni c)); No_comments; Divider])
     /\ (dropna s <> [] ->
         comment_block ctl df c
         = Title (nice_col (uni c))
           :: map Bullet (firstn (max_comments ctl) (comments df c))
           ++ [Divider])
     /\ length (firstn (max_comments ctl) (comments df c)) <= max_comments ctl)
  /\ (forall ctl df,
        comment_cols df = [] ->
        comments_section ctl df = [Info No_comment_field])
  /\ (forall ctl df,
        comment_cols df <> [] ->
        comments_section ctl df
        = flat_map (comment_block ctl df) (comment_cols df))
  /\ (forall n, slider_value n = true -> 5 <= n <= 100 /\ n mod 5 = 0)
  /\ slider_value (max_comments default_controls) = true
  /\ max_comments default_controls = 30.
Proof.
  split; [|split; [|split; [|split; [|split]]]].
  - intros ctl df c s Hs. unfold comment_block, comments. rewrite Hs.
    unfold answers. split; [reflexivity|]. split; [|split].
    + intros ->. reflexivity.
    + intros Hne. destruct (dropna s) as [|v vs]; [contradiction | reflexivity].
    + apply firstn_le_length.
  - intros ctl df H. unfold comments_section. now rewrite H.
  - intros ctl df H. unfold comments_section.
    destruct (comment_cols df); [contradiction | reflexivity].
  - exact slider_value_range.
  - reflexivity.
  - reflexivity.
Qed.

Definition c9_full_sheet : dataframe :=
  [(txt "Nota", [Some (Int 5); Some (Int 4)]);
   (txt "Feedback", [Some (Text (txt "muito  bom")); None])].

Lemma C9_witness :
  comment_block default_controls c9_full_sheet (txt "Feedback")
  = [Title (nice_col (uni (txt "Feedback"))); Bullet (txt "muito bom"); Divider].
Proof.
  destruct (proj1 C9_comment_blocks default_controls c9_full_sheet
              (txt "Feedback") [Some (Text (txt "muito  bom")); None])
    as (_ & _ & H & _).
  - vm_compute. reflexivity.
  - rewrite H; [vm_compute; reflexivity | discriminate].
Defined.

(* ===================================================================== *)
(** * Further properties: column names *)
(* ===================================================================== *)

Lemma startswith_iff s p : startswith s p = true <-> exists suf, s = p ++ suf.
Proof.
  revert s. induction p as [|x p IH]; intros s.
  - split; [intros _; now exists s | intros _; now destruct s].
  - destruct s as [|y s]; cbn [startswith].
    + split; [discriminate | intros (suf & E); discriminate].
    + rewrite andb_true_iff, Ascii.eqb_eq, IH. split.
      * intros [-> (suf & ->)]. now exists suf.
      * intros (suf & E). inversion E; subst. split; [reflexivity | now exists suf].
Qed.

(** [needle in hay] holds exactly when [needle] is a substring. *)
Lemma contains_iff needle hay :
  contains needle hay = true <-> exists pre suf, hay = pre ++ needle ++ suf.
Proof.
  induction hay as [|c hay IH].
  - cbn [contains]. rewrite orb_false_r, startswith_iff. split.
    + intros (suf & E). now exists [], suf.
    + intros (pre & suf & E). destruct pre; [now exists suf | discriminate].
  - cbn [contains]. rewrite orb_true_iff, startswith_iff, IH. split.
    + intros [(suf & E)|(pre & suf & E)].
      * now exists [], suf.
      * exists (c :: pre), suf. simpl. now f_equal.
    + intros (pre & suf & E). destruct pre as [|d pre]; simpl in E.
      * left. now exists suf.
      * right. inversion E. now exists pre, suf.
Qed.

Lemma contains_embed needle a hay b :
  contains needle hay = true -> contains needle (a ++ hay ++ b) = true.
Proof.
  rewrite !contains_iff. intros (pre & suf & ->).
  exists (a ++ pre), (suf ++ b). now rewrite <- !app_assoc.
Qed.

Lemma lower_char_idem c : lower_char (lower_char c) = lower_char c.
Proof. destruct c as [[] [] [] [] [] [] [] []]; vm_compute; reflexivity. Qed.

Lemma lower_idem s : lower (lower s) = lower s.
Proof.
  unfold lower. rewrite map_map. apply map_ext. exact lower_char_idem.
Qed.

Lemma lower_app a b : lower (a ++ b) = lower a ++ lower b.
Proof. apply map_app. Qed.

(** [p.lower() in str(c).lower()]. *)
Definition labelled (p c : str) : bool := contains (lower p) (lower c).

Lemma first_col_Some p cols c :
  first_col p cols = Some c <->
  exists c1 c2,
    cols = c1 ++ c :: c2 /\ labelled p c = true
    /\ forall x, In x c1 -> labelled p x = false.
Proof.
  unfold labelled. induction cols as [|y cols IH]; simpl.
  - split; [discriminate|]. intros (c1 & c2 & E & _). destruct c1; discriminate.
  - destruct (contains (lower p) (lower y)) eqn:Hy.
    + split.
      * intros H. inversion H; subst. exists [], cols. repeat split; auto.
        intros x [].
      * intros (c1 & c2 & E & Hc & Hno). destruct c1 as [|z c1]; simpl in E.
        -- now inversion E.
        -- inversion E; subst. rewrite (Hno z (or_introl eq_refl)) in Hy.
           discriminate.
    + rewrite IH. split.
      * intros (c1 & c2 & -> & Hc & Hno). exists (y :: c1), c2.
        repeat split; auto. intros x [<-|Hx]; auto.
      * intros (c1 & c2 & E & Hc & Hno). destruct c1 as [|z c1]; simpl in E.
        -- inversion E; subst. congruence.
        -- inversion E; subst. exists c1, c2. repeat split; auto.
           intros x Hx. apply Hno. now right.
Qed.

Lemma first_col_None p cols :
  first_col p cols = None <-> forall x, In x cols -> labelled p x = false.
Proof.
  unfold labelled. induction cols as [|y cols IH]; simpl.
  - split; [intros _ x [] | reflexivity].
  - destruct (contains (lower p) (lower y)) eqn:Hy.
    + split; [discriminate|]. intros H.
      rewrite (H y (or_introl eq_refl)) in Hy. discriminate.
    + rewrite IH. split.
      * intros H x [<-|Hx]; auto.
      * intros H x Hx. apply H. now right.
Qed.

Lemma guess_from_Some ps cols c :
  guess_from ps cols = Some c <->
  exists ps1 p ps2,
    ps = ps1 ++ p :: ps2
    /\ (forall q, In q ps1 -> first_col q cols = None)
    /\ first_col p cols = Some c.
Proof.
  induction ps as [|p ps IH]; simpl.
  - split; [discriminate|]. intros (ps1 & q & ps2 & E & _). destruct ps1; discriminate.
  - destruct (first_col p cols) as [x|] eqn:Hp.
    + split.
      * intros H. inversion H; subst. exists [], p, ps.
        repeat split; auto. intros q [].
      * intros (ps1 & q & ps2 & E & Hno & Hq).
        destruct ps1 as [|r ps1]; simpl in E; inversion E; subst.
        -- congruence.
        -- rewrite (Hno r (or_introl eq_refl)) in Hp. discriminate.
    + rewrite IH. split.
      * intros (ps1 & q & ps2 & -> & Hno & Hq). exists (p :: ps1), q, ps2.
        repeat split; auto. intros r [<-|Hr]; auto.
      * intros (ps1 & q & ps2 & E & Hno & Hq).
        destruct ps1 as [|r ps1]; simpl in E; inversion E; subst.
        -- congruence.
        -- exists ps1, q, ps2. repeat split; auto.
           intros r' Hr'. apply Hno. now right.
Qed.

Lemma guess_from_None ps cols :
  guess_from ps cols = None <-> forall p, In p ps -> first_col p cols = None.
Proof.
  induction ps as [|p ps IH]; simpl.
  - split; [intros _ q [] | reflexivity].
  - destruct (first_col p cols) as [x|] eqn:Hp.
    + split; [discriminate|]. intros H.
      rewrite (H p (or_introl eq_refl)) in Hp. discriminate.
    + rewrite IH. split.
      * intros H q [<-|Hq]; auto.
      * intros H q Hq. apply H. now right.
Qed.

(** X1.  [guess_timestamp_col] answers with a column of the list whose
    name holds one of the preferred labels, whatever the case of either;
    it answers [None] exactly when no column holds any of the labels. *)
Theorem X1_guess_timestamp_col_finds_a_label :
  forall cols,
    (forall c,
       guess_timestamp_col cols = Some c ->
       In c cols /\ exists p, In p preferred /\ labelled p c = true)
    /\ (guess_timestamp_col cols = None
        <-> forall c p, In c cols -> In p preferred -> labelled p c = false).
Proof.
  intros cols. unfold guess_timestamp_col. split.
  - intros c H. apply guess_from_Some in H as (ps1 & p & ps2 & E & _ & Hp).
    apply first_col_Some in Hp as (c1 & c2 & -> & Hc & _). split.
    + apply in_or_app. right. now left.
    + exists p. split; [|exact Hc]. rewrite E. apply in_or_app. right. now left.
  - rewrite guess_from_None. split.
    + intros H c p Hc Hp. specialize (H p Hp).
      now apply (proj1 (first_col_None p cols) H).
    + intros H p Hp. apply first_col_None. intros c Hc. now apply H.
Qed.

Lemma X1_witness :
  In (txt "DATA E HORA da resposta") [txt "Nota"; txt "DATA E HORA da resposta"]
  /\ exists p, In p preferred /\ labelled p (txt "DATA E HORA da resposta") = true.
Proof.
  apply (proj1 (X1_guess_timestamp_col_finds_a_label
                  [txt "Nota"; txt "DATA E HORA da resposta"])).
  vm_compute. reflexivity.
Defined.

(** X2.  The order of the preferred labels wins over the order of the
    columns: when no column holds an earlier label, the answer is the
    first column that holds the label at hand, even if columns before it
    hold later labels. *)
Theorem X2_guess_timestamp_col_prefers_labels :
  forall ps1 p ps2 c1 c c2,
    preferred = ps1 ++ p :: ps2 ->
    (forall q x, In q ps1 -> In x (c1 ++ c :: c2) -> labelled q x = false) ->
    labelled p c = true ->
    (forall x, In x c1 -> labelled p x = false) ->
    guess_timestamp_col (c1 ++ c :: c2) = Some c.
Proof.
  intros ps1 p ps2 c1 c c2 E Hno Hc Hc1. unfold guess_timestamp_col.
  apply guess_from_Some. exists ps1, p, ps2. split; [exact E|]. split.
  - intros q Hq. apply first_col_None. intros x Hx. now apply Hno.
  - apply first_col_Some. now exists c1, c2.
Qed.

(** X2 on a sheet whose first column says Timestamp and whose second says
    Carimbo de data/hora: the second is chosen. *)
Lemma X2_witness :
  guess_timestamp_col [txt "Timestamp"; txt "Carimbo de data/hora"]
  = Some (txt "Carimbo de data/hora").
Proof.
  apply (X2_guess_timestamp_col_prefers_labels
           [] (txt "Carimbo de data/hora")
           [txt "Timestamp"; txt "Data/hora"; txt "Data e hora"]
           [txt "Timestamp"] (txt "Carimbo de data/hora") []).
  - reflexivity.
  - intros q x [].
  - vm_compute. reflexivity.
  - intros x [<-|[]]. vm_compute. reflexivity.
Defined.

Lemma existsb_embed (keys : list str) a c b :
  existsb (fun k => contains k (lower c)) keys = true ->
  existsb (fun k => contains k (lower (a ++ c ++ b))) keys = true.
Proof.
  rewrite !existsb_exists. intros (k & Hk & H). exists k. split; [exact Hk|].
  rewrite !lower_app. now apply contains_embed.
Qed.

(** X3.  The tests for e-mail and comment columns look for their keywords
    anywhere in the name and in any case: a name that passes still passes
    with text put before and after it, and a name passes exactly when its
    lower-case form does. *)
Theorem X3_keyword_tests_see_through_context :
  (forall a c b, is_email_col c = true -> is_email_col (a ++ c ++ b) = true)
  /\ (forall a c b, is_comment_col c = true -> is_comment_col (a ++ c ++ b) = true)
  /\ (forall c, is_email_col (lower c) = is_email_col c)
  /\ (forall c, is_comment_col (lower c) = is_comment_col c)
  /\ (forall c, is_name_col (lower c) = is_name_col c).
Proof.
  split; [|split; [|split; [|split]]].
  - intros a c b. unfold is_email_col. cbv zeta.
    rewrite !orb_true_iff, !lower_app.
    intros [H|H]; [left | right]; now apply contains_embed.
  - intros a c b. unfold is_comment_col. apply existsb_embed.
  - intros c. unfold is_email_col. now rewrite lower_idem.
  - intros c. unfold is_comment_col. now rewrite lower_idem.
  - intros c. unfold is_name_col. now rewrite lower_idem.
Qed.

Lemma X3_witness : is_email_col (txt "Seu " ++ txt "E-MAIL" ++ txt " de contato") = true.
Proof.
  apply (proj1 X3_keyword_tests_see_through_context).
  vm_compute. reflexivity.
Defined.

(* ===================================================================== *)
(** * Further properties: the working table *)
(* ===================================================================== *)

Lemma filter_none {A} (f : A -> bool) l :
  filter f l = [] -> forall x, In x l -> f x = false.
Proof.
  intros E x Hx. destruct (f x) eqn:Hf; [|reflexivity].
  assert (H : In x (filter f l)) by (apply filter_In; auto).
  rewrite E in H. contradiction.
Qed.

Lemma df_work_columns ctl df :
  hide_identifying ctl = true ->
  columns (df_work ctl df) = filter (fun c => negb (identifying c)) (columns df).
Proof.
  intros Hh. unfold df_work. rewrite Hh.
  destruct (id_cols df) as [|x ids] eqn:E.
  - symmetry. apply forallb_filter_id. apply forallb_forall. intros c Hc.
    unfold id_cols in E. now rewrite (filter_none _ _ E c Hc).
  - rewrite <- E, columns_drop. apply filter_ext_in. intros c Hc. f_equal.
    destruct (identifying c) eqn:Hi.
    + apply mem_In. apply filter_In. auto.
    + destruct (mem c (id_cols df)) eqn:Hm; [|reflexivity].
      apply mem_In in Hm. apply filter_In in Hm as [_ Hm]. congruence.
Qed.

Lemma getcol_drop df ids c :
  mem c ids = false -> getcol (drop df ids) c = getcol df c.
Proof.
  intros Hc. unfold drop. induction df as [|[name s] df IH]; [reflexivity|].
  cbn [filter fst getcol]. destruct (mem name ids) eqn:Hn; cbn [negb].
  - destruct (str_eqb name c) eqn:E; [|exact IH].
    apply str_eqb_eq in E. subst. congruence.
  - cbn [getcol]. destruct (str_eqb name c); [reflexivity | exact IH].
Qed.

Lemma df_work_getcol ctl df c :
  In c (columns (df_work ctl df)) -> getcol (df_work ctl df) c = getcol df c.
Proof.
  unfold df_work. destruct (hide_identifying ctl); [|reflexivity].
  destruct (id_cols df) as [|x ids] eqn:E; [reflexivity|].
  rewrite <- E. intros H. apply getcol_drop.
  rewrite columns_drop in H. apply filter_In in H as [_ H].
  now apply negb_true_iff in H.
Qed.

(** X4.  With anonymization on, the working table keeps exactly the
    columns that are not identifying, in their order; with it off the
    table is untouched.  Either way the cells of a kept column are those
    of the sheet, and anonymizing twice is anonymizing once. *)
Theorem X4_df_work_drops_only_identifying :
  forall ctl df,
    (hide_identifying ctl = true ->
     columns (df_work ctl df)
     = filter (fun c => negb (identifying c)) (columns df))
    /\ (hide_identifying ctl = false -> df_work ctl df = df)
    /\ (forall c, In c (columns (df_work ctl df)) ->
                  getcol (df_work ctl df) c = getcol df c)
    /\ df_work ctl (df_work ctl df) = df_work ctl df.
Proof.
  intros ctl df. split; [apply df_work_columns|]. split.
  { intros Hh. unfold df_work. now rewrite Hh. }
  split; [apply df_work_getcol|].
  destruct (hide_identifying ctl) eqn:Hh.
  - unfold df_work at 1. rewrite Hh.
    replace (id_cols (df_work ctl df)) with (@nil str); [reflexivity|].
    symmetry. unfold id_cols. rewrite (df_work_columns ctl df Hh).
    induction (columns df) as [|c cols IH]; [reflexivity|].
    cbn [filter]. destruct (identifying c) eqn:Hc; cbn [negb filter].
    + exact IH.
    + rewrite Hc. exact IH.
  - unfold df_work. now rewrite Hh.
Qed.

Lemma X4_witness :
  columns (df_work default_controls c1_sheet)
  = filter (fun c => negb (identifying c)) (columns c1_sheet).
Proof.
  apply (proj1 (X4_df_work_drops_only_identifying default_controls c1_sheet)).
  reflexivity.
Defined.

(** X5.  The name test needs the word [seu] beside [nome] unless the name
    is the bare word: a column whose name has no [seu], is not [nome] in
    any case and holds no e-mail keyword is not identifying, so it stays
    in the working table even with anonymization on. *)
Theorem X5_name_without_seu_is_kept :
  forall ctl df c,
    In c (columns df) ->
    contains (txt "seu") (lower c) = false ->
    lower c <> txt "nome" ->
    is_email_col c = false ->
    identifying c = false /\ In c (columns (df_work ctl df)).
Proof.
  intros ctl df c Hin Hseu Hnome Hmail.
  assert (Hid : identifying c = false).
  { unfold identifying, is_name_col. cbv zeta. rewrite Hmail, Hseu.
    rewrite andb_false_r, orb_false_r. simpl.
    apply str_eqb_neq. exact Hnome. }
  split; [exact Hid|].
  destruct (hide_identifying ctl) eqn:Hh.
  - rewrite (df_work_columns ctl df Hh). apply filter_In.
    split; [exact Hin | now rewrite Hid].
  - unfold df_work. now rewrite Hh.
Qed.

Definition x5_sheet : dataframe :=
  [(txt "Nome completo", [Some (Text (txt "Maria Silva"))]);
   (txt "Nota", [Some (Int 5)])].

(** X5 on a column named Nome completo. *)
Lemma X5_witness :
  identifying (txt "Nome completo") = false
  /\ In (txt "Nome completo") (columns (df_work default_controls x5_sheet)).
Proof.
  apply (X5_name_without_seu_is_kept default_controls x5_sheet (txt "Nome completo")).
  - vm_compute. now left.
  - vm_compute. reflexivity.
  - vm_compute. discriminate.
  - vm_compute. reflexivity.
Defined.

(* ===================================================================== *)
(** * Further properties: labels *)
(* ===================================================================== *)

(** X6.  A label never takes more than 60 characters and begins as the
    column name does.  A name of at most 60 characters is shown whole; a
    longer one is cut to its first 57 characters and the ellipsis, 58
    characters in all. *)
Theorem X6_nice_col_bounds :
  forall col,
    length (nice_col col) <= 60
    /\ (forall i, i < 57 -> nth_error (nice_col col) i = nth_error col i)
    /\ (length col <= 60 -> nice_col col = col)
    /\ (60 < length col ->
        nice_col col = firstn 57 col ++ [Ellipsis]
        /\ length (nice_col col) = 58).
Proof.
  intros col. unfold nice_col.
  destruct (length col <=? 60) eqn:E.
  - apply Nat.leb_le in E. split; [lia|]. split; [reflexivity|].
    split; [reflexivity | lia].
  - apply Nat.leb_gt in E.
    assert (L : length (firstn 57 col) = 57) by (rewrite length_firstn; lia).
    split; [rewrite length_app, L; simpl; lia|]. split.
    + intros i Hi. rewrite nth_error_app1 by lia. rewrite nth_error_firstn.
      apply Nat.ltb_lt in Hi. now rewrite Hi.
    + split; [lia|]. intros _. split; [reflexivity|].
      rewrite length_app, L. reflexivity.
Qed.

Lemma X6_witness :
  nice_col (uni (repeat "a"%char 61))
  = firstn 57 (uni (repeat "a"%char 61)) ++ [Ellipsis]
  /\ length (nice_col (uni (repeat "a"%char 61))) = 58.
Proof.
  apply (proj2 (proj2 (proj2 (X6_nice_col_bounds (uni (repeat "a"%char 61)))))).
  unfold uni. rewrite length_map, repeat_length. lia.
Defined.

(** X7.  Two long names that agree on their first 57 characters get the
    same label, so their rows cannot be told apart on the page.  A name of
    at most 60 characters shares its label with a long name exactly when
    it is the first 57 characters of that name followed by the ellipsis,
    as are 57 letters and the ellipsis beside 61 of the same letter; it
    shares its label with no other short name, and with no name at all if
    it does not hold the ellipsis. *)
Theorem X7_nice_col_collisions :
  (forall a b,
     60 < length a -> 60 < length b -> firstn 57 a = firstn 57 b ->
     nice_col a = nice_col b)
  /\ (forall a b,
        length a <= 60 -> 60 < length b ->
        (nice_col a = nice_col b <-> a = firstn 57 b ++ [Ellipsis]))
  /\ (forall a b,
        length a <= 60 -> length b <= 60 -> nice_col a = nice_col b -> a = b)
  /\ (forall a b,
        length a <= 60 -> ~ In Ellipsis a -> nice_col a = nice_col b -> a = b)
  /\ nice_col (uni (repeat "a"%char 57) ++ [Ellipsis])
     = nice_col (uni (repeat "a"%char 61)).
Proof.
  split.
  { intros a b Ha Hb E. unfold nice_col.
    apply Nat.leb_gt in Ha, Hb. now rewrite Ha, Hb, E. }
  split.
  { intros a b Ha Hb. unfold nice_col.
    apply Nat.leb_le in Ha. apply Nat.leb_gt in Hb. rewrite Ha, Hb.
    reflexivity. }
  split.
  { intros a b Ha Hb. unfold nice_col.
    apply Nat.leb_le in Ha, Hb. now rewrite Ha, Hb. }
  split; [|vm_compute; reflexivity].
  intros a b Ha Hn. unfold nice_col.
  apply Nat.leb_le in Ha. rewrite Ha.
  destruct (length b <=? 60); [auto|].
  intros E. elim Hn. rewrite E. apply in_or_app. right. now left.
Qed.

Lemma X7_witness :
  nice_col (uni (repeat "a"%char 60 ++ txt "1"))
  = nice_col (uni (repeat "a"%char 60 ++ txt "2")).
Proof.
  apply (proj1 X7_nice_col_collisions).
  - unfold uni. rewrite length_map, length_app, repeat_length. simpl. lia.
  - unfold uni. rewrite length_map, length_app, repeat_length. simpl. lia.
  - vm_compute. reflexivity.
Defined.

(* ===================================================================== *)
(** * Further properties: numbers *)
(* ===================================================================== *)

(** The number that a run of digits writes after [acc]. *)
Definition dec (acc : Z) (s : str) : Z :=
  fold_left (fun a c => (10 * a + digit_of c)%Z) s acc.

Lemma digits_all s : forall acc n,
  forallb is_digit s = true -> digits acc n s = (dec acc s, n + length s, []).
Proof.
  induction s as [|c s IH]; intros acc n H; simpl.
  - now rewrite Nat.add_0_r.
  - simpl in H. apply andb_true_iff in H as [Hc H]. rewrite Hc.
    rewrite IH by exact H. f_equal. f_equal. lia.
Qed.

Lemma digit_plain c :
  is_digit c = true ->
  is_blank c = false /\ Ascii.eqb c "-" = false /\ Ascii.eqb c "+" = false.
Proof. destruct c as [[] [] [] [] [] [] [] []]; vm_compute; auto; discriminate. Qed.

Definition uchars (d : Decimal.uint) : str := txt (NilEmpty.string_of_uint d).

Lemma uchars_digits d : forallb is_digit (uchars d) = true.
Proof.
  unfold uchars, txt.
  induction d; cbn [NilEmpty.string_of_uint list_ascii_of_string forallb];
    try rewrite IHd; reflexivity.
Qed.

Lemma dec_pos d : forall p,
  dec (Z.pos p) (uchars d) = Z.pos (Pos.of_uint_acc d p).
Proof.
  unfold uchars, txt, dec.
  induction d; intros p;
    cbn [NilEmpty.string_of_uint list_ascii_of_string fold_left Pos.of_uint_acc];
    try reflexivity;
    rewrite <- IHd; f_equal;
    match goal with
    | |- (_ + digit_of ?c)%Z = _ =>
        let v := eval vm_compute in (digit_of c) in
        change (digit_of c) with v
    end; lia.
Qed.

Lemma dec_zero d : dec 0 (uchars d) = Z.of_N (Pos.of_uint d).
Proof.
  induction d;
    try (change (dec 0 (uchars (Decimal.D0 d))) with (dec 0 (uchars d));
         exact IHd);
    try reflexivity;
    cbn [Pos.of_uint Z.of_N]; rewrite <- dec_pos; reflexivity.
Qed.

Lemma uchars_nonnil d : d <> Decimal.Nil -> uchars d <> [].
Proof. destruct d; [contradiction|..]; discriminate. Qed.

Lemma replace_digits s :
  forallb is_digit s = true -> replace "," "." s = s.
Proof.
  intros H. unfold replace. rewrite <- (map_id s) at 2.
  apply map_ext_in. intros c Hc. rewrite forallb_forall in H.
  specialize (H c Hc). destruct (Ascii.eqb c ",") eqn:E; [|reflexivity].
  apply Ascii.eqb_eq in E. subst. discriminate.
Qed.

Lemma digit_range c : is_digit c = true -> (0 <= digit_of c <= 9)%Z.
Proof.
  destruct c as [[] [] [] [] [] [] [] []]; intros H; try discriminate H;
    vm_compute; split; discriminate.
Qed.

Lemma dec_ge s : forall acc,
  forallb is_digit s = true -> (0 <= acc)%Z ->
  (acc * 10 ^ Z.of_nat (length s) <= dec acc s)%Z.
Proof.
  unfold dec. induction s as [|c s IH]; intros acc H Ha.
  - simpl. lia.
  - cbn [forallb] in H. apply andb_true_iff in H as [Hc H].
    pose proof (digit_range c Hc) as Hd.
    cbn [fold_left length]. rewrite Nat2Z.inj_succ, Z.pow_succ_r by lia.
    specialize (IH (10 * acc + digit_of c)%Z H ltac:(lia)).
    assert (0 < 10 ^ Z.of_nat (length s))%Z by (apply Z.pow_pos_nonneg; lia).
    nia.
Qed.

Lemma dec_above s acc :
  forallb is_digit s = true -> (0 <= acc)%Z -> (acc <= dec acc s)%Z.
Proof.
  intros H Ha. pose proof (dec_ge s acc H Ha).
  assert (0 < 10 ^ Z.of_nat (length s))%Z by (apply Z.pow_pos_nonneg; lia).
  nia.
Qed.

(** The loop over the digits accumulates the very integer as long as it
    stays below 2^53 and has no more than 17 digits. *)
Lemma int_digits_exact s : forall acc k e,
  forallb is_digit s = true -> (0 <= acc)%Z -> (dec acc s < 2 ^ 53)%Z ->
  k + length s <= max_digits ->
  int_digits (of_Z acc) k e s = (of_Z (dec acc s), k + length s, e, []).
Proof.
  induction s as [|c s IH]; intros acc k e H Ha Hv Hk.
  - cbn [int_digits dec fold_left length]. now rewrite Nat.add_0_r.
  - cbn [forallb] in H. apply andb_true_iff in H as [Hc H].
    pose proof (digit_range c Hc) as Hd.
    cbn [int_digits]. rewrite Hc.
    assert (Hlt : (k <? max_digits) = true)
      by (apply Nat.ltb_lt; simpl in Hk; lia).
    rewrite Hlt.
    change (dec acc (c :: s)) with (dec (10 * acc + digit_of c) s) in *.
    pose proof (dec_above s (10 * acc + digit_of c)%Z H ltac:(lia)) as Hge.
    assert (Hp : push (of_Z acc) c = of_Z (10 * acc + digit_of c)).
    { unfold push, ten. rewrite mul_exact by lia.
      rewrite add_exact by lia. f_equal. lia. }
    rewrite Hp, IH; [|exact H|lia|exact Hv|simpl in Hk; lia].
    f_equal. f_equal. f_equal. simpl. lia.
Qed.

Lemma is_inf_small a : (- 2 ^ 53 < a < 2 ^ 53)%Z -> is_inf (of_Z a) = false.
Proof.
  intros Ha. destruct (Z.eq_dec a 0) as [->|Na]; [reflexivity|].
  now rewrite (of_Z_small a Ha Na).
Qed.

Lemma is_nan_small a : (- 2 ^ 53 < a < 2 ^ 53)%Z -> is_nan (of_Z a) = false.
Proof.
  intros Ha. destruct (Z.eq_dec a 0) as [->|Na]; [reflexivity|].
  now rewrite (of_Z_small a Ha Na).
Qed.

(** What is read behind the sign of a run of digits. *)
Lemma digits_tail s negative :
  s <> [] -> forallb is_digit s = true ->
  (dec 0 s < 2 ^ 53)%Z -> length s <= max_digits ->
  (negative = true -> dec 0 s <> 0%Z) ->
  (let '(number, num_digits, exponent, s0) := int_digits zero 0 0 s in
   let '(number0, num_digits0, exponent0, point, s1) :=
     match s0 with
     | [] => (number, num_digits, exponent, false, s0)
     | c :: s' =>
         if Ascii.eqb c "."
         then
           let '(x, k, d, s'') := frac_digits number num_digits 0 s' in
           (x, k, (exponent - Z.of_nat d)%Z, true, s'')
         else (number, num_digits, exponent, false, s0)
     end in
   if num_digits0 =? 0 then None
   else
     let number1 := if negative then opp number0 else number0 in
     match exponent_part s1 with
     | Some (marked, n, s2) =>
         match scale number1 (exponent0 + n) with
         | Some x =>
             match skip_blanks s2 with
             | [] => Some (x, negb point && negb marked)
             | _ :: _ => None
             end
         | None => None
         end
     | None => None
     end)
  = Some (of_Z (if negative then - dec 0 s else dec 0 s), true).
Proof.
  intros Hne Hs Hv Hlen Hneg.
  pose proof (dec_above s 0%Z Hs ltac:(lia)) as H0.
  change zero with (of_Z 0).
  rewrite (int_digits_exact s 0%Z 0 0%Z Hs ltac:(lia) Hv Hlen).
  cbn [Nat.add]. destruct s as [|c s]; [contradiction|].
  cbn [length Nat.eqb exponent_part Z.add skip_blanks negb andb].
  set (v := dec 0 (c :: s)) in *.
  assert (E : (if negative then opp (of_Z v) else of_Z v)
              = of_Z (if negative then (- v)%Z else v)).
  { destruct negative; [|reflexivity]. apply opp_exact. now apply Hneg. }
  rewrite E. unfold scale. cbn [Z.ltb Z.compare Z.opp].
  change (e10 0) with (of_Z 1).
  rewrite div_one_int by (destruct negative; lia).
  rewrite is_inf_small by (destruct negative; lia).
  reflexivity.
Qed.

Lemma precise_digits s :
  s <> [] -> forallb is_digit s = true ->
  (dec 0 s < 2 ^ 53)%Z -> length s <= max_digits ->
  precise_xstrtod s = Some (of_Z (dec 0 s), true)
  /\ (dec 0 s <> 0%Z ->
      precise_xstrtod ("-"%char :: s) = Some (of_Z (- dec 0 s), true)).
Proof.
  intros Hne Hs Hv Hlen. destruct s as [|c s]; [contradiction|].
  pose proof Hs as Hs'. cbn [forallb] in Hs'.
  apply andb_true_iff in Hs' as [Hc _].
  destruct (digit_plain c Hc) as (Hb & Hm & Hp). split.
  - unfold precise_xstrtod. cbn [skip_blanks]. rewrite Hb.
    cbn [sign]. rewrite Hm, Hp.
    apply (digits_tail (c :: s) false Hne Hs Hv Hlen). discriminate.
  - intros Hnz. unfold precise_xstrtod. cbn [skip_blanks].
    change (is_blank "-") with false. cbv iota.
    cbn [sign]. rewrite Ascii.eqb_refl.
    apply (digits_tail (c :: s) true Hne Hs Hv Hlen). now intros _.
Qed.

(** The decimal writing of a positive integer begins with a digit that
    is not 0. *)
Lemma to_uint_head p :
  match Pos.to_uint p with
  | Decimal.Nil | Decimal.D0 _ => False
  | _ => True
  end.
Proof.
  pose proof (DecimalPos.Unsigned.to_of (Pos.to_uint p)) as H.
  rewrite DecimalPos.Unsigned.of_to in H. cbn [N.to_uint] in H.
  pose proof (DecimalPos.Unsigned.to_uint_nonzero p) as Hz.
  destruct (Pos.to_uint p) as [|u|u|u|u|u|u|u|u|u|u] eqn:E; try exact I.
  - discriminate H.
  - rewrite DecimalFacts.unorm_D0 in H.
    destruct u as [|u'|u'|u'|u'|u'|u'|u'|u'|u'|u'] eqn:Eu;
      [now elim Hz|..];
      (assert (Hu : u <> Decimal.Nil) by (rewrite Eu; discriminate);
       rewrite <- Eu in H;
       pose proof (DecimalFacts.nb_digits_unorm u Hu) as Hn;
       rewrite <- H in Hn; cbn [Decimal.nb_digits] in Hn; lia).
Qed.

Lemma uchars_short p :
  (Z.pos p < 2 ^ 53)%Z -> length (uchars (Pos.to_uint p)) <= 16.
Proof.
  intros Hp.
  pose proof (dec_zero (Pos.to_uint p)) as Hd.
  rewrite DecimalPos.Unsigned.of_to in Hd. cbn [Z.of_N] in Hd.
  pose proof (to_uint_head p) as Hh.
  pose proof (uchars_digits (Pos.to_uint p)) as Hs.
  assert (Hlow : forall c rest,
             uchars (Pos.to_uint p) = c :: rest -> (1 <= digit_of c)%Z ->
             length (c :: rest) <= 16).
  { intros c rest E Hc. rewrite E in Hd, Hs.
    cbn [forallb] in Hs. apply andb_true_iff in Hs as [_ Hs].
    change (dec 0 (c :: rest)) with (dec (10 * 0 + digit_of c) rest) in Hd.
    pose proof (dec_ge rest (10 * 0 + digit_of c)%Z Hs ltac:(lia)) as Hge.
    destruct (Nat.le_gt_cases (length rest) 15) as [Hl|Hl]; [simpl; lia|].
    exfalso.
    assert (10 ^ 16 <= 10 ^ Z.of_nat (length rest))%Z
      by (apply Z.pow_le_mono_r; lia).
    change (2 ^ 53)%Z with 9007199254740992%Z in Hp.
    change (10 ^ 16)%Z with 10000000000000000%Z in H.
    nia. }
  unfold uchars in *.
  destruct (Pos.to_uint p) as [|u|u|u|u|u|u|u|u|u|u]; try contradiction;
    cbn [NilEmpty.string_of_uint txt list_ascii_of_string] in *;
    (eapply Hlow; [reflexivity | vm_compute; discriminate]).
Qed.

(** An integer cell below 2^53 is read as that integer, and as the double
    that is this integer. *)
Lemma convert_int z :
  (- 2 ^ 53 < z < 2 ^ 53)%Z ->
  convert (normalise (Some (Int z))) = Integer z (of_Z z).
Proof.
  intros Hz. unfold normalise, astype_str, str_of_value, str_of_int.
  destruct z as [|p|p]; cbn [Z.to_int NilZero.string_of_int].
  - vm_compute. reflexivity.
  - pose proof (DecimalPos.Unsigned.to_uint_nonnil p) as Hnn.
    assert (E : txt (NilZero.string_of_uint (Pos.to_uint p)) = uchars (Pos.to_uint p)).
    { unfold uchars, NilZero.string_of_uint.
      destruct (Pos.to_uint p); [contradiction|..]; reflexivity. }
    rewrite E, (replace_digits _ (uchars_digits _)).
    pose proof (dec_zero (Pos.to_uint p)) as Hd.
    rewrite DecimalPos.Unsigned.of_to in Hd. cbn [Z.of_N] in Hd.
    pose proof (uchars_short p ltac:(lia)) as Hl.
    destruct (precise_digits (uchars (Pos.to_uint p))
                (uchars_nonnil _ Hnn) (uchars_digits _)
                ltac:(rewrite Hd; lia) ltac:(unfold max_digits; lia)) as [Hx _].
    unfold convert, floatify. rewrite Hx, Hd, is_nan_small by lia.
    f_equal. unfold int_of.
    pose proof (uchars_digits (Pos.to_uint p)) as Hs.
    destruct (uchars (Pos.to_uint p)) as [|c s] eqn:Eu;
      [now elim (uchars_nonnil _ Hnn)|].
    pose proof Hs as Hs'. cbn [forallb] in Hs'.
    apply andb_true_iff in Hs' as [Hc _].
    destruct (digit_plain c Hc) as (Hb & Hm & Hp).
    cbn [skip_blanks]. rewrite Hb. cbn [sign]. rewrite Hm, Hp.
    rewrite (digits_all (c :: s) 0%Z 0 Hs). exact Hd.
  - pose proof (DecimalPos.Unsigned.to_uint_nonnil p) as Hnn.
    assert (E : txt (String "-" (NilZero.string_of_uint (Pos.to_uint p)))
                = "-"%char :: uchars (Pos.to_uint p)).
    { unfold uchars, NilZero.string_of_uint.
      destruct (Pos.to_uint p); [contradiction|..]; reflexivity. }
    rewrite E. cbn [replace map]. change (Ascii.eqb "-" ",") with false. cbv iota.
    fold (replace "," "." (uchars (Pos.to_uint p))).
    rewrite (replace_digits _ (uchars_digits _)).
    pose proof (dec_zero (Pos.to_uint p)) as Hd.
    rewrite DecimalPos.Unsigned.of_to in Hd. cbn [Z.of_N] in Hd.
    pose proof (uchars_short p ltac:(lia)) as Hl.
    destruct (precise_digits (uchars (Pos.to_uint p))
                (uchars_nonnil _ Hnn) (uchars_digits _)
                ltac:(rewrite Hd; lia) ltac:(unfold max_digits; lia)) as [_ Hx].
    unfold convert, floatify. rewrite Hx by (rewrite Hd; discriminate).
    rewrite Hd. change (- Z.pos p)%Z with (Z.neg p).
    rewrite is_nan_small by lia.
    f_equal. unfold int_of. cbn [skip_blanks].
    change (is_blank "-") with false. cbv iota.
    cbn [sign]. rewrite Ascii.eqb_refl.
    rewrite (digits_all _ 0%Z 0 (uchars_digits _)). now rewrite Hd.
Qed.

(** Small integers are different doubles. *)
Lemma of_Z_inj a b :
  (- 2 ^ 53 < a < 2 ^ 53)%Z -> (- 2 ^ 53 < b < 2 ^ 53)%Z ->
  of_Z a = of_Z b -> a = b.
Proof.
  intros Ha Hb E.
  destruct (Z.eq_dec a 0) as [->|Na], (Z.eq_dec b 0) as [->|Nb];
    try reflexivity.
  - rewrite (of_Z_small b Hb Nb) in E. discriminate.
  - rewrite (of_Z_small a Ha Na) in E. discriminate.
  - rewrite (of_Z_small a Ha Na), (of_Z_small b Hb Nb) in E.
    inversion E as [[Es Em Ee]].
    assert (Ra : (0 < Z.abs a < 2 ^ 53)%Z) by lia.
    assert (Rb : (0 < Z.abs b < 2 ^ 53)%Z) by lia.
    pose proof (mant_pos _ Ra) as Ma. pose proof (mant_pos _ Rb) as Mb.
    rewrite Em in Ma. rewrite Ma in Mb. unfold expo in Ee.
    replace (Z.log2 (Z.abs a)) with (Z.log2 (Z.abs b)) in Mb by lia.
    pose proof (log2_small _ Rb) as Lb.
    assert (0 < 2 ^ (52 - Z.log2 (Z.abs b)))%Z by (apply Z.pow_pos_nonneg; lia).
    assert (Z.abs a = Z.abs b) by nia.
    destruct (a <? 0)%Z eqn:A, (b <? 0)%Z eqn:B; try discriminate; lia.
Qed.

(** X8.  A cell that holds an integer below 2^53 survives the detour
    through its text, whatever else the column holds: it is read back as
    that integer where the column stays an integer array, and as the
    double that is this integer where the column becomes a [float64]
    array; different integers remain different.  A column of such cells is
    read back as it is.  Above 2^53 the doubles round: 9007199254740993
    beside a text that is no number is read as 9007199254740992. *)
Theorem X8_to_numeric_reads_integers_back :
  (forall s i z,
     (- 2 ^ 53 < z < 2 ^ 53)%Z ->
     nth_error s i = Some (Some (Int z)) ->
     nth_error (to_numeric_series s) i = Some (Some (Whole z))
     \/ nth_error (to_numeric_series s) i = Some (Some (Real (of_Z z))))
  /\ (forall a b,
        (- 2 ^ 53 < a < 2 ^ 53)%Z -> (- 2 ^ 53 < b < 2 ^ 53)%Z ->
        of_Z a = of_Z b -> a = b)
  /\ (forall zs,
        (forall z, In z zs -> (- 2 ^ 53 < z < 2 ^ 53)%Z) ->
        to_numeric_series (map (fun z => Some (Int z)) zs)
        = map (fun z => Some (Whole z)) zs)
  /\ to_numeric_series
       [Some (Int 9007199254740993); Some (Text (txt "x"))]
     = [Some (Real (of_Z 9007199254740992)); None].
Proof.
  split.
  { intros s i z Hz H. unfold to_numeric_series.
    destruct (to_numeric_nth (map normalise s) i (normalise (Some (Int z))))
      as (v & Hv & _ & Hk); [now apply map_nth_error|].
    rewrite (convert_int z Hz) in Hk. cbn [as_whole as_real] in Hk.
    rewrite Hv. destruct Hk as [->| ->]; [now left | now right]. }
  split; [exact of_Z_inj|]. split; [|vm_compute; reflexivity].
  intros zs Hzs. unfold to_numeric_series, to_numeric. rewrite !map_map.
  assert (E : map (fun z => convert (normalise (Some (Int z)))) zs
              = map (fun z => Integer z (of_Z z)) zs).
  { apply map_ext_in. intros z Hz. now apply convert_int, Hzs. }
  rewrite E.
  assert (W : integers_within int64_min int64_max
                (map (fun z => Integer z (of_Z z)) zs) = true).
  { unfold integers_within. apply forallb_forall. intros r Hr.
    apply in_map_iff in Hr as (z & <- & Hz). specialize (Hzs z Hz).
    apply andb_true_iff. unfold int64_min, int64_max.
    split; apply Z.leb_le; lia. }
  rewrite W. cbn [orb]. apply map_ext_in. intros z Hz.
  now rewrite (convert_int z (Hzs z Hz)).
Qed.

Lemma X8_witness :
  nth_error (to_numeric_series [Some (Text (txt "x")); Some (Int 7)]) 1
  = Some (Some (Whole 7))
  \/ nth_error (to_numeric_series [Some (Text (txt "x")); Some (Int 7)]) 1
     = Some (Some (Real (of_Z 7))).
Proof.
  apply (proj1 X8_to_numeric_reads_integers_back
           [Some (Text (txt "x")); Some (Int 7)] 1 7%Z).
  - vm_compute. split; reflexivity.
  - reflexivity.
Defined.

Lemma replace_idem old new s :
  old <> new -> replace old new (replace old new s) = replace old new s.
Proof.
  intros Hne. unfold replace. rewrite map_map. apply map_ext. intros c.
  destruct (Ascii.eqb c old) eqn:E; [|now rewrite E].
  destruct (Ascii.eqb new old) eqn:E'; [|reflexivity].
  apply Ascii.eqb_eq in E'. congruence.
Qed.

(** X9.  A decimal comma and a decimal point are read alike: a column of
    texts coerces to what the column of the same texts with their commas
    written as points coerces to. *)
Theorem X9_comma_and_point_read_alike :
  forall ts,
    to_numeric_series (map (fun t => Some (Text t)) ts)
    = to_numeric_series (map (fun t => Some (Text (replace "," "." t))) ts).
Proof.
  intros ts. unfold to_numeric_series. rewrite !map_map. f_equal.
  apply map_ext. intros t. unfold normalise, astype_str, str_of_value.
  now rewrite replace_idem by discriminate.
Qed.

Lemma unique_from_length {A} (eqb : A -> A -> bool) xs : forall seen,
  length (unique_from eqb seen xs) <= length xs.
Proof.
  induction xs as [|x xs IH]; intros seen; simpl; [lia|].
  destruct (existsb (eqb x) seen); simpl.
  - specialize (IH seen). lia.
  - specialize (IH (x :: seen)). lia.
Qed.

Lemma dropna_length {A} (s : series A) : length (dropna s) <= length s.
Proof. induction s as [|[x|] s IH]; simpl; lia. Qed.

Lemma nrows_length df c s :
  rectangular df -> In (c, s) df -> length s = nrows df.
Proof.
  intros Hrect Hin. destruct df as [|[c0 s0] df]; [contradiction|].
  simpl. apply (Hrect c s c0 s0); simpl; auto.
Qed.

(** X10.  In a sheet of at most 20 rows the second half of the numeric
    test cannot fail: every column of the working table at least half of
    whose cells are numbers is listed as an indicator, whatever the
    numbers are.  A column none of whose cells is a number never is. *)
Theorem X10_short_sheets_pass_the_distinct_test :
  forall ctl df c s,
    rectangular df -> empty df = false ->
    getcol (df_work ctl df) c = Some s ->
    (nrows df <= 20 -> length s <= 2 * length (parsed s) ->
     In c (numeric_cols (df_work ctl df)))
    /\ (parsed s = [] -> ~ In c (numeric_cols (df_work ctl df))).
Proof.
  intros ctl df c s Hrect Hne Hs. split.
  - intros Hrows Hhalf. apply (numeric_cols_test ctl df c s Hrect Hne Hs).
    split; [exact Hhalf|]. apply unique_at_most.
    pose proof (unique_from_length number_eqb (parsed s) []) as H1.
    assert (H2 : length (parsed s) <= length s).
    { unfold parsed. rewrite <- (to_numeric_series_length s).
      apply dropna_length. }
    assert (H3 : length s = nrows df).
    { apply (nrows_length df c s Hrect). now apply getcol_pair, df_work_sub in Hs. }
    unfold unique. lia.
  - intros Hnone Hin. apply numeric_cols_In in Hin as [_ Hin].
    unfold numeric_col in Hin. rewrite Hs in Hin.
    apply indicator_present in Hin. now apply Hin.
Qed.

Definition x10_sheet : dataframe :=
  [(txt "Matricula", [Some (Int 20231001); Some (Int 20231002); Some (Int 20231003)])].

(** X10 on a column of enrolment numbers. *)
Lemma X10_witness : In (txt "Matricula") (numeric_cols (df_work default_controls x10_sheet)).
Proof.
  apply (proj1 (X10_short_sheets_pass_the_distinct_test
                  default_controls x10_sheet (txt "Matricula")
                  [Some (Int 20231001); Some (Int 20231002); Some (Int 20231003)]
                  ltac:(intros c1 s1 c2 s2 [H1|[]] [H2|[]]; congruence)
                  eq_refl eq_refl)).
  - simpl. lia.
  - vm_compute. lia.
Defined.

Lemma dropna_perm {A} (s t : series A) :
  Permutation s t -> Permutation (dropna s) (dropna t).
Proof. intros H. unfold dropna. now apply Permutation_flat_map. Qed.

Lemma forallb_perm {A} (p : A -> bool) l l' :
  Permutation l l' -> forallb p l = forallb p l'.
Proof.
  induction 1 as [|x l l' _ IH|x y l|l l' l'' _ IH1 _ IH2]; simpl.
  - reflexivity.
  - now rewrite IH.
  - destruct (p x), (p y); reflexivity.
  - congruence.
Qed.

Lemma to_numeric_perm texts texts' :
  Permutation texts texts' ->
  Permutation (to_numeric texts) (to_numeric texts').
Proof.
  intros H. unfold to_numeric.
  assert (Hc : Permutation (map convert texts) (map convert texts'))
    by now apply Permutation_map.
  unfold integers_within.
  rewrite !(forallb_perm _ _ _ Hc).
  destruct (_ || _); now apply Permutation_map.
Qed.

Lemma unique_length_perm xs ys :
  Permutation xs ys ->
  length (unique number_eqb xs) = length (unique number_eqb ys).
Proof.
  assert (Hle : forall a b, Permutation a b ->
                 length (unique number_eqb a) <= length (unique number_eqb b)).
  { intros a b Hab. apply unique_at_most.
    assert (Hb : at_most_distinct b (length (unique number_eqb b)))
      by now apply unique_at_most.
    destruct Hb as (reps & Hlen & Hcov). exists reps. split; [exact Hlen|].
    intros x Hx. apply Hcov. now apply (Permutation_in _ Hab). }
  intros H. apply Nat.le_antisymm; apply Hle; [exact H | now symmetry].
Qed.

Lemma indicator_perm (s t : series number) :
  Permutation s t -> indicator s = indicator t.
Proof.
  intros H. unfold indicator.
  pose proof (Permutation_length H) as Hlen.
  pose proof (Permutation_length (dropna_perm _ _ H)) as Hk.
  rewrite (unique_length_perm _ _ (dropna_perm _ _ H)). f_equal.
  unfold mean_bool.
  destruct s as [|a s], t as [|b t]; try discriminate; [reflexivity|].
  cbn [notna map]. fold (notna s). fold (notna t).
  set (ns := (match a with Some _ => true | None => false end) :: notna s).
  set (nt := (match b with Some _ => true | None => false end) :: notna t).
  change ns with (notna (a :: s)). change nt with (notna (b :: t)).
  now rewrite !count_true_notna, !length_notna, Hlen, Hk.
Qed.

(** X11.  The order of the rows does not matter to the numeric test: a
    column whose cells are shuffled coerces to the same numbers, shuffled
    alike, and passes or fails the test as before.  It does matter to the
    mean, which is a sum of doubles: the cells 0.1, 0.2, 0.3 have a mean
    above 0.2 and the cells 0.3, 0.2, 0.1 a mean below it. *)
Theorem X11_row_order_and_the_test :
  (forall s t : series value,
     Permutation s t ->
     Permutation (to_numeric_series s) (to_numeric_series t)
     /\ indicator (to_numeric_series s) = indicator (to_numeric_series t))
  /\ (exists x y,
        mean (to_numeric_series
                [Some (Text (txt "0.1")); Some (Text (txt "0.2"));
                 Some (Text (txt "0.3"))]) = Some x
        /\ mean (to_numeric_series
                   [Some (Text (txt "0.3")); Some (Text (txt "0.2"));
                    Some (Text (txt "0.1"))]) = Some y
        /\ ltb y (ratio 2 10) = true /\ ltb (ratio 2 10) x = true).
Proof.
  split.
  - intros s t H.
    assert (Hn : Permutation (to_numeric_series s) (to_numeric_series t)).
    { unfold to_numeric_series. apply to_numeric_perm.
      now apply Permutation_map. }
    split; [exact Hn | now apply indicator_perm].
  - eexists. eexists. split; [vm_compute; reflexivity|].
    split; [vm_compute; reflexivity|]. split; vm_compute; reflexivity.
Qed.

Lemma X11_witness :
  indicator (to_numeric_series [Some (Int 1); None; Some (Int 2)])
  = indicator (to_numeric_series [None; Some (Int 2); Some (Int 1)]).
Proof.
  apply (proj1 X11_row_order_and_the_test
           [Some (Int 1); None; Some (Int 2)] [None; Some (Int 2); Some (Int 1)]).
  apply perm_trans with [None; Some (Int 1); Some (Int 2)].
  - apply perm_swap.
  - apply perm_skip. apply perm_swap.
Defined.

(** X12.  A mean of integers is exact up to the last division: when the
    present numbers of a column are integers whose absolute values add up
    to less than 2^53, the mean is the double nearest to the quotient of
    their sum by their number, whatever the order of the rows and wherever
    the missing cells stand.  Without that, a mean can leave the range of
    its values: three cells 0.1 have a mean above 0.1. *)
Theorem X12_mean_of_integers :
  (forall (s t : series number) zs,
     map as_float (dropna s) = map of_Z zs -> zs <> [] ->
     (weight zs < 2 ^ 53)%Z -> (Z.of_nat (length zs) < 2 ^ 53)%Z ->
     Permutation (dropna s) (dropna t) ->
     mean s = Some (ratio (total zs) (Z.of_nat (length zs)))
     /\ mean t = mean s)
  /\ (exists x, mean (to_numeric_series
                        [Some (Text (txt "0,1")); Some (Text (txt "0,1"));
                         Some (Text (txt "0,1"))]) = Some x
                /\ ltb (ratio 1 10) x = true).
Proof.
  split.
  - intros s t zs E Hne W N Hp.
    pose proof (mean_of_integers s zs E Hne W N) as Hs.
    split; [exact Hs|]. rewrite Hs.
    assert (Hq : Permutation (map as_float (dropna t)) (map of_Z zs)).
    { rewrite <- E. apply Permutation_map. now symmetry. }
    apply Permutation_map_inv in Hq as (zs' & E' & Hz).
    rewrite (total_perm _ _ Hz), (Permutation_length Hz).
    apply mean_of_integers.
    + exact E'.
    + intros ->. apply Permutation_sym, Permutation_nil in Hz. contradiction.
    + now rewrite <- (weight_perm _ _ Hz).
    + now rewrite <- (Permutation_length Hz).
  - eexists. split; vm_compute; reflexivity.
Qed.

Lemma X12_witness :
  mean [Some (Whole 5); None; Some (Whole 4)] = Some (ratio 9 2)
  /\ mean [Some (Whole 4); Some (Whole 5)] = mean [Some (Whole 5); None; Some (Whole 4)].
Proof.
  apply (proj1 X12_mean_of_integers
           [Some (Whole 5); None; Some (Whole 4)] [Some (Whole 4); Some (Whole 5)]
           [5; 4]%Z).
  - reflexivity.
  - discriminate.
  - vm_compute. reflexivity.
  - vm_compute. reflexivity.
  - apply perm_swap.
Defined.

(** ** Infinities *)

Lemma numeric_char_lower c :
  numeric_char c = true -> numeric_char (lower_char c) = true.
Proof.
  destruct c as [[] [] [] [] [] [] [] []]; vm_compute; intros H;
    (discriminate H || reflexivity).
Qed.

(** A spelling of an infinity is read as a number. *)
Lemma infinity_reads t : infinity_spelling t = true -> reads t = true.
Proof.
  intros Hi. unfold infinity_spelling in Hi.
  apply existsb_exists in Hi as ([k x] & Hin & Hk). cbn [fst] in Hk.
  pose proof Hk as Hk'. apply str_eqb_eq in Hk.
  assert (Hp : precise_xstrtod t = None).
  { destruct (precise_xstrtod t) as [r|] eqn:E; [exfalso|reflexivity].
    apply precise_xstrtod_chars in E.
    assert (H : forallb numeric_char (lower t) = true).
    { rewrite forallb_forall in *. intros c Hc. unfold lower in Hc.
      apply in_map_iff in Hc as (c0 & <- & Hc0).
      now apply numeric_char_lower, E. }
    rewrite Hk in H. simpl in Hin.
    repeat (destruct Hin as [Hin|Hin];
            [injection Hin as <- <-; vm_compute in H; discriminate H|]).
    exact Hin. }
  unfold reads, convert, floatify. rewrite Hp.
  destruct (find (fun p => str_eqb (lower t) (fst p)) infinities)
    as [[k' x']|] eqn:F.
  - apply find_some in F as [F _]. simpl in F.
    repeat (destruct F as [F|F]; [injection F as <- <-; reflexivity|]).
    contradiction.
  - pose proof (find_none _ _ F (k, x) Hin) as Hn. cbn [fst] in Hn.
    congruence.
Qed.

Definition inf_sheet : dataframe :=
  [(txt "Nota", [Some (Text (txt "inf")); Some (Text (txt "x"))])].

Definition inf_both_sheet : dataframe :=
  [(txt "Nota", [Some (Text (txt "inf")); Some (Text (txt "-Infinity"))])].

(** X21.  The coercion reads the spellings of the infinities ([inf],
    [infinity], with a sign or without, in any case) as numbers.  A column
    of [inf] and a text that is no number is a numeric indicator whose mean
    is infinite; a column of [inf] and [-Infinity] is a numeric indicator
    whose mean is no number, so that the table of means has a row without
    a mean. *)
Theorem X21_infinities_are_numbers :
  (forall t, infinity_spelling t = true -> reads t = true)
  /\ to_numeric_series [Some (Text (txt "inf")); Some (Text (txt "x"))]
     = [Some (Real (inf false)); None]
  /\ In (txt "Nota") (numeric_cols (df_work default_controls inf_sheet))
  /\ col_mean (df_work default_controls inf_sheet) (txt "Nota")
     = Some (inf false)
  /\ In (txt "Nota") (numeric_cols (df_work default_controls inf_both_sheet))
  /\ mean_rows (df_work default_controls inf_both_sheet)
     = [(uni (txt "Nota"), None)].
Proof.
  split; [exact infinity_reads|].
  split; [vm_compute; reflexivity|].
  split; [vm_compute; now left|].
  split; [vm_compute; reflexivity|].
  split; [vm_compute; now left | vm_compute; reflexivity].
Qed.

Lemma X21_witness : reads (txt "-Infinity") = true.
Proof.
  apply (proj1 X21_infinities_are_numbers (txt "-Infinity")).
  vm_compute. reflexivity.
Defined.

(* ===================================================================== *)
(** * Further properties: the roles of the columns *)
(* ===================================================================== *)

(** X13.  Every column of the sheet is accounted for: it is a numeric
    indicator, a textual question, a comment field, the timestamp, or an
    identifying column hidden by the toggle.  A textual question is none
    of the others. *)
Theorem X13_every_column_has_a_role :
  forall ctl df c,
    In c (columns df) ->
    (In c (numeric_cols (df_work ctl df))
     \/ In c (textual_cols ctl df)
     \/ In c (comment_cols df)
     \/ ts_col df = Some c
     \/ (hide_identifying ctl = true /\ identifying c = true))
    /\ (In c (textual_cols ctl df) ->
        ~ In c (numeric_cols (df_work ctl df))
        /\ ~ In c (comment_cols df)
        /\ ts_col df <> Some c
        /\ ~ (hide_identifying ctl = true /\ identifying c = true)).
Proof.
  intros ctl df c Hc. split.
  - destruct (mem c (numeric_cols (df_work ctl df))) eqn:Hn.
    { left. now apply mem_In. }
    destruct (is_comment_col c) eqn:Hcm.
    { right. right. left. apply filter_In. auto. }
    destruct (is_ts (ts_col df) c) eqn:Hts.
    { right. right. right. left. unfold is_ts in Hts.
      destruct (ts_col df) as [t|]; [|discriminate].
      apply str_eqb_eq in Hts. now subst. }
    destruct (hide_identifying ctl && identifying c) eqn:Hh.
    { right. right. right. right. now apply andb_true_iff in Hh. }
    right. left. unfold textual_cols. apply filter_In. split; [exact Hc|].
    now rewrite Hn, Hts, Hcm, Hh.
  - intros H. apply textual_cols_In in H as (_ & Hn & Hts & Hcm & Hid).
    repeat split; auto.
    + intros H. apply filter_In in H as [_ H]. congruence.
    + intros [Hh Hi]. rewrite (Hid Hh) in Hi. discriminate.
Qed.

Lemma X13_witness :
  In (txt "Curso") (numeric_cols (df_work default_controls c5_sheet))
  \/ In (txt "Curso") (textual_cols default_controls c5_sheet)
  \/ In (txt "Curso") (comment_cols c5_sheet)
  \/ ts_col c5_sheet = Some (txt "Curso")
  \/ (hide_identifying default_controls = true /\ identifying (txt "Curso") = true).
Proof.
  apply (proj1 (X13_every_column_has_a_role default_controls c5_sheet (txt "Curso")
                  ltac:(vm_compute; auto))).
Defined.

(* ===================================================================== *)
(** * Further properties: frequencies *)
(* ===================================================================== *)

Lemma count_cons_other k x xs :
  str_eqb k x = false -> count str_eqb k (x :: xs) = count str_eqb k xs.
Proof. intros H. unfold count. simpl. now rewrite H. Qed.

Lemma sum_counts_other x xs l :
  (forall k, In k l -> str_eqb k x = false) ->
  list_sum (map (fun k => count str_eqb k (x :: xs)) l)
  = list_sum (map (fun k => count str_eqb k xs) l).
Proof.
  intros H. f_equal. apply map_ext_in. intros k Hk.
  apply count_cons_other. now apply H.
Qed.

Lemma sum_split (f : str -> nat) x l :
  NoDup l ->
  list_sum (map f l)
  = (if mem x l then f x else 0)
    + list_sum (map f (filter (fun y => negb (str_eqb y x)) l)).
Proof.
  induction 1 as [|y l Hy Hnd IH]; [reflexivity|].
  change (list_sum (map f (y :: l))) with (f y + list_sum (map f l)).
  change (mem x (y :: l)) with (str_eqb x y || mem x l).
  cbn [filter]. rewrite IH, (str_eqb_sym x y).
  destruct (str_eqb y x) eqn:E; cbn [negb orb].
  - apply str_eqb_eq in E. subst y.
    assert (Hm : mem x l = false).
    { destruct (mem x l) eqn:Hm; [|reflexivity]. apply mem_In in Hm. contradiction. }
    rewrite Hm. lia.
  - change (list_sum (map f (y :: ?t))) with (f y + list_sum (map f t)). lia.
Qed.

Lemma count_absent x xs : ~ In x xs -> count str_eqb x xs = 0.
Proof.
  intros H. rewrite count_occurrences. unfold occurrences.
  now apply count_occ_not_In.
Qed.

(** The counts of the distinct values add up to the number of values. *)
Lemma count_rows_total xs :
  list_sum (map snd (count_rows xs)) = length xs.
Proof.
  unfold count_rows. rewrite map_map. cbn [snd].
  induction xs as [|x xs IH]; [reflexivity|].
  rewrite (unique_cons str_eqb str_eqb_trans). cbn [length].
  change (list_sum (map ?f (x :: ?t))) with (f x + list_sum (map f t)).
  cbv beta. rewrite sum_counts_other.
  2:{ intros k Hk. apply filter_In in Hk as [_ Hk]. now apply negb_true_iff in Hk. }
  unfold count at 1. cbn [filter]. rewrite str_eqb_refl. cbn [length].
  fold (count str_eqb x xs).
  rewrite (sum_split (fun k => count str_eqb k xs) x _ (unique_NoDup xs)) in IH.
  destruct (mem x (unique str_eqb xs)) eqn:Hm.
  - lia.
  - assert (Hx : ~ In x xs).
    { intros Hx. apply unique_In in Hx. apply mem_In in Hx. congruence. }
    rewrite (count_absent x xs Hx). lia.
Qed.

Lemma list_sum_perm l l' : Permutation l l' -> list_sum l = list_sum l'.
Proof.
  induction 1; simpl; lia.
Qed.

(** X14.  The counts of the frequency table add up to the number of cells
    of the column that are not missing, and every row counts at least one
    cell: each answer is counted once, in exactly one row. *)
Theorem X14_frequency_counts_add_up :
  forall df q s,
    getcol df q = Some s ->
    list_sum (map snd (freq df q)) = length (dropna s)
    /\ forall k n, In (k, n) (freq df q) -> 1 <= n.
Proof.
  intros df q s Hs. unfold freq. rewrite Hs. split.
  - rewrite (list_sum_perm _ _ (Permutation_map snd (value_counts_perm (answers s)))).
    rewrite count_rows_total. unfold answers. apply length_map.
  - intros k n H. apply value_counts_In in H as [Hk ->].
    unfold occurrences. apply count_occ_In. exact Hk.
Qed.

Lemma X14_witness :
  list_sum (map snd (freq c3_blank_sheet (txt "Curso"))) = 2.
Proof.
  apply (proj1 (X14_frequency_counts_add_up c3_blank_sheet (txt "Curso")
                  [Some (Text (txt " ")); Some (Text (txt "Fisica"))] eq_refl)).
Defined.

Lemma sorted_split {A} (R : A -> A -> Prop) l1 l2 :
  StronglySorted R (l1 ++ l2) ->
  forall a b, In a l1 -> In b l2 -> R a b.
Proof.
  induction l1 as [|x l1 IH]; intros H a b Ha Hb; [contradiction|].
  simpl in H. apply StronglySorted_inv in H as [Hs Hx].
  destruct Ha as [<-|Ha].
  - rewrite Forall_forall in Hx. apply Hx. apply in_or_app. now right.
  - now apply IH.
Qed.

(** X15.  The chart of frequencies shows the head of the table: at most
    15 rows, and no row left out of the chart counts more cells than a row
    on it. *)
Theorem X15_chart_shows_the_most_frequent :
  forall df q,
    length (firstn 15 (freq df q)) <= 15
    /\ freq df q = firstn 15 (freq df q) ++ skipn 15 (freq df q)
    /\ forall a b,
         In a (firstn 15 (freq df q)) -> In b (skipn 15 (freq df q)) ->
         snd b <= snd a.
Proof.
  intros df q. split; [rewrite length_firstn; lia|].
  split; [now rewrite firstn_skipn|].
  apply sorted_split. rewrite firstn_skipn. unfold freq.
  destruct (getcol df q) as [s|]; [apply value_counts_sorted | constructor].
Qed.

Definition x15_sheet : dataframe :=
  [(txt "Idade",
    map (fun z => Some (Int z))
      [18; 18; 19; 20; 21; 22; 23; 24; 25; 26; 27; 28; 29; 30; 31; 32; 33]%Z)].

(** X15 on a column of 17 answers with 16 distinct values: the last value
    is left out of the chart and counts no more than the first. *)
Lemma X15_witness : snd (txt "33", 1) <= snd (txt "18", 2).
Proof.
  apply (proj2 (proj2 (X15_chart_shows_the_most_frequent x15_sheet (txt "Idade")))).
  - vm_compute. now left.
  - vm_compute. now left.
Defined.

(* ===================================================================== *)
(** * Further properties: cleaned texts *)
(* ===================================================================== *)

(** No substring of [t] has the shape of an e-mail. *)
Definition no_email (t : str) : Prop :=
  forall pre w suf, t = pre ++ w ++ suf -> ~ email_shaped w.

(** Every whitespace character of [t] is one space between two characters
    that are not whitespace. *)
Definition tidy (t : str) : Prop :=
  forall pre c suf,
    t = pre ++ c :: suf -> isspace c = true ->
    c = " "%char
    /\ (exists p x, pre = p ++ [x] /\ isspace x = false)
    /\ (exists y q, suf = y :: q /\ isspace y = false).

Lemma no_email_found t : no_email t <-> ~ found EMAIL_RE t.
Proof.
  split.
  - intros H (pre & w & suf & E & Hw). apply (H pre w suf E).
    now apply email_shaped_lang.
  - intros H pre w suf E Hw. apply H. exists pre, w, suf.
    split; [exact E | now apply email_shaped_lang].
Qed.

Lemma clean_text_is_tidy s : tidy (clean_text s).
Proof.
  intros pre c suf E Hc.
  pose proof (CleanFacts.clean_text_collapsed s) as Hcol. rewrite E in Hcol.
  destruct (collapsed_space _ _ _ Hcol Hc) as (-> & Hsuf & Hpre).
  assert (Hhead : CleanFacts.head_space (clean_text s) = false).
  { destruct s as [s|]; [apply CleanFacts.strip_head | reflexivity]. }
  assert (Htail : CleanFacts.head_space (rev (clean_text s)) = false).
  { destruct s as [s|]; [apply strip_tail | reflexivity]. }
  rewrite E in Hhead, Htail. split; [reflexivity|]. split.
  - destruct pre as [|a pre]; [simpl in Hhead; congruence|].
    destruct (@exists_last _ (a :: pre)) as (p & x & Ep); [discriminate|].
    exists p, x. split; [exact Ep | now apply (Hpre p x)].
  - destruct suf as [|y q].
    + rewrite rev_app_distr in Htail. simpl in Htail. congruence.
    + exists y, q. split; [reflexivity | exact Hsuf].
Qed.

Lemma tidy_collapsed t : tidy t -> CleanFacts.collapsed t = true.
Proof.
  intros H.
  assert (P : forall pre c suf, t = pre ++ c :: suf -> isspace c = true ->
              c = " "%char /\ CleanFacts.head_space suf = false).
  { intros pre c suf E Hc. destruct (H pre c suf E Hc) as (-> & _ & y & q & -> & Hy).
    split; [reflexivity | exact Hy]. }
  clear H. induction t as [|c t IH]; [reflexivity|].
  simpl. rewrite IH.
  - rewrite andb_true_r. destruct (isspace c) eqn:Hc; [|reflexivity].
    destruct (P [] c t eq_refl Hc) as [-> Hs]. now rewrite Hs.
  - intros pre d suf E Hd. apply (P (c :: pre) d suf); [|exact Hd].
    simpl. now f_equal.
Qed.

Lemma tidy_ends t :
  tidy t ->
  CleanFacts.head_space t = false /\ CleanFacts.head_space (rev t) = false.
Proof.
  intros H. split.
  - destruct t as [|c t]; [reflexivity|]. simpl.
    destruct (isspace c) eqn:Hc; [|reflexivity].
    destruct (H [] c t eq_refl Hc) as (_ & (p & x & E & _) & _).
    destruct p; discriminate.
  - destruct (rev t) as [|c r] eqn:E; [reflexivity|]. simpl.
    destruct (isspace c) eqn:Hc; [|reflexivity].
    assert (Et : t = rev r ++ [c]).
    { rewrite <- (rev_involutive t), E. reflexivity. }
    destruct (H (rev r) c [] Et Hc) as (_ & _ & y & q & Eq & _). discriminate.
Qed.

Lemma strip_id t :
  CleanFacts.head_space t = false -> CleanFacts.head_space (rev t) = false ->
  strip t = t.
Proof.
  intros H1 H2. unfold strip, rstrip.
  rewrite (CleanFacts.lstrip_id _ H1), (CleanFacts.lstrip_id _ H2).
  apply rev_involutive.
Qed.

(** X16.  The texts that [clean_text] leaves as they are are exactly the
    texts that hold no e-mail and whose whitespace is single spaces
    between words.  A text without an at sign is never redacted: it is
    only collapsed and trimmed. *)
Theorem X16_clean_text_fixed_points :
  (forall s, clean_text (Some s) = s <-> no_email s /\ tidy s)
  /\ (forall s,
        ~ In "@"%char s ->
        clean_text (Some s) = strip (sub WHITESPACE_RE (txt " ") s)).
Proof.
  split.
  - intros s. split.
    + intros E. split.
      * apply no_email_found. rewrite <- E. apply CleanFacts.clean_text_no_email.
      * rewrite <- E. apply clean_text_is_tidy.
    + intros [Hno Ht]. rewrite CleanFacts.clean_text_Some.
      unfold CleanFacts.redact.
      rewrite (sub_id _ _ _ CleanFacts.EMAIL_RE_atoms (proj1 (no_email_found s) Hno)).
      rewrite (CleanFacts.squeeze_id _ (tidy_collapsed s Ht)).
      destruct (tidy_ends s Ht) as [H1 H2]. now apply strip_id.
  - intros s Hat. rewrite CleanFacts.clean_text_Some. unfold CleanFacts.redact.
    rewrite sub_id; [reflexivity | apply CleanFacts.EMAIL_RE_atoms |].
    intros (pre & w & suf & -> & Hw). apply Hat.
    apply in_or_app. right. apply in_or_app. left.
    now apply CleanFacts.lang_email_at.
Qed.

Lemma X16_witness :
  clean_text (Some (txt "  aula   muito boa ")) 
  = strip (sub WHITESPACE_RE (txt " ") (txt "  aula   muito boa ")).
Proof.
  apply (proj2 X16_clean_text_fixed_points).
  vm_compute. intros H.
  repeat (destruct H as [H|H]; [discriminate|]). exact H.
Defined.

Lemma greedy_stop p k u c v r :
  forallb p u = true -> p c = false -> k (c :: v) = Some r ->
  greedy p k (u ++ c :: v) = Some r.
Proof.
  intros Hu Hc Hk. induction u as [|x u IH]; simpl.
  - now rewrite Hc.
  - simpl in Hu. apply andb_true_iff in Hu as [Hx Hu].
    now rewrite Hx, (IH Hu).
Qed.

Lemma greedy_all p t :
  forallb p t = true -> greedy p (fun s => Some s) t = Some [].
Proof.
  induction t as [|c t IH]; simpl; [reflexivity|].
  intros H. apply andb_true_iff in H as [Hc H]. now rewrite Hc, IH.
Qed.

Definition after_domain : regex := [One (Ascii.eqb "."); Many1 isword].

Lemma word_is_email_class c : isword c = true -> email_class c = true.
Proof. intros H. unfold email_class. now rewrite H. Qed.

Lemma word_not_dot c : isword c = true -> Ascii.eqb "." c = false.
Proof. destruct c as [[] [] [] [] [] [] [] []]; vm_compute; auto; discriminate. Qed.

Lemma greedy_words t :
  forallb isword t = true ->
  greedy email_class (match_here after_domain) t = None.
Proof.
  induction t as [|c t IH]; [reflexivity|].
  intros H. simpl in H. apply andb_true_iff in H as [Hc H].
  cbn [greedy]. rewrite (word_is_email_class c Hc), (IH H).
  cbn [after_domain match_here]. now rewrite (word_not_dot c Hc).
Qed.

Lemma greedy_domain u t :
  forallb email_class u = true -> t <> [] -> forallb isword t = true ->
  greedy email_class (match_here after_domain) (u ++ "."%char :: t) = Some [].
Proof.
  intros Hu Hne Ht. induction u as [|x u IH].
  - cbn [app greedy]. change (email_class ".") with true. cbv iota.
    rewrite (greedy_words t Ht).
    destruct t as [|c t]; [contradiction|].
    simpl in Ht. apply andb_true_iff in Ht as [Hc Ht].
    cbn [after_domain match_here]. rewrite Ascii.eqb_refl, Hc.
    now apply greedy_all.
  - simpl in Hu. apply andb_true_iff in Hu as [Hx Hu].
    cbn [app greedy]. now rewrite Hx, (IH Hu).
Qed.

(** An e-mail on its own is matched whole. *)
Lemma match_whole_email w : email_shaped w -> match_here EMAIL_RE w = Some [].
Proof.
  intros (l & d & t & -> & Hl & Hd & Ht & Fl & Fd & Ft).
  destruct l as [|a l]; [contradiction|].
  destruct d as [|b d]; [contradiction|].
  simpl in Fl, Fd.
  apply andb_true_iff in Fl as [Fa Fl]. apply andb_true_iff in Fd as [Fb Fd].
  cbn [EMAIL_RE app match_here]. rewrite Fa.
  apply greedy_stop; [exact Fl | reflexivity |].
  cbn [match_here]. rewrite Ascii.eqb_refl, Fb.
  now apply greedy_domain.
Qed.

(** X17.  An answer that is an e-mail address and nothing else is cleaned
    to the marker itself, so all such answers fall into one row of the
    frequency table. *)
Theorem X17_lone_email_becomes_the_marker :
  forall w, email_shaped w -> clean_text (Some w) = redaction_marker.
Proof.
  intros w Hw. rewrite CleanFacts.clean_text_Some. unfold CleanFacts.redact.
  pose proof (match_whole_email w Hw) as Hm.
  destruct w as [|c w].
  { apply email_shaped_lang, CleanFacts.lang_email_nonempty in Hw. contradiction. }
  rewrite sub_cons by apply CleanFacts.EMAIL_RE_atoms. rewrite Hm.
  rewrite sub_nil, app_nil_r. vm_compute. reflexivity.
Qed.

Lemma X17_witness : clean_text (Some (txt "a.b-c@d.com")) = redaction_marker.
Proof.
  apply X17_lone_email_becomes_the_marker.
  exists (txt "a.b-c"), (txt "d"), (txt "com"). vm_compute.
  repeat split; discriminate.
Defined.

Lemma answers_no_email s t : In t (answers s) -> no_email t.
Proof.
  unfold answers. intros H. apply in_map_iff in H as (v & <- & _).
  apply no_email_found. apply CleanFacts.clean_text_no_email.
Qed.

Lemma firstn_In {A} n (l : list A) x : In x (firstn n l) -> In x l.
Proof.
  intros H. rewrite <- (firstn_skipn n l). apply in_or_app. now left.
Qed.

Lemma comment_bullets ctl df t :
  In (Bullet t) (comments_section ctl df) ->
  exists c, In c (comment_cols df) /\ In t (comments df c).
Proof.
  unfold comments_section. destruct (comment_cols df) as [|c0 cs] eqn:E.
  - intros [H|[]]. discriminate.
  - intros H. apply in_flat_map in H as (c & Hc & H). exists c.
    split; [exact Hc|]. unfold comment_block in H.
    destruct H as [H|H]; [discriminate|].
    apply in_app_or in H as [H|[H|[]]]; [|discriminate].
    destruct (comments df c) as [|x xs] eqn:Ec.
    + destruct H as [H|[]]. discriminate.
    + apply in_map_iff in H as (t' & Et & H). inversion Et; subst.
      now apply firstn_In in H.
Qed.

Lemma bullets_no_email ctl df t :
  In (Bullet t) (comments_section ctl df) -> no_email t.
Proof.
  intros H. apply comment_bullets in H as (c & _ & H).
  unfold comments in H. destruct (getcol df c) as [s|]; [|contradiction].
  now apply answers_no_email in H.
Qed.

(** The comment section holds no table. *)
Lemma comment_elements ctl df t :
  In (Raw_table t) (comments_section ctl df) -> False.
Proof.
  unfold comments_section. destruct (comment_cols df) as [|c0 cs].
  - intros [H|[]]. discriminate.
  - intros H. apply in_flat_map in H as (c & _ & H). unfold comment_block in H.
    destruct H as [H|H]; [discriminate|].
    apply in_app_or in H as [H|[H|[]]]; [|discriminate].
    destruct (comments df c).
    + destruct H as [H|[]]. discriminate.
    + apply in_map_iff in H as (x & Hx & _). discriminate.
Qed.

(** X18.  No e-mail address is printed among the answers: no bullet of
    the comment section and no row of a frequency table holds a substring
    with the shape of an e-mail, whatever the toggles. *)
Theorem X18_no_email_among_the_answers :
  (forall ctl df t, In (Bullet t) (comments_section ctl df) -> no_email t)
  /\ (forall df q k n, In (k, n) (freq df q) -> no_email k).
Proof.
  split; [exact bullets_no_email|].
  - intros df q k n H. unfold freq in H.
    destruct (getcol df q) as [s|]; [|contradiction].
    apply value_counts_In in H as [H _]. now apply answers_no_email in H.
Qed.

Definition x18_sheet : dataframe :=
  [(txt "Feedback", [Some (Text (txt "fale comigo: ana@uni.br")); None])].

Lemma X18_witness : no_email (txt "fale comigo: [e-mail removido]").
Proof.
  apply (proj1 X18_no_email_among_the_answers default_controls x18_sheet).
  vm_compute. right. now left.
Defined.

(* ===================================================================== *)
(** * Further properties: the summary and the run *)
(* ===================================================================== *)

Lemma fold_min_spec ts : forall t,
  (In (fold_left Z.min ts t) (t :: ts))
  /\ forall x, In x (t :: ts) -> (fold_left Z.min ts t <= x)%Z.
Proof.
  induction ts as [|y ts IH]; intros t; simpl.
  - split; [now left|]. intros x [<-|[]]. lia.
  - destruct (IH (Z.min t y)) as [Hin Hle]. split.
    + destruct Hin as [E|Hin]; [|now right; right].
      rewrite <- E. destruct (Z.min_spec t y) as [[_ ->]|[_ ->]]; auto.
    + pose proof (Hle (Z.min t y) (or_introl eq_refl)) as H0.
      intros x [Hx|[Hx|Hx]]; [subst; lia | subst; lia |].
      apply Hle. now right.
Qed.

Lemma fold_max_spec ts : forall t,
  (In (fold_left Z.max ts t) (t :: ts))
  /\ forall x, In x (t :: ts) -> (x <= fold_left Z.max ts t)%Z.
Proof.
  induction ts as [|y ts IH]; intros t; simpl.
  - split; [now left|]. intros x [<-|[]]. lia.
  - destruct (IH (Z.max t y)) as [Hin Hle]. split.
    + destruct Hin as [E|Hin]; [|now right; right].
      rewrite <- E. destruct (Z.max_spec t y) as [[_ ->]|[_ ->]]; auto.
    + pose proof (Hle (Z.max t y) (or_introl eq_refl)) as H0.
      intros x [Hx|[Hx|Hx]]; [subst; lia | subst; lia |].
      apply Hle. now right.
Qed.

Lemma date_mono a b : (a <= b)%Z -> (date a <= date b)%Z.
Proof. intros H. unfold date. apply Z.div_le_mono; [reflexivity | exact H]. Qed.

Lemma In_dropna_map {A B} (f : A -> option B) s y :
  In y (dropna (map f s)) <-> exists v, In v s /\ f v = Some y.
Proof.
  unfold dropna. rewrite in_flat_map. split.
  - intros (o & Ho & Hy). apply in_map_iff in Ho as (v & <- & Hv).
    destruct (f v) as [z|] eqn:E; [|contradiction].
    destruct Hy as [<-|[]]. now exists v.
  - intros (v & Hv & E). exists (Some y). split.
    + apply in_map_iff. now exists v.
    + now left.
Qed.

Lemma preferred_nonempty p : In p preferred -> lower p <> [].
Proof.
  intros H. simpl in H.
  destruct H as [<-|[<-|[<-|[<-|[]]]]]; discriminate.
Qed.

(** The designated column has a name, so [if ts_col:] holds. *)
Lemma ts_col_truthy df c : ts_col df = Some c -> truthy c = true.
Proof.
  intros H. unfold ts_col, guess_timestamp_col in H.
  apply guess_from_Some in H as (ps1 & p & ps2 & E & _ & Hp).
  apply first_col_Some in Hp as (c1 & c2 & _ & Hc & _).
  unfold labelled in Hc. apply contains_iff in Hc as (pre & suf & Ec).
  assert (Hp : In p preferred) by (rewrite E; apply in_or_app; right; now left).
  apply preferred_nonempty in Hp.
  unfold truthy. apply negb_true_iff, Nat.eqb_neq.
  assert (Hlen : length (lower c) = length c) by apply length_map.
  rewrite <- Hlen, Ec, !length_app.
  destruct (lower p); [contradiction | simpl; lia].
Qed.

Section PeriodFacts.
Variable to_datetime : option value -> option Z.
Variable sort_values : list row -> list row.

(** X19.  The period tile shows two dates exactly when a timestamp column
    is designated and one of its cells is read as an instant.  The two
    dates are then those of cells of that column, the first is not after
    the second, and the date of every cell read as an instant lies
    between them.  Otherwise the tile shows the dash. *)
Theorem X19_period_spans_the_answers :
  forall df,
    (forall a b,
       period_metric to_datetime df = Period_range a b ->
       exists c s,
         ts_col df = Some c /\ getcol df c = Some s
         /\ (exists v t, In v s /\ to_datetime v = Some t /\ a = date t)
         /\ (exists v t, In v s /\ to_datetime v = Some t /\ b = date t)
         /\ (a <= b)%Z
         /\ (forall v t, In v s -> to_datetime v = Some t ->
                         (a <= date t)%Z /\ (date t <= b)%Z))
    /\ (period_metric to_datetime df = Period_dash
        <-> ts_col df = None
            \/ exists c s,
                 ts_col df = Some c /\ getcol df c = Some s
                 /\ forall v, In v s -> to_datetime v = None).
Proof.
  intros df. unfold period_metric.
  destruct (ts_col df) as [c|] eqn:Hts.
  2:{ split; [discriminate|]. split; [now left | reflexivity]. }
  rewrite (ts_col_truthy df c Hts).
  destruct (In_getcol df c (guess_timestamp_col_In _ _ Hts)) as [s Hs].
  rewrite Hs.
  destruct (dropna (map to_datetime s)) as [|t ts] eqn:E.
  - split; [discriminate|]. split; [|reflexivity].
    intros _. right. exists c, s. repeat split; auto.
    intros v Hv. destruct (to_datetime v) as [y|] eqn:Ey; [|reflexivity].
    assert (H : In y (dropna (map to_datetime s)))
      by (apply In_dropna_map; now exists v).
    rewrite E in H. contradiction.
  - split.
    + intros a b H. inversion H; subst a b. clear H.
      destruct (fold_min_spec ts t) as [Hmin Hlo].
      destruct (fold_max_spec ts t) as [Hmax Hhi].
      rewrite <- E in Hmin, Hmax.
      apply In_dropna_map in Hmin as (v1 & Hv1 & E1).
      apply In_dropna_map in Hmax as (v2 & Hv2 & E2).
      exists c, s. split; [reflexivity|]. split; [exact Hs|].
      split; [now exists v1, (fold_left Z.min ts t)|].
      split; [now exists v2, (fold_left Z.max ts t)|].
      split.
      * apply date_mono. specialize (Hlo t (or_introl eq_refl)).
        specialize (Hhi t (or_introl eq_refl)). lia.
      * intros v y Hv Ey.
        assert (Hy : In y (t :: ts)).
        { rewrite <- E. apply In_dropna_map. now exists v. }
        split; apply date_mono; [now apply Hlo | now apply Hhi].
    + split; [discriminate|].
      intros [H|(c' & s' & Hc' & Hs' & Hall)]; [discriminate|].
      inversion Hc'; subst c'. rewrite Hs in Hs'. inversion Hs'; subst s'.
      assert (H : In t (dropna (map to_datetime s))) by (rewrite E; now left).
      apply In_dropna_map in H as (v & Hv & Ev).
      rewrite (Hall v Hv) in Ev. discriminate.
Qed.

Lemma script_parts ctl df q e :
  empty df = false ->
  In (Part e) (script to_datetime sort_values ctl (Some df) q) ->
  In e (indicators_section sort_values ctl df) \/ In e (frequency_section ctl df q)
  \/ In e (comments_section ctl df) \/ In e (raw_table_section ctl df).
Proof.
  intros Hne. unfold script. rewrite Hne. cbn [app].
  intros H. repeat (destruct H as [H|H]; [discriminate|]).
  assert (Hpart : forall l, In (Part e) (map Part l) -> In e l).
  { intros l Hl. apply in_map_iff in Hl as (e' & Ee & He).
    inversion Ee; subst. exact He. }
  apply in_app_or in H as [H|H]; [left; now apply Hpart|].
  destruct H as [H|H]; [discriminate|].
  apply in_app_or in H as [H|H]; [right; left; now apply Hpart|].
  destruct H as [H|H]; [discriminate|].
  apply in_app_or in H as [H|H]; [right; right; left; now apply Hpart|].
  apply in_app_or in H as [H|H].
  - destruct (show_raw_table ctl); [|contradiction].
    destruct H as [H|H]; [discriminate|]. right. right. right. now apply Hpart.
  - destruct H as [H|[]]. discriminate.
Qed.

(** Past the two halts a block of the page is a part of a section or one
    of the fixed blocks. *)
Lemma script_blocks ctl df q b :
  empty df = false ->
  In b (script to_datetime sort_values ctl (Some df) q) ->
  (exists e, b = Part e)
  \/ In b [Page_title; Page_caption; Subheader Summary_heading;
           Respondents (nrows df); Period (period_metric to_datetime df);
           Score (score_metric df); Subheader Indicators_heading;
           Subheader Questions_heading; Subheader Comments_heading;
           Subheader Table_heading; Footer].
Proof.
  intros Hne. unfold script. rewrite Hne. cbn [app].
  assert (Hmap : forall l, In b (map Part l) -> exists e, b = Part e).
  { intros l Hl. apply in_map_iff in Hl as (e & <- & _). now exists e. }
  intros H.
  do 7 (destruct H as [H|H]; [right; subst; simpl; tauto|]).
  apply in_app_or in H as [H|H]; [left; exact (Hmap _ H)|].
  destruct H as [H|H]; [right; subst; simpl; tauto|].
  apply in_app_or in H as [H|H]; [left; exact (Hmap _ H)|].
  destruct H as [H|H]; [right; subst; simpl; tauto|].
  apply in_app_or in H as [H|H]; [left; exact (Hmap _ H)|].
  apply in_app_or in H as [H|H].
  - destruct (show_raw_table ctl); [|contradiction].
    destruct H as [H|H]; [right; subst; simpl; tauto|].
    left. exact (Hmap _ H).
  - destruct H as [H|[]]. right; subst; simpl; tauto.
Qed.

(** X20.  A run without a file shows only the prompt and a run on a sheet
    without rows or without columns only the warning: no tile, heading or
    section follows the halt.  A run that is not halted opens with the
    summary heading and the three tiles, the first of which counts the
    rows of the sheet, at least one, and is the only such tile; it prints
    no e-mail in a comment bullet, and shows the raw table only with the
    toggle on, as the working table. *)
Theorem X20_run_halts_and_sections :
  forall ctl up q,
    (up = None ->
     script to_datetime sort_values ctl up q
     = [Page_title; Page_caption; Upload_prompt])
    /\ (forall df, up = Some df -> empty df = true ->
        script to_datetime sort_values ctl up q
        = [Page_title; Page_caption; Empty_warning])
    /\ (forall df, up = Some df -> empty df = false ->
        firstn 6 (script to_datetime sort_values ctl up q)
        = [Page_title; Page_caption; Subheader Summary_heading;
           Respondents (nrows df); Period (period_metric to_datetime df);
           Score (score_metric df)]
        /\ 1 <= nrows df
        /\ (forall n, In (Respondents n) (script to_datetime sort_values ctl up q)
                      -> n = nrows df))
    /\ (forall n, In (Respondents n) (script to_datetime sort_values ctl up q) ->
        1 <= n)
    /\ (forall t, In (Part (Bullet t)) (script to_datetime sort_values ctl up q) ->
        no_email t)
    /\ (forall t, In (Part (Raw_table t)) (script to_datetime sort_values ctl up q) ->
        show_raw_table ctl = true
        /\ exists df, up = Some df /\ t = df_work ctl df)
    /\ (forall df, up = Some df -> empty df = false ->
        show_raw_table ctl = true ->
        In (Part (Raw_table (df_work ctl df)))
           (script to_datetime sort_values ctl up q)).
Proof.
  intros ctl up q. split; [intros ->; reflexivity|]. split.
  { intros df -> He. unfold script. now rewrite He. }
  assert (Hresp : forall df n,
             empty df = false ->
             In (Respondents n) (script to_datetime sort_values ctl (Some df) q) ->
             n = nrows df).
  { intros df n He H. apply (script_blocks ctl df q _ He) in H.
    destruct H as [(e & H)|H]; [discriminate|]. simpl in H.
    repeat (destruct H as [H|H]; [try discriminate|]); [|contradiction].
    now inversion H. }
  assert (Hrows : forall df, empty df = false -> 1 <= nrows df).
  { intros df He. destruct df as [|[c s] df]; [discriminate|].
    simpl in He. apply Nat.eqb_neq in He. simpl. lia. }
  split.
  { intros df -> He. split; [unfold script; rewrite He; reflexivity|].
    split; [now apply Hrows|]. intros n. now apply Hresp. }
  split.
  { intros n H. destruct up as [df|].
    2:{ simpl in H. repeat (destruct H as [H|H]; [discriminate|]). contradiction. }
    destruct (empty df) eqn:He.
    { unfold script in H. rewrite He in H. simpl in H.
      repeat (destruct H as [H|H]; [discriminate|]). contradiction. }
    rewrite (Hresp df n He H). now apply Hrows. }
  split; [|split].
  3:{ intros df -> He Hshow. unfold script. rewrite He, Hshow.
      unfold raw_table_section. rewrite Hshow. cbn [map].
      repeat (cbn [In app]; rewrite ?in_app_iff). cbn [In]. tauto. }
  all: destruct up as [df|];
    [|intros x H; simpl in H;
      repeat (destruct H as [H|H]; [discriminate|]); contradiction].
  all: destruct (empty df) eqn:He;
    [intros x H; unfold script in H; rewrite He in H; simpl in H;
     repeat (destruct H as [H|H]; [discriminate|]); contradiction|].
  - intros t H. apply (script_parts ctl df q _ He) in H.
    destruct H as [H|[H|[H|H]]].
    + unfold indicators_section in H.
      destruct (numeric_cols (df_work ctl df)); simpl in H;
        repeat (destruct H as [H|H]; [discriminate|]); contradiction.
    + unfold frequency_section in H.
      destruct (textual_cols ctl df); simpl in H;
        repeat (destruct H as [H|H]; [discriminate|]); contradiction.
    + now apply (bullets_no_email ctl df t).
    + unfold raw_table_section in H.
      destruct (show_raw_table ctl); simpl in H;
        repeat (destruct H as [H|H]; [discriminate|]); contradiction.
  - intros t H. apply (script_parts ctl df q _ He) in H.
    destruct H as [H|[H|[H|H]]].
    + unfold indicators_section in H.
      destruct (numeric_cols (df_work ctl df)); simpl in H;
        repeat (destruct H as [H|H]; [discriminate|]); contradiction.
    + unfold frequency_section in H.
      destruct (textual_cols ctl df); simpl in H;
        repeat (destruct H as [H|H]; [discriminate|]); contradiction.
    + apply comment_elements in H. contradiction.
    + unfold raw_table_section in H.
      destruct (show_raw_table ctl); [|contradiction].
      destruct H as [H|[]]. inversion H; subst.
      split; [reflexivity|]. now exists df.
Qed.

End PeriodFacts.

(** A reading of dates for the examples: an integer cell is the instant
    itself, anything else is no date. *)
Definition instant_of_cell (v : option value) : option Z :=
  match v with
  | Some (Int z) => Some z
  | _ => None
  end.

Definition x19_sheet : dataframe :=
  [(txt "Timestamp",
    [Some (Int 172800000000000); Some (Text (txt "?")); Some (Int 86400000000000)]);
   (txt "Nota", [Some (Int 5); Some (Int 4); Some (Int 3)])].

(** X19 on a sheet whose answers came on day 2 and on day 1. *)
Lemma X19_witness :
  exists c s,
    ts_col x19_sheet = Some c /\ getcol x19_sheet c = Some s
    /\ (exists v t, In v s /\ instant_of_cell v = Some t /\ 1%Z = date t)
    /\ (exists v t, In v s /\ instant_of_cell v = Some t /\ 2%Z = date t)
    /\ (1 <= 2)%Z
    /\ (forall v t, In v s -> instant_of_cell v = Some t ->
                    (1 <= date t)%Z /\ (date t <= 2)%Z).
Proof.
  apply (proj1 (X19_period_spans_the_answers instant_of_cell x19_sheet)).
  vm_compute. reflexivity.
Defined.

(** X20 on a run without a file. *)
Lemma X20_witness :
  script instant_of_cell stable_sort default_controls None (txt "Curso")
  = [Page_title; Page_caption; Upload_prompt].
Proof.
  apply (proj1 (X20_run_halts_and_sections instant_of_cell stable_sort
                  default_controls None (txt "Curso"))).
  reflexivity.
Defined.
